(** * Pagination engine and device inspection task of [inspection_tool.py]

    A shallow embedding of the live-session part of the inspection tool:
    the string helpers [_safe_str] and [_strip_or_empty], the pagination
    engine [handle_pagination], the channel probe [channel_closed], the
    per-device task [inspection] and the device validation loop of the
    scheduler, followed by the properties established about them.

    Conventions of the embedding
    - A Python [str] is a list of Unicode code points ([pystr]).  Literals
      are written as UTF-8 text and decoded by [lit].
    - Wall-clock readings and timeouts are rationals (seconds).
    - The remote device, the clock and the log are one explicit [world]
      that every session operation threads through; operations that can
      raise return a [res]. *)

From Stdlib Require Import List String Ascii NArith ZArith QArith Qminmax Lqa Lia Bool.
From stdpp Require Import gmap.
Import ListNotations.

(* ================================================================== *)
(** ** Python strings *)
(* ================================================================== *)

Module PyStr.

Definition pystr := list N.

(** UTF-8 decoding of a literal: [need] continuation bytes are still
    expected for the code point accumulated in [acc]. *)
Fixpoint utf8_go (bs : list N) (need : nat) (acc : N) : pystr :=
  match bs with
  | [] => []
  | b :: bs' =>
      match need with
      | O =>
          if (b <? 128)%N then b :: utf8_go bs' 0 0%N
          else if (b <? 224)%N then utf8_go bs' 1 (b - 192)%N
          else if (b <? 240)%N then utf8_go bs' 2 (b - 224)%N
          else utf8_go bs' 3 (b - 240)%N
      | S k =>
          let acc' := (acc * 64 + (b - 128))%N in
          match k with
          | O => acc' :: utf8_go bs' 0 0%N
          | S _ => utf8_go bs' k acc'
          end
      end
  end.

Definition lit (s : string) : pystr :=
  utf8_go (List.map N_of_ascii (list_ascii_of_string s)) 0 0%N.

Arguments lit s%_string.

(** [str.isspace] on one code point (CPython's whitespace table). *)
Definition py_isspace (c : N) : bool :=
  ((9 <=? c) && (c <=? 13) || (28 <=? c) && (c <=? 32)
   || (c =? 133) || (c =? 160) || (c =? 5760)
   || (8192 <=? c) && (c <=? 8202)
   || (c =? 8232) || (c =? 8233) || (c =? 8239) || (c =? 8287)
   || (c =? 12288))%N.

Fixpoint py_lstrip (s : pystr) : pystr :=
  match s with
  | [] => []
  | c :: t => if py_isspace c then py_lstrip t else s
  end.

Definition py_rstrip (s : pystr) : pystr := rev (py_lstrip (rev s)).

(** [s.strip()] *)
Definition py_strip (s : pystr) : pystr := py_rstrip (py_lstrip s).

Fixpoint py_startswith (s p : pystr) : bool :=
  match p, s with
  | [], _ => true
  | _ :: _, [] => false
  | a :: p', b :: s' => (a =? b)%N && py_startswith s' p'
  end.

(** [p in s] for two strings. *)
Fixpoint py_in (p s : pystr) : bool :=
  py_startswith s p ||
  match s with
  | [] => false
  | _ :: t => py_in p t
  end.

(** [s.lower()].  Exact on ASCII letters; other code points are kept.
    The strings this is compared against ([PAGINATION_PATTERNS], quit)
    are ASCII. *)
Definition lower_cp (c : N) : N :=
  if ((65 <=? c) && (c <=? 90))%N then (c + 32)%N else c.

Definition py_lower (s : pystr) : pystr := List.map lower_cp s.

Definition py_eqb (a b : pystr) : bool := bool_decide (a = b).

(** [s.replace(pat, "")] for a non-empty [pat]: occurrences are removed
    left to right without overlap; [skip] counts the characters of the
    current occurrence that are still to be dropped. *)
Fixpoint py_remove_go (pat s : pystr) (skip : nat) : pystr :=
  match s with
  | [] => []
  | c :: t =>
      match skip with
      | S k => py_remove_go pat t k
      | O =>
          if py_startswith s pat
          then py_remove_go pat t (Nat.pred (length pat))
          else c :: py_remove_go pat t 0
      end
  end.

Definition py_remove (pat s : pystr) : pystr := py_remove_go pat s 0.

(** [any(p in s for p in pats)] *)
Definition any_in (pats : list pystr) (s : pystr) : bool :=
  existsb (fun p => py_in p s) pats.

(** [x in xs] for a list or set of strings. *)
Definition py_elem (x : pystr) (xs : list pystr) : bool :=
  existsb (py_eqb x) xs.

(** [", ".join(xs)] *)
Fixpoint py_join (sep : pystr) (xs : list pystr) : pystr :=
  match xs with
  | [] => []
  | [x] => x
  | x :: rest => x ++ sep ++ py_join sep rest
  end.

End PyStr.
Export PyStr.

Example lit_ascii : lit "ab" = [97; 98]%N.
Proof. reflexivity. Qed.

Example lit_cjk : lit "警告" = [35686; 21578]%N.
Proof. reflexivity. Qed.

Example strip_both : py_strip (lit "  a b	 ") = lit "a b".
Proof. reflexivity. Qed.

Example remove_twice : py_remove (lit "ab") (lit "xababay") = lit "xay".
Proof. reflexivity. Qed.

(* ================================================================== *)
(** ** Values and the cleaning helpers *)
(* ================================================================== *)

(** The values a spreadsheet cell can reach the helpers with. *)
Inductive pyval :=
| VNone
| VFloat (repr : option pystr)   (* [None] is NaN, [Some r] has [str(x) = r] *)
| VStr (s : pystr)
| VOther (repr : pystr) (truth : bool).
  (* any other object, with its [str(x)] and [bool(x)] *)

(** [str(x)] *)
Definition py_str (x : pyval) : pystr :=
  match x with
  | VNone => lit "None"
  | VFloat None => lit "nan"
  | VFloat (Some r) => r
  | VStr s => s
  | VOther r _ => r
  end.

(** [bool(x)] *)
Definition truthy (x : pyval) : bool :=
  match x with
  | VNone => false
  | VFloat None => true
  | VFloat (Some r) => negb (py_eqb r (lit "0.0") || py_eqb r (lit "-0.0"))
  | VStr s => negb (py_eqb s [])
  | VOther _ t => t
  end.

Definition _safe_str (x : pyval) : pystr :=
  match x with
  | VNone => []
  | VFloat None => []
  | VFloat (Some r) => r
  | VStr s => s
  | VOther r _ => r
  end.

(** [re.sub] deleting every carriage return, line feed and tab. *)
Definition strip_controls (s : pystr) : pystr :=
  List.filter (fun c => negb ((c =? 13) || (c =? 10) || (c =? 9))%N) s.

Definition _strip_or_empty (x : pyval) : pystr :=
  match x with
  | VStr s => py_strip (strip_controls (py_remove (lit "_x000d_") s))
  | _ => []
  end.

(* ================================================================== *)
(** ** Global configuration *)
(* ================================================================== *)

Definition INSPECTION_TASK_TIMEOUT : Q := 600.
Definition INSPECTION_CMD_TIMEOUT : Q := 10.
Definition DEFAULT_TIMEOUT : Q := INSPECTION_CMD_TIMEOUT.
Definition LONG_TIMEOUT : Q := Qmax (INSPECTION_CMD_TIMEOUT * 3) 240.
Definition DEFAULT_MAX_PAGE : Z := 200.
Definition BIG_OUTPUT_MAX_PAGE : Z := DEFAULT_MAX_PAGE * 3.
Definition MAX_REPEAT_PAGE : Z := 5.

Definition NO_OUTPUT_CMDS : list pystr :=
  [ lit "sys"; lit "enable"; lit "user-inter con 0"; lit "quit";
    lit "undo screen-length"; lit "screen-length disable";
    lit "screen-length enable"; lit "screen-length 0";
    lit "screen-length 0 temporary" ].

Definition BIG_OUTPUT_CMDS : list pystr :=
  [ lit "display ospf routing";
    lit "display ip routing-table statistics";
    lit "display ip routing-table";
    lit "display current-configuration";
    lit "display interface";
    lit "display stp";
    lit "display mac-address";
    lit "display device manuinfo";
    lit "display elabel" ].

Definition PAGINATION_PATTERNS : list pystr :=
  [ lit "---- More ----";
    lit "  ---- More ----  ";
    lit "---- More ----  ";
    lit "  ---- More ----";
    lit "--More--";
    lit "<--- More --->";
    lit "<Press ENTER to continue>" ].

(** Local tables of [handle_pagination]. *)
Definition error_patterns : list pystr :=
  [ lit "Permission denied";
    lit "Unrecognized command";
    lit "% Unrecognized command";
    lit "Error: Unrecognized command";
    lit "invalid input";
    lit "Invalid command" ].

Definition alternative_cmds : list pystr :=
  [ lit "screen-length 0";
    lit "screen-length 0 temporary";
    lit "undo screen-length";
    lit "screen-length enable" ].

Definition space_markers : list pystr :=
  [ lit "---- More ----"; lit "--More--"; lit "<--- More --->";
    lit "  ---- More ----  "; lit "---- More ----  "; lit "  ---- More ----" ].

Definition DEADLOCK_WARNING : pystr :=
  [10%N] ++ lit "[警告] 多次翻页后内容无变化，可能陷入分页死循环，已强制中止。" ++ [10%N].

Definition TIMEOUT_WARNING : pystr :=
  [10%N] ++ lit "[警告] 分页命令执行超时，已强制中止。" ++ [10%N].

(** The test used three times in the source:
    ["Unrecognized command" in s or "Error: Unrecognized command found at
    '^' position." in s]. *)
Definition unrecognized (s : pystr) : bool :=
  py_in (lit "Unrecognized command") s
  || py_in (lit "Error: Unrecognized command found at '^' position.") s.

(* ================================================================== *)
(** ** Exceptions, results and the session world *)
(* ================================================================== *)

(** A raised exception: an instance of [Exception] with its class name,
    its [str(e)] and the [isinstance] facts the handlers look at. *)
Record exn := MkExn {
  exn_name : pystr;                 (* [type(e).__name__] *)
  exn_msg : pystr;                  (* [str(e)] *)
  is_OSError : bool;
  is_NetmikoTimeoutException : bool;
  is_AttributeError : bool
}.

(** [KeyError(key)] for a key without quotes in it: [str(e)] is the
    [repr] of the key. *)
Definition KeyError (key : pystr) : exn :=
  MkExn (lit "KeyError") (lit "'" ++ key ++ lit "'") false false false.

Inductive res (A : Type) :=
| Ok (a : A)
| Raise (e : exn)
| OutOfFuel.

Arguments Ok {A} a.
Arguments Raise {A} e.
Arguments OutOfFuel {A}.

(** What reading an attribute of a foreign object can do. *)
Inductive attr (A : Type) :=
| Missing
| Has (a : A)
| Throws (e : exn).

Arguments Missing {A}.
Arguments Has {A} a.
Arguments Throws {A} e.

(** The Paramiko channel behind a session, as far as it is inspected. *)
Record channel := MkChannel { closed : attr bool }.

(** One [send_command_timing] exchange as the remote end plays it. *)
Record exchange := MkExchange {
  reply : exn + pystr;                        (* raised, or text read back *)
  took : Q;                                   (* seconds the call blocks *)
  conn_after : option (attr (option channel)) (* new [remote_conn], if changed *)
}.

Inductive level := Info | Warning | Error | Debug | Console.

(** Failure classes of the connect handler of [inspection]. *)
Inductive connect_failure :=
| MissingAddress | NoResponse | Unreachable | AuthFailure
| EnableAuthFailure | EnableNotNeeded | TelnetTimeout
| EnableAuthFailureReadTimeout | EnableNotNeededReadTimeout
| ProtocolError | MalformedLogin | UnknownError (e : exn).

(** Log lines, by the message they carry. *)
Inductive event :=
(* handle_pagination *)
| DbgNoOutputCmd (cmd_clean : pystr)
| DbgTryAlternative (cmd_clean alt : pystr)
| DbgAlternativeOk (alt : pystr)
| DbgCmdFailed (cmd_clean out : pystr)
| DbgNoOutput (cmd_clean : pystr)
| DbgMaybeNoEcho (cmd_clean : pystr)
| DbgResult (cmd_clean out : pystr)
| DbgBigOutput (cmd_clean : pystr)
| DbgBigOutputAdjust (max_page : Z) (timeout : Q)
| DbgUnrecognizedAbort (s_show : pystr)
| DbgPage (len : nat) (repeat_count : Z)
| DbgMarker (page_count : Z) (p : pystr)
| PagedWithSpace (cmd p : pystr)
| PagedWithEnter (cmd p : pystr)
(* inspection *)
| Connecting (host : pystr)
| DbgConnecting (host : pystr)
| ConnectFailed (host : pystr) (why : connect_failure)
| Inspecting (host : pystr)
| NoCommands (device_type host : pystr)
| SkipEmptyCommand (host : pystr)
| DbgRunCommand (host cmd_clean : pystr)
| TaskTimedOut (host : pystr)
| ChannelClosed (host : pystr)
| PaginationFailed (host : pystr) (e : exn)
| BaseOutputFailed (host : pystr) (e : exn)
| DbgCommandDone (host cmd : pystr)
| CommandUnrecognized (host cmd last : pystr)
| SocketClosedAfter (host cmd : pystr)
| CommandException (host cmd : pystr) (e : exn)
| SshTimeout (host : pystr) (e : exn)
| QuitClosed (host : pystr)
| QuitStillOpen (host : pystr)
| DbgClosing (host : pystr)
| RemoteAlreadyClosed (host : pystr)
| DisconnectFailed (host : pystr) (e : exn)
| DisconnectException (host : pystr) (e : exn)
| InspectionDone (host : pystr) (seconds : Q)
| ResourcesReleased (host : pystr)
| FinallyFailed (host : pystr) (e : exn)
| Printed (hostname cmd show : pystr)
(* scheduler *)
| SkippedIncomplete (missing_fields : list pystr) (device_info : gmap pystr pyval)
| TaskSubmitted (host : pystr).

Record world := MkWorld {
  now : Q;                                   (* [time.time()] *)
  device : nat -> exchange;                  (* the remote end's script *)
  cursor : nat;                              (* exchanges played so far *)
  remote_conn : attr (option channel);       (* [ssh.remote_conn] *)
  sent : list (pystr * Q);                   (* text written, with read_timeout *)
  connects : list (gmap pystr pyval);        (* login_info of each [ConnectHandler] call *)
  enables : nat;                             (* [ssh.enable()] calls *)
  disconnects : nat;                         (* [ssh.disconnect()] calls *)
  connect_result : option exn;               (* what [ConnectHandler] raises *)
  enable_result : option exn;                (* what [ssh.enable()] raises *)
  prompt_result : exn + pystr;               (* [ssh.find_prompt()] *)
  disconnect_result : option exn;            (* what [ssh.disconnect()] raises *)
  log : list (level * event)                 (* lines given to [log_message] *)
}.

(** State and exception monad over the world. *)
Definition M (A : Type) : Type := world -> res A * world.

Definition ret {A} (a : A) : M A := fun w => (Ok a, w).

Definition raise {A} (e : exn) : M A := fun w => (Raise e, w).

Definition bind {A B} (m : M A) (k : A -> M B) : M B :=
  fun w =>
    match m w with
    | (Ok a, w') => k a w'
    | (Raise e, w') => (Raise e, w')
    | (OutOfFuel, w') => (OutOfFuel, w')
    end.

(** [try: m  except Exception as e: h e] *)
Definition try_except {A} (m : M A) (h : exn -> M A) : M A :=
  fun w =>
    match m w with
    | (Raise e, w') => h e w'
    | r => r
    end.

Declare Scope py_scope.
Delimit Scope py_scope with py.
Notation "'let*' x ':=' m 'in' k" := (bind m (fun x => k))
  (at level 10, x pattern, m at level 99, k at level 200) : py_scope.
Notation "m ';;' k" := (bind m (fun _ => k))
  (at level 100, k at level 200, right associativity) : py_scope.
Open Scope py_scope.

(** *** Primitive operations *)

Definition time_time : M Q := fun w => (Ok (now w), w).

Definition log_message (lvl : level) (ev : event) : M unit :=
  fun w =>
    (Ok tt,
     MkWorld (now w) (device w) (cursor w) (remote_conn w) (sent w)
       (connects w) (enables w) (disconnects w) (connect_result w)
       (enable_result w) (prompt_result w) (disconnect_result w)
       (log w ++ [(lvl, ev)])).

(** [if enable_show_output == 'y': log_message(...)] *)
Definition debug (enable_show_output : pystr) (ev : event) : M unit :=
  if py_eqb enable_show_output (lit "y") then log_message Info ev else ret tt.

(** [ssh.send_command_timing(text, read_timeout=t)] *)
Definition send_command_timing (text : pystr) (read_timeout : Q) : M pystr :=
  fun w =>
    let x := device w (cursor w) in
    let w' :=
      MkWorld (now w + took x) (device w) (S (cursor w))
        (match conn_after x with Some c => c | None => remote_conn w end)
        (sent w ++ [(text, read_timeout)])
        (connects w) (enables w) (disconnects w) (connect_result w)
        (enable_result w) (prompt_result w) (disconnect_result w) (log w) in
    match reply x with
    | inl e => (Raise e, w')
    | inr out => (Ok out, w')
    end.

(** [ConnectHandler] applied to the fields of [login_info] *)
Definition ConnectHandler (login_info : gmap pystr pyval) : M unit :=
  fun w =>
    let w' :=
      MkWorld (now w) (device w) (cursor w) (remote_conn w) (sent w)
        (connects w ++ [login_info]) (enables w) (disconnects w)
        (connect_result w) (enable_result w) (prompt_result w)
        (disconnect_result w) (log w) in
    match connect_result w with
    | Some e => (Raise e, w')
    | None => (Ok tt, w')
    end.

(** [ssh.enable()] *)
Definition ssh_enable : M unit :=
  fun w =>
    let w' :=
      MkWorld (now w) (device w) (cursor w) (remote_conn w) (sent w)
        (connects w) (S (enables w)) (disconnects w)
        (connect_result w) (enable_result w) (prompt_result w)
        (disconnect_result w) (log w) in
    match enable_result w with
    | Some e => (Raise e, w')
    | None => (Ok tt, w')
    end.

(** [ssh.find_prompt()] *)
Definition find_prompt : M pystr :=
  fun w =>
    match prompt_result w with
    | inl e => (Raise e, w)
    | inr p => (Ok p, w)
    end.

(** [ssh.disconnect()] *)
Definition ssh_disconnect : M unit :=
  fun w =>
    let w' :=
      MkWorld (now w) (device w) (cursor w) (remote_conn w) (sent w)
        (connects w) (enables w) (S (disconnects w))
        (connect_result w) (enable_result w) (prompt_result w)
        (disconnect_result w) (log w) in
    match disconnect_result w with
    | Some e => (Raise e, w')
    | None => (Ok tt, w')
    end.

Definition Qgtb (a b : Q) : bool := negb (Qle_bool a b).

(* ================================================================== *)
(** ** The pagination engine *)
(* ================================================================== *)

(** The status strings of the no-output branch (Python f-strings). *)
Definition alt_succeeded_msg (cmd alt out : pystr) : pystr :=
  lit "命令 " ++ cmd ++ lit " 执行失败，已尝试替代命令 " ++ alt ++ lit "："
    ++ py_strip out.

Definition failed_msg (cmd out : pystr) : pystr :=
  lit "命令 " ++ cmd ++ lit " 执行失败：" ++ py_strip out.

Definition no_output_msg (cmd : pystr) : pystr :=
  lit "命令 " ++ cmd ++ lit " 执行完毕，无输出。".

Definition no_echo_msg (cmd : pystr) : pystr :=
  lit "命令 " ++ cmd ++ lit " 已发送，但可能无回显或未生效。".

Definition SKIP_EMPTY : pystr := lit "跳过空命令".

(** The [for alt_cmd in alternative_cmds] loop.  [Some s] is the value of
    its [return]; [None] means the loop ran to its end. *)
Fixpoint try_alternatives (alts : list pystr) (cmd cmd_clean : pystr)
    (timeout_per_cmd : Q) (enable_show_output : pystr) : M (option pystr) :=
  match alts with
  | [] => ret None
  | alt_cmd :: rest =>
      if negb (py_eqb alt_cmd cmd_clean) then
        debug enable_show_output (DbgTryAlternative cmd_clean alt_cmd) ;;
        let* alt_show := send_command_timing alt_cmd timeout_per_cmd in
        let alt_s_show := _safe_str (VStr alt_show) in
        if negb (any_in error_patterns alt_s_show) then
          debug enable_show_output (DbgAlternativeOk alt_cmd) ;;
          ret (Some (alt_succeeded_msg (_safe_str (VStr cmd)) alt_cmd alt_s_show))
        else
          try_alternatives rest cmd cmd_clean timeout_per_cmd enable_show_output
      else
        try_alternatives rest cmd cmd_clean timeout_per_cmd enable_show_output
  end.

(** Branch 1 of [handle_pagination]: [cmd_clean in NO_OUTPUT_CMDS]. *)
Definition no_output_command (cmd cmd_clean : pystr) (timeout_per_cmd : Q)
    (enable_show_output : pystr) : M pystr :=
  debug enable_show_output (DbgNoOutputCmd cmd_clean) ;;
  let* show := send_command_timing cmd timeout_per_cmd in
  let s_show := _safe_str (VStr show) in
  let has_error := any_in error_patterns s_show in
  let* early :=
    (if py_in (lit "screen-length") cmd_clean && has_error
     then try_alternatives alternative_cmds cmd cmd_clean timeout_per_cmd
            enable_show_output
     else ret None) in
  match early with
  | Some status => ret status
  | None =>
      if has_error then
        debug enable_show_output (DbgCmdFailed cmd_clean (py_strip s_show)) ;;
        ret (failed_msg (_safe_str (VStr cmd)) s_show)
      else if py_eqb (py_strip s_show) [] then
        debug enable_show_output (DbgNoOutput cmd_clean) ;;
        ret (no_output_msg (_safe_str (VStr cmd)))
      else if py_eqb (py_strip s_show) cmd then
        debug enable_show_output (DbgMaybeNoEcho cmd_clean) ;;
        ret (no_echo_msg (_safe_str (VStr cmd)))
      else
        debug enable_show_output (DbgResult cmd_clean (py_strip s_show)) ;;
        ret show
  end.

(** The [for pattern in PAGINATION_PATTERNS] scan of one loop iteration:
    returns [found] and the new [show]. *)
Fixpoint scan_patterns (pats : list pystr) (cmd s_show show : pystr)
    (page_count : Z) (timeout_per_cmd : Q) (enable_show_output : pystr)
    : M (bool * pystr) :=
  match pats with
  | [] => ret (false, show)
  | pattern :: rest =>
      let p := _strip_or_empty (VStr (_safe_str (VStr pattern))) in
      if py_eqb p [] then
        scan_patterns rest cmd s_show show page_count timeout_per_cmd
          enable_show_output
      else if py_in p s_show || py_in (py_lower p) (py_lower s_show) then
        debug enable_show_output (DbgMarker page_count p) ;;
        if py_elem p space_markers then
          log_message Info (PagedWithSpace (_safe_str (VStr cmd)) p) ;;
          let* more := send_command_timing (lit " ") timeout_per_cmd in
          ret (true, show ++ more)
        else if py_eqb p (lit "<Press ENTER to continue>") then
          log_message Info (PagedWithEnter (_safe_str (VStr cmd)) p) ;;
          let* more := send_command_timing [10%N] timeout_per_cmd in
          ret (true, show ++ more)
        else ret (true, show)
      else
        scan_patterns rest cmd s_show show page_count timeout_per_cmd
          enable_show_output
  end.

(** The variables of the [while True] loop. *)
Record PageState := MkPage {
  show : pystr;
  page_count : Z;
  prev_output : pystr;
  repeat_count : Z
}.

(** The [while True] loop.  [fuel] bounds the number of times the body is
    entered; running out of it is reported as [OutOfFuel].  The result is
    the final [show] together with the number of body entries. *)
Fixpoint paging_loop (fuel : nat) (cmd cmd_clean : pystr) (timeout_per_cmd : Q)
    (max_page : Z) (enable_show_output : pystr) (pagination_start_time : Q)
    (st : PageState) (entries : nat) : M (pystr * nat) :=
  match fuel with
  | O => fun w => (OutOfFuel, w)
  | S fuel' =>
      let entries := S entries in
      let s_show := _safe_str (VStr (show st)) in
      if unrecognized s_show then
        debug enable_show_output (DbgUnrecognizedAbort s_show) ;;
        ret (show st, entries)
      else
        let same := py_eqb (py_strip s_show) (py_strip (prev_output st)) in
        let repeat_count := if same then (repeat_count st + 1)%Z else 0%Z in
        let prev_output := if same then prev_output st else s_show in
        debug enable_show_output
          (DbgPage (length (py_strip s_show)) repeat_count) ;;
        let current_max_repeat :=
          if py_elem cmd_clean BIG_OUTPUT_CMDS
          then (MAX_REPEAT_PAGE * 2)%Z else MAX_REPEAT_PAGE in
        if (repeat_count >=? current_max_repeat)%Z then
          ret (show st ++ DEADLOCK_WARNING, entries)
        else
          let* t := time_time in
          if Qgtb (t - pagination_start_time) timeout_per_cmd then
            ret (show st ++ TIMEOUT_WARNING, entries)
          else
            let* scanned :=
              scan_patterns PAGINATION_PATTERNS cmd s_show (show st)
                (page_count st) timeout_per_cmd enable_show_output in
            let found := fst scanned in
            let page_count := (page_count st + 1)%Z in
            if negb found || (page_count >? max_page)%Z then
              ret (snd scanned, entries)
            else
              paging_loop fuel' cmd cmd_clean timeout_per_cmd max_page
                enable_show_output pagination_start_time
                (MkPage (snd scanned) page_count prev_output repeat_count)
                entries
  end.

(** Body entries that can ever be needed for a page ceiling. *)
Definition loop_fuel (max_page : Z) : nat := S (Z.to_nat max_page).

(** Branch 3 of [handle_pagination], from the first send on. *)
Definition standard_paging (cmd cmd_clean : pystr) (timeout_per_cmd : Q)
    (max_page : Z) (enable_show_output : pystr) : M (pystr * nat) :=
  let* show := send_command_timing cmd timeout_per_cmd in
  let s_show := _safe_str (VStr show) in
  if unrecognized s_show then ret (show, O)
  else
    let* pagination_start_time := time_time in
    paging_loop (loop_fuel max_page) cmd cmd_clean timeout_per_cmd max_page
      enable_show_output pagination_start_time
      (MkPage show 0 [] 0) O.

Definition handle_pagination (cmd : pyval) (timeout_per_cmd : Q)
    (max_page : Z) (enable_show_output : pystr) : M pystr :=
  let cmd := _safe_str cmd in
  let cmd_clean := _strip_or_empty (VStr cmd) in
  if py_eqb cmd_clean [] then ret SKIP_EMPTY
  else if py_elem cmd_clean NO_OUTPUT_CMDS then
    no_output_command cmd cmd_clean timeout_per_cmd enable_show_output
  else
    let big := py_elem cmd_clean BIG_OUTPUT_CMDS in
    (if big then debug enable_show_output (DbgBigOutput cmd_clean) else ret tt) ;;
    let max_page := if big then Z.max max_page BIG_OUTPUT_MAX_PAGE else max_page in
    let timeout_per_cmd :=
      if big then Qmin (timeout_per_cmd * 3) LONG_TIMEOUT else timeout_per_cmd in
    (if big then debug enable_show_output (DbgBigOutputAdjust max_page timeout_per_cmd)
     else ret tt) ;;
    let* r := standard_paging cmd cmd_clean timeout_per_cmd max_page
                enable_show_output in
    ret (fst r).

(* ================================================================== *)
(** ** The channel probe *)
(* ================================================================== *)

(** [getattr(obj, name, default)]: only an [AttributeError] is turned
    into the default. *)
Definition getattr {A} (a : attr A) (default : A) : M A :=
  match a with
  | Missing => ret default
  | Has v => ret v
  | Throws e => if is_AttributeError e then ret default else raise e
  end.

(** The body of the [try] statement of [channel_closed]. *)
Definition channel_probe : M bool :=
  let* rc := (fun ssh => getattr (remote_conn ssh) None ssh) in
  match rc with
  | None => ret true
  | Some rc => getattr (closed rc) false
  end.

Definition channel_closed : M bool :=
  try_except channel_probe (fun _ => ret true).

(* ================================================================== *)
(** ** The device inspection task *)
(* ================================================================== *)

(** [d[k]] and [d.get(k)] *)
Definition item (d : gmap pystr pyval) (k : pystr) : M pyval :=
  match d !! k with
  | Some v => ret v
  | None => raise (KeyError k)
  end.

Definition py_get (d : gmap pystr pyval) (k : pystr) : pyval :=
  match d !! k with
  | Some v => v
  | None => VNone
  end.

(** The [except Exception as ssh_error] handler: which line is logged. *)
Definition classify (e : exn) (secret : bool) : level * connect_failure :=
  let name := exn_name e in
  if py_eqb name (lit "AttributeError") then (Error, MissingAddress)
  else if py_eqb name (lit "NetmikoTimeoutException") then
    if py_in (lit "TCP timeout") (exn_msg e)
       || py_in (lit "Connection refused") (exn_msg e)
    then (Error, NoResponse) else (Error, Unreachable)
  else if py_eqb name (lit "NetmikoAuthenticationException") then (Error, AuthFailure)
  else if py_eqb name (lit "ValueError") then
    if secret then (Error, EnableAuthFailure) else (Info, EnableNotNeeded)
  else if py_eqb name (lit "TimeoutError") then (Error, TelnetTimeout)
  else if py_eqb name (lit "ReadTimeout") then
    if secret then (Error, EnableAuthFailureReadTimeout)
    else (Info, EnableNotNeededReadTimeout)
  else if py_eqb name (lit "ConnectionRefusedError") then (Error, ProtocolError)
  else if py_eqb name (lit "TypeError") then (Error, MalformedLogin)
  else (Error, UnknownError e).

(** How one pass through the body of [for cmd in cmds] ends. *)
Inductive flow := Continue | Break | Return.

(** Runs [m] and hands its exception, if any, to the caller as a value. *)
Definition attempt {A} (m : M A) : M (exn + A) :=
  fun w =>
    match m w with
    | (Ok a, w') => (Ok (inr a), w')
    | (Raise e, w') => (Ok (inl e), w')
    | (OutOfFuel, w') => (OutOfFuel, w')
    end.

(** [try: body  finally: cleanup] *)
Definition with_finally {A} (body : M A) (cleanup : M unit) : M A :=
  fun w =>
    match body w with
    | (OutOfFuel, w') => (OutOfFuel, w')
    | (r, w') =>
        match cleanup w' with
        | (Ok _, w'') => (r, w'')
        | (Raise e, w'') => (Raise e, w'')
        | (OutOfFuel, w'') => (OutOfFuel, w'')
        end
    end.

Section Task.

Variable login_info : gmap pystr pyval.
Variable cmds_dict : gmap pystr (list pyval).
Variable enable_show_output : pystr.
Variable host : pystr.                       (* [login_info["host"]] *)
Variable inspection_start_time : Q.

(** The handling of one command up to the end of its [try] statement:
    [inl] is a [continue] or [break] taken inside, [inr show] falls
    through to the quit check. *)
Definition run_command (cmd : pystr) (timeout_per_cmd : Q) : M (flow + pystr) :=
  try_except
    (let* show :=
       try_except
         (handle_pagination (VStr cmd) timeout_per_cmd DEFAULT_MAX_PAGE
            enable_show_output)
         (fun e =>
            log_message Error (PaginationFailed host e) ;;
            let* base_output :=
              try_except
                (send_command_timing (_safe_str (VStr cmd)) timeout_per_cmd)
                (fun e2 =>
                   log_message Error (BaseOutputFailed host e2) ;;
                   ret []) in
            debug enable_show_output (DbgCommandDone host cmd) ;;
            ret base_output) in
     let s_show := _safe_str (VStr show) in
     if unrecognized s_show then
       (* the line shows the last line of the trimmed output *)
       log_message Warning
         (CommandUnrecognized host (_safe_str (VStr cmd)) (py_strip s_show)) ;;
       ret (inl Continue)
     else ret (inr show))
    (fun e =>
       if is_OSError e then
         (if py_in (lit "Socket is closed") (exn_msg e)
          then log_message Info (SocketClosedAfter host (_safe_str (VStr cmd)))
          else log_message Error (CommandException host (_safe_str (VStr cmd)) e)) ;;
         ret (inl Break)
       else if is_NetmikoTimeoutException e then
         log_message Error (SshTimeout host e) ;;
         ret (inl Break)
       else raise e).

(** The body of [for cmd in cmds], with a console that takes every text:
    the [print] of step 8 writes its line.  [Printing.inspect_command]
    below is the same body with a console that can refuse a text. *)
Definition inspect_command (real_hostname : pystr) (cmd0 : pyval) : M flow :=
  let cmd := _safe_str cmd0 in
  let cmd_clean := _strip_or_empty (VStr cmd) in
  if py_eqb cmd_clean [] then
    log_message Debug (SkipEmptyCommand host) ;;
    ret Continue
  else
    debug enable_show_output (DbgRunCommand host cmd_clean) ;;
    let* t := time_time in
    let elapsed := (t - inspection_start_time)%Q in
    let remaining := (INSPECTION_TASK_TIMEOUT - elapsed)%Q in
    if Qle_bool remaining 0 then
      log_message Error (TaskTimedOut host) ;;
      try_except ssh_disconnect (fun _ => ret tt) ;;
      ret Return
    else
      let* is_closed := channel_closed in
      if is_closed then
        log_message Info (ChannelClosed host) ;;
        ret Break
      else
        let timeout_per_cmd := Qmin INSPECTION_CMD_TIMEOUT remaining in
        let* r := run_command cmd timeout_per_cmd in
        match r with
        | inl f => ret f
        | inr show =>
            let* leave :=
              (if py_eqb (py_lower (py_strip cmd)) (lit "quit") then
                 let* is_closed := channel_closed in
                 if is_closed then
                   log_message Info (QuitClosed host) ;; ret true
                 else
                   log_message Info (QuitStillOpen host) ;; ret false
               else ret false) in
            if leave then ret Break
            else
              (if py_eqb enable_show_output (lit "y")
               then log_message Console
                      (Printed real_hostname (_safe_str (VStr cmd)) show)
               else ret tt) ;;
              ret Continue
        end.

(** [for cmd in cmds]: [true] when the loop was left by [return]. *)
Fixpoint run_commands (real_hostname : pystr) (cmds : list pyval) : M bool :=
  match cmds with
  | [] => ret false
  | cmd :: rest =>
      let* f := inspect_command real_hostname cmd in
      match f with
      | Continue => run_commands real_hostname rest
      | Break => ret false
      | Return => ret true
      end
  end.

(** The [else] block of the connection attempt. *)
Definition inspect_connected : M unit :=
  let* prompt := find_prompt in
  let real_hostname := py_strip prompt in
  log_message Info (Inspecting host) ;;
  let* device_type := item login_info (lit "device_type") in
  let cmds :=
    match device_type with
    | VStr k => cmds_dict !! k
    | _ => None
    end in
  match cmds with
  | None | Some [] =>
      log_message Error (NoCommands (py_str device_type) host)
  | Some cmds =>
      run_commands real_hostname cmds ;; ret tt
  end.

(** The [finally] block; [bound] is [ssh is not None]. *)
Definition release (bound : bool) : M unit :=
  try_except
    ((if bound then
        try_except
          (debug enable_show_output (DbgClosing host) ;;
           ssh_disconnect)
          (fun e =>
             if is_OSError e then
               if py_in (lit "Socket is closed") (exn_msg e)
               then log_message Info (RemoteAlreadyClosed host)
               else log_message Error (DisconnectFailed host e)
             else log_message Error (DisconnectException host e))
      else ret tt) ;;
     let* inspection_end_time := time_time in
     log_message Info
       (InspectionDone host (inspection_end_time - inspection_start_time)) ;;
     log_message Info (ResourcesReleased host))
    (fun e => log_message Error (FinallyFailed host e)).

Definition secret_set : bool := truthy (py_get login_info (lit "secret")).

(** The [except Exception as ssh_error] handler. *)
Definition connect_failed (e : exn) : M unit :=
  log_message (fst (classify e secret_set)) (ConnectFailed host (snd (classify e secret_set))).

Definition open_session : M unit :=
  let* conn_timeout := item login_info (lit "conn_timeout") in
  log_message Info (Connecting host) ;;
  debug enable_show_output (DbgConnecting host) ;;
  ConnectHandler login_info.

Definition inspection_body : M unit :=
  let* opened := attempt open_session in
  match opened with
  | inl e => connect_failed e ;; release false
  | inr _ =>
      let* enabled := attempt (if secret_set then ssh_enable else ret tt) in
      match enabled with
      | inl e => connect_failed e ;; release true
      | inr _ => with_finally inspect_connected (release true)
      end
  end.

End Task.

(** [inspection(login_info, cmds_dict, enable_show_output)].  Every line
    the function logs formats [login_info["host"]]; without that key the
    first of them raises [KeyError] inside the [try], the handler and the
    [finally] block raise it again before logging anything, and the call
    ends with that exception. *)
Definition inspection (login_info : gmap pystr pyval)
    (cmds_dict : gmap pystr (list pyval)) (enable_show_output : pystr) : M unit :=
  let* inspection_start_time := time_time in
  match login_info !! lit "host" with
  | None => raise (KeyError (lit "host"))
  | Some h =>
      inspection_body login_info cmds_dict enable_show_output (py_str h)
        inspection_start_time
  end.

(* ================================================================== *)
(** ** The task with its console *)
(* ================================================================== *)

(** The argument of the [print] call that shows a command's output. *)
Definition printed_text (real_hostname cmd show : pystr) : pystr :=
  real_hostname ++ lit " " ++ cmd ++ lit " 回显如下：" ++ [10%N] ++ show ++ [10%N].

(** [print(text)].  The call stands after the [try] statement of the loop
    body, outside every handler.  The console may refuse a text (an
    encoding error, a closed stream); [stdout w text] is what it raises
    for [text] in state [w], [None] when the text is written. *)
Definition console_print (stdout : world -> pystr -> option exn)
    (real_hostname cmd show : pystr) : M unit :=
  fun w =>
    match stdout w (printed_text real_hostname cmd show) with
    | Some e => (Raise e, w)
    | None => log_message Console (Printed real_hostname cmd show) w
    end.

(** [inspection] with the console as it is: the same code as above, the
    [print] of step 8 being a call that can raise.  With a console that
    takes every text these are the functions above. *)
Module Printing.

Section WithConsole.

Variable stdout : world -> pystr -> option exn.
Variable login_info : gmap pystr pyval.
Variable cmds_dict : gmap pystr (list pyval).
Variable enable_show_output : pystr.
Variable host : pystr.
Variable inspection_start_time : Q.

(** The body of [for cmd in cmds]. *)
Definition inspect_command (real_hostname : pystr) (cmd0 : pyval) : M flow :=
  let cmd := _safe_str cmd0 in
  let cmd_clean := _strip_or_empty (VStr cmd) in
  if py_eqb cmd_clean [] then
    log_message Debug (SkipEmptyCommand host) ;;
    ret Continue
  else
    debug enable_show_output (DbgRunCommand host cmd_clean) ;;
    let* t := time_time in
    let elapsed := (t - inspection_start_time)%Q in
    let remaining := (INSPECTION_TASK_TIMEOUT - elapsed)%Q in
    if Qle_bool remaining 0 then
      log_message Error (TaskTimedOut host) ;;
      try_except ssh_disconnect (fun _ => ret tt) ;;
      ret Return
    else
      let* is_closed := channel_closed in
      if is_closed then
        log_message Info (ChannelClosed host) ;;
        ret Break
      else
        let timeout_per_cmd := Qmin INSPECTION_CMD_TIMEOUT remaining in
        let* r := run_command enable_show_output host cmd timeout_per_cmd in
        match r with
        | inl f => ret f
        | inr show =>
            let* leave :=
              (if py_eqb (py_lower (py_strip cmd)) (lit "quit") then
                 let* is_closed := channel_closed in
                 if is_closed then
                   log_message Info (QuitClosed host) ;; ret true
                 else
                   log_message Info (QuitStillOpen host) ;; ret false
               else ret false) in
            if leave then ret Break
            else
              (if py_eqb enable_show_output (lit "y")
               then console_print stdout real_hostname (_safe_str (VStr cmd)) show
               else ret tt) ;;
              ret Continue
        end.

(** [for cmd in cmds]: [true] when the loop was left by [return]. *)
Fixpoint run_commands (real_hostname : pystr) (cmds : list pyval) : M bool :=
  match cmds with
  | [] => ret false
  | cmd :: rest =>
      let* f := inspect_command real_hostname cmd in
      match f with
      | Continue => run_commands real_hostname rest
      | Break => ret false
      | Return => ret true
      end
  end.

(** The [else] block of the connection attempt. *)
Definition inspect_connected : M unit :=
  let* prompt := find_prompt in
  let real_hostname := py_strip prompt in
  log_message Info (Inspecting host) ;;
  let* device_type := item login_info (lit "device_type") in
  let cmds :=
    match device_type with
    | VStr k => cmds_dict !! k
    | _ => None
    end in
  match cmds with
  | None | Some [] =>
      log_message Error (NoCommands (py_str device_type) host)
  | Some cmds =>
      run_commands real_hostname cmds ;; ret tt
  end.

Definition inspection_body : M unit :=
  let* opened := attempt (open_session login_info enable_show_output host) in
  match opened with
  | inl e =>
      connect_failed login_info host e ;;
      release enable_show_output host inspection_start_time false
  | inr _ =>
      let* enabled :=
        attempt (if secret_set login_info then ssh_enable else ret tt) in
      match enabled with
      | inl e =>
          connect_failed login_info host e ;;
          release enable_show_output host inspection_start_time true
      | inr _ =>
          with_finally inspect_connected
            (release enable_show_output host inspection_start_time true)
      end
  end.

End WithConsole.

Definition inspection (stdout : world -> pystr -> option exn)
    (login_info : gmap pystr pyval) (cmds_dict : gmap pystr (list pyval))
    (enable_show_output : pystr) : M unit :=
  let* inspection_start_time := time_time in
  match login_info !! lit "host" with
  | None => raise (KeyError (lit "host"))
  | Some h =>
      inspection_body stdout login_info cmds_dict enable_show_output (py_str h)
        inspection_start_time
  end.

End Printing.

(* ================================================================== *)
(** ** The scheduler's validation loop *)
(* ================================================================== *)

Definition required_fields : list pystr :=
  [ lit "device_type"; lit "host"; lit "ip"; lit "username"; lit "port" ].

(** [[f for f in required_fields if str(device_info.get(f)).strip() == '']] *)
Definition missing_fields (device_info : gmap pystr pyval) : list pystr :=
  List.filter
    (fun f => py_eqb (py_strip (py_str (py_get device_info f))) [])
    required_fields.

Record pool := MkPool {
  submitted : list (gmap pystr pyval);       (* [executor.submit(inspection, d, ...)] *)
  futures : list pystr;                      (* host kept with each future *)
  main_log : list (level * event)
}.

(** [for device_info in devices_info] of the main program. *)
Fixpoint submit_devices (devices_info : list (gmap pystr pyval)) (p : pool)
    : res unit * pool :=
  match devices_info with
  | [] => (Ok tt, p)
  | device_info :: rest =>
      let missing := missing_fields device_info in
      match missing with
      | _ :: _ =>
          submit_devices rest
            (MkPool (submitted p) (futures p)
               (main_log p ++ [(Warning, SkippedIncomplete missing device_info)]))
      | [] =>
          let updated_device_info :=
            <[ lit "conn_timeout" := VOther (lit "15") true ]> device_info in
          let p1 := MkPool (submitted p ++ [updated_device_info]) (futures p)
                      (main_log p) in
          match device_info !! lit "host" with
          | None => (Raise (KeyError (lit "host")), p1)
          | Some h =>
              submit_devices rest
                (MkPool (submitted p1) (futures p1 ++ [py_str h])
                   (main_log p1 ++ [(Info, TaskSubmitted (py_str h))]))
          end
      end
  end.

(* ================================================================== *)
(** ** Reading the device and command tables *)
(* ================================================================== *)

(** The argument of [_clean_list_to_str]: a list or tuple, or one value. *)
Inductive pyarg :=
| ASeq (items : list pyval)
| AOne (v : pyval).

Definition _clean_list_to_str (seq : pyarg) : list pystr :=
  let seq := match seq with ASeq items => items | AOne v => [v] end in
  List.filter (fun sv => negb (py_eqb sv []))
    (List.map (fun v => _strip_or_empty (VStr (_safe_str v))) seq).

(** What loading the two sheets of the workbook does. *)
Inductive load_result :=
| FileNotFound                      (* [FileNotFoundError] *)
| SheetsMissing                     (* [ValueError]: a sheet is not there *)
| LoadError (e : exn)               (* any other exception *)
| Loaded (devices : list (gmap pystr pyval))   (* sheet 0, one record per row *)
         (cmds : gmap pystr (list pyval)).     (* sheet 1, one list per column *)

(** What one pass through the [try] of [read_encrypted_file] does. *)
Inductive password_try :=
| NoPassword                        (* nothing typed: [PasswordRequiredError] *)
| InvalidKey                        (* [msoffcrypto.exceptions.InvalidKeyError] *)
| Opened (l : load_result).

Inductive read_outcome :=
| Tables (devices_dict : list (gmap pystr pyval)) (cmds_dict : gmap pystr (list pyval))
| SysExit (code : Z)
| ReturnedNone.

(** [_strip_or_empty] applied to one cell of a frame. *)
Definition clean_cell (x : pyval) : pyval := VStr (_strip_or_empty x).

(** [devices_dataframe.apply(lambda col: col.map(_strip_or_empty))
    .to_dict('records')]: every cell cleaned. *)
Definition clean_devices (devices : list (gmap pystr pyval))
    : list (gmap pystr pyval) :=
  List.map (fun record => clean_cell <$> record) devices.

(** The command frame cleaned cell by cell, [to_dict('list')], and the
    second cleaning of every column. *)
Definition clean_cmds (cmds : gmap pystr (list pyval)) : gmap pystr (list pyval) :=
  (fun lst => List.map (fun x => VStr (_strip_or_empty (VStr (_safe_str x))))
                (List.map clean_cell lst)) <$> cmds.

(** The [while retry_count < max_retry] loop; the second component counts
    the password prompts.  This path cleans the two frames with
    [DataFrame.applymap]: [applymap] is what that call raises ([None]
    when pandas has the method, an [AttributeError] when it has not),
    and its exception is caught by the last handler of the [try], which
    exits with status 1. *)
Fixpoint read_encrypted_loop (applymap : option exn) (fuel : nat)
    (max_retry retry_count : Z)
    (attempts : nat -> password_try) (prompts : nat) : option (read_outcome * nat) :=
  match fuel with
  | O => None
  | S fuel' =>
      if (retry_count <? max_retry)%Z then
        match attempts prompts with
        | NoPassword | InvalidKey =>
            let retry_count := (retry_count + 1)%Z in
            if (retry_count <? max_retry)%Z
            then read_encrypted_loop applymap fuel' max_retry retry_count attempts
                   (S prompts)
            else Some (SysExit 1, S prompts)
        | Opened FileNotFound => Some (SysExit 1, S prompts)
        | Opened SheetsMissing => Some (SysExit 1, S prompts)
        | Opened (LoadError _) => Some (SysExit 1, S prompts)
        | Opened (Loaded devices cmds) =>
            match applymap with
            | Some _ => Some (SysExit 1, S prompts)
            | None =>
                Some (Tables (clean_devices devices) (clean_cmds cmds), S prompts)
            end
        end
      else Some (ReturnedNone, prompts)
  end.

Definition read_encrypted_file (applymap : option exn) (max_retry : Z)
    (attempts : nat -> password_try) : option (read_outcome * nat) :=
  read_encrypted_loop applymap (S (Z.to_nat max_retry)) max_retry 0 attempts 0.

(** [read_unencrypted_file]: an exception other than the two it names
    leaves the function. *)
Definition read_unencrypted_file (l : load_result) : exn + read_outcome :=
  match l with
  | FileNotFound => inr (SysExit 1)
  | SheetsMissing => inr (SysExit 1)
  | LoadError e => inl e
  | Loaded devices cmds => inr (Tables (clean_devices devices) (clean_cmds cmds))
  end.

(* ================================================================== *)
(** ** The run summary *)
(* ================================================================== *)

Definition ERROR_KEYWORDS : list pystr :=
  [ lit "连接失败"; lit "超时异常"; lit "无法连接"; lit "连接断开";
    lit "Socket is closed"; lit "不可达";
    lit "Permission denied"; lit "权限不足"; lit "未授权"; lit "拒绝访问";
    lit "不兼容"; lit "执行异常"; lit "无输出"; lit "分页死循环"; lit "未生效";
    lit "认证失败"; lit "login failed"; lit "用户名或密码错误";
    lit "未进入系统视图" ].

(** [s.split()]: the words between runs of whitespace; [word] is the
    word being read. *)
Fixpoint py_split_go (s word : pystr) : list pystr :=
  match s with
  | [] => match word with [] => [] | _ => [word] end
  | c :: t =>
      if py_isspace c then
        match word with
        | [] => py_split_go t []
        | _ => word :: py_split_go t []
        end
      else py_split_go t (word ++ [c])
  end.

Definition py_split (s : pystr) : list pystr := py_split_go s [].

(** The body of [for line in log_file]. *)
Definition note_error_device (line : pystr) (error_devices : gset pystr)
    : gset pystr :=
  if negb (Nat.eqb (length ERROR_KEYWORDS) 0) && any_in ERROR_KEYWORDS line then
    let parts := py_split line in
    if (5 <=? length parts)%nat && py_eqb (nth 3 parts []) (lit "设备") then
      {[ nth 4 parts [] ]} ∪ error_devices
    else if (4 <=? length parts)%nat
            && py_startswith (nth 2 parts []) (lit "设备") then
      {[ nth 3 parts [] ]} ∪ error_devices
    else error_devices
  else error_devices.

(** The set [error_devices] after the whole log was read. *)
Definition collect_error_devices (lines : list pystr) : gset pystr :=
  fold_left (fun error_devices line => note_error_device line error_devices)
    lines ∅.

(** [file_lines = len(error_devices)] *)
Definition file_lines (lines : list pystr) : nat :=
  size (collect_error_devices lines).

(** The text logged for a connection failure of each class. *)
Definition render_connect_failure (host : pystr) (why : connect_failure) : pystr :=
  match why with
  | MissingAddress => lit "设备 " ++ host ++ lit " 缺少设备管理地址！"
  | NoResponse => lit "设备 " ++ host ++ lit " 未响应（可能未开机或网络不可达）"
  | Unreachable => lit "设备 " ++ host ++ lit " 管理地址或端口不可达！"
  | AuthFailure => lit "设备 " ++ host ++ lit " 用户名或密码认证失败！"
  | EnableAuthFailure => lit "设备 " ++ host ++ lit " Enable密码认证失败！"
  | EnableNotNeeded => lit "设备 " ++ host ++ lit " 不需要Enable密码，已跳过。"
  | TelnetTimeout => lit "设备 " ++ host ++ lit " Telnet连接超时！"
  | EnableAuthFailureReadTimeout =>
      lit "设备 " ++ host ++ lit " Enable密码认证失败！（ReadTimeout）"
  | EnableNotNeededReadTimeout =>
      lit "设备 " ++ host ++ lit " 不需要Enable密码（ReadTimeout），已跳过。"
  | ProtocolError => lit "设备 " ++ host ++ lit " 远程登录协议错误！"
  | MalformedLogin => lit "设备 " ++ host ++ lit " 登录信息格式异常，可能缺字段！"
  | UnknownError e =>
      lit "设备 " ++ host ++ lit " 未知错误！" ++ exn_name e ++ lit ": " ++ exn_msg e
  end.

(** [%(levelname)s] *)
Definition levelname (lvl : level) : pystr :=
  match lvl with
  | Info => lit "INFO"
  | Warning => lit "WARNING"
  | Error => lit "ERROR"
  | Debug => lit "DEBUG"
  | Console => []
  end.

(** One line of the log file, in the format given to [basicConfig]:
    ['%(asctime)s [%(levelname)s] %(message)s'].  The time stamp is a date
    and a time of day with one space between them. *)
Definition log_line (date time : pystr) (lvl : level) (message : pystr) : pystr :=
  date ++ lit " " ++ time ++ lit " [" ++ levelname lvl ++ lit "] " ++ message
    ++ [10%N].

(* ================================================================== *)
(** ** Concrete sessions used in the examples *)
(* ================================================================== *)

(** An exchange that returns [out] after [dt] seconds. *)
Definition says (out : pystr) (dt : Q) : exchange := MkExchange (inr out) dt None.

(** The device answers with the listed exchanges, then stays silent. *)
Definition script (xs : list exchange) : nat -> exchange :=
  fun n => nth n xs (says [] 0).

Definition open_channel : attr (option channel) :=
  Has (Some (MkChannel (Has false))).

(** A connected session at clock reading [t] in front of device [dev]. *)
Definition session_at (t : Q) (dev : nat -> exchange) : world :=
  MkWorld t dev 0 open_channel [] [] 0 0 None None (inr (lit "<sw1>")) None [].

(* ================================================================== *)
(** * Properties *)
(* ================================================================== *)

(** ** Strings *)

Arguments lit : simpl never.

(** Empty or made of whitespace only. *)
Definition is_blank (s : pystr) : bool := forallb py_isspace s.

(** The last character exists and is not whitespace. *)
Definition ends_solid (p : pystr) : bool := negb (py_isspace (List.last p 32%N)).

Lemma py_eqb_true (a b : pystr) : py_eqb a b = true <-> a = b.
Proof. unfold py_eqb. apply bool_decide_eq_true. Qed.

Lemma py_eqb_false (a b : pystr) : py_eqb a b = false <-> a <> b.
Proof. unfold py_eqb. apply bool_decide_eq_false. Qed.

Lemma py_eqb_refl (a : pystr) : py_eqb a a = true.
Proof. now apply py_eqb_true. Qed.

Lemma is_blank_app (a b : pystr) :
  is_blank (a ++ b) = is_blank a && is_blank b.
Proof. apply forallb_app. Qed.

Lemma is_blank_rev (a : pystr) : is_blank (rev a) = is_blank a.
Proof.
  induction a as [|c a IH]; [reflexivity|].
  simpl. rewrite is_blank_app, IH. simpl.
  rewrite andb_true_r. apply andb_comm.
Qed.

Lemma lstrip_blank (s : pystr) : is_blank s = true -> py_lstrip s = [].
Proof.
  induction s as [|c s IH]; [reflexivity|].
  simpl. intros H. apply andb_prop in H as [Hc Hs].
  rewrite Hc. auto.
Qed.

Lemma lstrip_nil_blank (s : pystr) : py_lstrip s = [] -> is_blank s = true.
Proof.
  induction s as [|c s IH]; [reflexivity|].
  simpl. destruct (py_isspace c) eqn:Hc; [auto | discriminate].
Qed.

Lemma lstrip_blank_app (b s : pystr) :
  is_blank b = true -> py_lstrip (b ++ s) = py_lstrip s.
Proof.
  induction b as [|c b IH]; [reflexivity|].
  simpl. intros H. apply andb_prop in H as [Hc Hb].
  rewrite Hc. auto.
Qed.

Lemma lstrip_app_blank (s ws : pystr) :
  is_blank ws = true ->
  py_lstrip (s ++ ws) = (if is_blank s then [] else py_lstrip s ++ ws).
Proof.
  intros Hws. induction s as [|c s IH].
  - simpl. now apply lstrip_blank.
  - simpl. destruct (py_isspace c); simpl; [exact IH | reflexivity].
Qed.

Lemma rstrip_app_blank (s ws : pystr) :
  is_blank ws = true -> py_rstrip (s ++ ws) = py_rstrip s.
Proof.
  intros Hws. unfold py_rstrip.
  rewrite rev_app_distr, lstrip_blank_app; [reflexivity|].
  now rewrite is_blank_rev.
Qed.

Lemma strip_blank (s : pystr) : is_blank s = true -> py_strip s = [].
Proof. intros H. unfold py_strip. now rewrite lstrip_blank. Qed.

Lemma strip_nil_blank (s : pystr) : py_strip s = [] -> is_blank s = true.
Proof.
  unfold py_strip, py_rstrip. intros H.
  apply (f_equal (@rev N)) in H. rewrite rev_involutive in H. simpl in H.
  apply lstrip_nil_blank in H. rewrite is_blank_rev in H.
  destruct (is_blank s) eqn:Hs; [reflexivity|].
  pose proof (lstrip_app_blank s [] eq_refl) as E.
  rewrite Hs, !app_nil_r in E. clear E.
  (* the stripped prefix is blank, the rest is blank: so is [s] *)
  revert H Hs. induction s as [|c s IH]; [discriminate|].
  simpl. destruct (py_isspace c) eqn:Hc; simpl.
  - auto.
  - rewrite Hc. discriminate.
Qed.

(** Appending whitespace does not change what [strip] returns. *)
Lemma strip_app_blank (s ws : pystr) :
  is_blank ws = true -> py_strip (s ++ ws) = py_strip s.
Proof.
  intros Hws. unfold py_strip.
  rewrite (lstrip_app_blank s ws Hws).
  destruct (is_blank s) eqn:Hs.
  - now rewrite (lstrip_blank s Hs).
  - now apply rstrip_app_blank.
Qed.

Lemma ends_solid_cons (a b : N) (p : pystr) :
  ends_solid (a :: b :: p) = ends_solid (b :: p).
Proof. reflexivity. Qed.

Lemma startswith_nil (s : pystr) : py_startswith s [] = true.
Proof. destruct s; reflexivity. Qed.

Lemma startswith_blank (ws p : pystr) :
  ends_solid p = true -> is_blank ws = true -> py_startswith ws p = false.
Proof.
  revert p. induction ws as [|b ws IH]; intros p Hp Hws.
  - destruct p; [discriminate | reflexivity].
  - destruct p as [|a p]; [discriminate|].
    simpl in Hws. apply andb_prop in Hws as [Hb Hws].
    simpl. destruct p as [|a' p].
    + unfold ends_solid in Hp. simpl in Hp.
      destruct (N.eqb_spec a b) as [->|]; [|reflexivity].
      rewrite Hb in Hp. discriminate.
    + rewrite (IH (a' :: p)); [apply andb_false_r | | exact Hws].
      now rewrite ends_solid_cons in Hp.
Qed.

Lemma startswith_app_blank (s ws p : pystr) :
  ends_solid p = true -> is_blank ws = true ->
  py_startswith (s ++ ws) p = py_startswith s p.
Proof.
  revert p. induction s as [|c s IH]; intros p Hp Hws.
  - simpl. rewrite (startswith_blank _ _ Hp Hws).
    destruct p; [discriminate | reflexivity].
  - destruct p as [|a p]; [reflexivity|].
    simpl. destruct p as [|a' p].
    + now rewrite !startswith_nil.
    + rewrite (IH (a' :: p)); [reflexivity | | exact Hws].
      now rewrite ends_solid_cons in Hp.
Qed.

Lemma py_in_cons (p : pystr) (c : N) (s : pystr) :
  py_in p (c :: s) = py_startswith (c :: s) p || py_in p s.
Proof. reflexivity. Qed.

Lemma py_in_nil (p : pystr) : py_in p [] = py_eqb p [].
Proof. destruct p; reflexivity. Qed.

Lemma in_blank (ws p : pystr) :
  ends_solid p = true -> is_blank ws = true -> py_in p ws = false.
Proof.
  intros Hp. induction ws as [|b ws IH]; intros Hws.
  - destruct p; [discriminate | reflexivity].
  - rewrite py_in_cons, (startswith_blank _ _ Hp Hws).
    simpl in Hws. apply andb_prop in Hws as [_ Hws]. auto.
Qed.

(** Appending whitespace creates no occurrence of a pattern that ends in
    a visible character. *)
Lemma in_app_blank (s ws p : pystr) :
  ends_solid p = true -> is_blank ws = true ->
  py_in p (s ++ ws) = py_in p s.
Proof.
  intros Hp Hws. induction s as [|c s IH].
  - simpl. rewrite (in_blank _ _ Hp Hws).
    destruct p; [discriminate | reflexivity].
  - rewrite <- app_comm_cons, !py_in_cons, app_comm_cons.
    now rewrite (startswith_app_blank _ _ _ Hp Hws), IH.
Qed.

Lemma startswith_self_app (q r : pystr) : py_startswith (q ++ r) q = true.
Proof.
  induction q as [|c q IH]; [apply startswith_nil|].
  simpl. now rewrite N.eqb_refl.
Qed.

(** The end of a string is a substring of it. *)
Lemma in_suffix (p s : pystr) : py_in p (s ++ p) = true.
Proof.
  induction s as [|c s IH].
  - simpl. destruct p as [|a p]; [reflexivity|].
    rewrite py_in_cons.
    rewrite <- (app_nil_r (a :: p)) at 1.
    now rewrite startswith_self_app.
  - rewrite <- app_comm_cons, py_in_cons, IH. apply orb_true_r.
Qed.

Lemma isspace_lower (c : N) : py_isspace c = true -> lower_cp c = c.
Proof.
  unfold py_isspace, lower_cp. intros H.
  destruct ((65 <=? c)%N && (c <=? 90)%N) eqn:E; [|reflexivity].
  apply andb_prop in E as [E1 E2].
  apply N.leb_le in E1, E2.
  repeat (apply orb_prop in H as [H|H]);
    repeat match goal with
           | H : (_ && _)%bool = true |- _ => apply andb_prop in H as [? ?]
           | H : (_ <=? _)%N = true |- _ => apply N.leb_le in H
           | H : (_ =? _)%N = true |- _ => apply N.eqb_eq in H
           end; lia.
Qed.

Lemma lower_blank (ws : pystr) : is_blank ws = true -> py_lower ws = ws.
Proof.
  induction ws as [|c ws IH]; [reflexivity|].
  simpl. intros H. apply andb_prop in H as [Hc Hws].
  now rewrite (isspace_lower _ Hc), IH.
Qed.

Lemma lower_app (a b : pystr) : py_lower (a ++ b) = py_lower a ++ py_lower b.
Proof. apply List.map_app. Qed.

(** Cleaning a blank string leaves nothing. *)
Lemma remove_go_blank (pat s : pystr) (k : nat) :
  is_blank s = true -> is_blank (py_remove_go pat s k) = true.
Proof.
  revert k. induction s as [|c s IH]; intros k H; [reflexivity|].
  simpl in H. apply andb_prop in H as [Hc Hs].
  cbn [py_remove_go]. destruct k.
  - destruct (py_startswith (c :: s) pat); [auto|].
    simpl. rewrite Hc. simpl. auto.
  - auto.
Qed.

Lemma strip_controls_blank (s : pystr) :
  is_blank s = true -> is_blank (strip_controls s) = true.
Proof.
  induction s as [|c s IH]; [reflexivity|].
  simpl. intros H. apply andb_prop in H as [Hc Hs].
  destruct (negb _); simpl; [rewrite Hc|]; auto.
Qed.

Lemma strip_or_empty_blank (s : pystr) :
  is_blank s = true -> _strip_or_empty (VStr s) = [].
Proof.
  intros H. unfold _strip_or_empty. apply strip_blank.
  apply strip_controls_blank. unfold py_remove. now apply remove_go_blank.
Qed.

(** ** The monad *)

Lemma bind_ok {A B} (m : M A) (k : A -> M B) (w w' : world) (a : A) :
  m w = (Ok a, w') -> bind m k w = k a w'.
Proof. intros H. unfold bind. now rewrite H. Qed.

Lemma bind_raise {A B} (m : M A) (k : A -> M B) (w w' : world) (e : exn) :
  m w = (Raise e, w') -> bind m k w = (Raise e, w').
Proof. intros H. unfold bind. now rewrite H. Qed.

Lemma try_ok {A} (m : M A) (h : exn -> M A) (w w' : world) (a : A) :
  m w = (Ok a, w') -> try_except m h w = (Ok a, w').
Proof. intros H. unfold try_except. now rewrite H. Qed.

Lemma try_raise {A} (m : M A) (h : exn -> M A) (w w' : world) (e : exn) :
  m w = (Raise e, w') -> try_except m h w = h e w'.
Proof. intros H. unfold try_except. now rewrite H. Qed.

(** [after m w post]: the outcome and final world of [m] run from [w]
    satisfy [post]. *)
Definition after {A} (m : M A) (w : world) (post : res A -> world -> Prop) : Prop :=
  post (fst (m w)) (snd (m w)).

Lemma after_intro {A} (m : M A) (w : world) (post : res A -> world -> Prop) :
  (forall r w', m w = (r, w') -> post r w') -> after m w post.
Proof. intros H. unfold after. apply H. now destruct (m w). Qed.

Lemma after_elim {A} (m : M A) (w w' : world) (r : res A)
    (post : res A -> world -> Prop) :
  after m w post -> m w = (r, w') -> post r w'.
Proof. unfold after. intros H E. now rewrite E in H. Qed.

Lemma after_weaken {A} (m : M A) (w : world) (p q : res A -> world -> Prop) :
  after m w p -> (forall r w', p r w' -> q r w') -> after m w q.
Proof. unfold after. auto. Qed.

Lemma after_ret {A} (a : A) (w : world) (post : res A -> world -> Prop) :
  post (Ok a) w -> after (ret a) w post.
Proof. auto. Qed.

Lemma after_raise {A} (e : exn) (w : world) (post : res A -> world -> Prop) :
  post (Raise e) w -> after (@raise A e) w post.
Proof. auto. Qed.

Lemma after_bind {A B} (m : M A) (k : A -> M B) (w : world)
    (post : res B -> world -> Prop) :
  after m w (fun r w' =>
    match r with
    | Ok a => after (k a) w' post
    | Raise e => post (Raise e) w'
    | OutOfFuel => post OutOfFuel w'
    end) ->
  after (bind m k) w post.
Proof.
  unfold after, bind. destruct (m w) as [[a|e|] w']; simpl; auto.
Qed.

Lemma after_try {A} (m : M A) (h : exn -> M A) (w : world)
    (post : res A -> world -> Prop) :
  after m w (fun r w' =>
    match r with
    | Raise e => after (h e) w' post
    | _ => post r w'
    end) ->
  after (try_except m h) w post.
Proof.
  unfold after, try_except. destruct (m w) as [[a|e|] w']; simpl; auto.
Qed.

(** Two worlds that differ in their log only. *)
Definition mute (w : world) : world :=
  MkWorld (now w) (device w) (cursor w) (remote_conn w) (sent w)
    (connects w) (enables w) (disconnects w) (connect_result w)
    (enable_result w) (prompt_result w) (disconnect_result w) [].

Definition quiet (w w' : world) : Prop := mute w' = mute w.

Lemma quiet_refl (w : world) : quiet w w.
Proof. reflexivity. Qed.

Lemma quiet_trans (a b c : world) : quiet a b -> quiet b c -> quiet a c.
Proof. unfold quiet. congruence. Qed.

Lemma quiet_fields (w w' : world) :
  quiet w w' ->
  now w' = now w /\ device w' = device w /\ cursor w' = cursor w /\
  remote_conn w' = remote_conn w /\ sent w' = sent w /\
  connects w' = connects w /\ disconnects w' = disconnects w /\
  disconnect_result w' = disconnect_result w.
Proof.
  unfold quiet, mute. intros H. injection H. intros. repeat split; assumption.
Qed.

Lemma log_message_quiet (lvl : level) (ev : event) (w : world) :
  exists w', log_message lvl ev w = (Ok tt, w') /\ quiet w w' /\
             log w' = log w ++ [(lvl, ev)].
Proof. eexists. split; [reflexivity|]. split; reflexivity. Qed.

Lemma debug_quiet (flag : pystr) (ev : event) (w : world) :
  exists w', debug flag ev w = (Ok tt, w') /\ quiet w w' /\
             exists evs, log w' = log w ++ evs.
Proof.
  unfold debug. destruct (py_eqb flag (lit "y")).
  - eexists. split; [reflexivity|]. split; [reflexivity|]. eexists. reflexivity.
  - exists w. split; [reflexivity|]. split; [reflexivity|].
    exists []. now rewrite app_nil_r.
Qed.

Lemma after_log (lvl : level) (ev : event) (w : world)
    (post : res unit -> world -> Prop) :
  (forall w', quiet w w' -> log w' = log w ++ [(lvl, ev)] -> post (Ok tt) w') ->
  after (log_message lvl ev) w post.
Proof.
  intros H. destruct (log_message_quiet lvl ev w) as (w' & E & Hq & Hl).
  unfold after. rewrite E. simpl. auto.
Qed.

Lemma after_debug (flag : pystr) (ev : event) (w : world)
    (post : res unit -> world -> Prop) :
  (forall w', quiet w w' -> (exists evs, log w' = log w ++ evs) -> post (Ok tt) w') ->
  after (debug flag ev) w post.
Proof.
  intros H. destruct (debug_quiet flag ev w) as (w' & E & Hq & Hl).
  unfold after. rewrite E. simpl. auto.
Qed.

(** ** The channel probe *)

(** C10. [channel_closed] returns a boolean for every session, never
    raises and leaves the session untouched (nothing is written, no
    exchange is played); the boolean is [True] when there is no channel
    object, when the channel reports closed, and when looking at the
    channel raises. *)
Theorem channel_closed_total_and_pure (ssh : world) :
  exists b : bool,
    channel_closed ssh = (Ok b, ssh) /\
    (remote_conn ssh = Missing \/ remote_conn ssh = Has None -> b = true) /\
    (forall rc, remote_conn ssh = Has (Some rc) -> closed rc = Has true -> b = true) /\
    (forall e, fst (channel_probe ssh) = Raise e -> b = true).
Proof.
  unfold channel_closed, try_except, channel_probe, bind, getattr, ret, raise.
  destruct (remote_conn ssh) as [|[rc|]|e] eqn:Hrc; simpl.
  - exists true. repeat split; auto.
  - destruct (closed rc) as [|b|e] eqn:Hc; simpl.
    + exists false. repeat split; try discriminate.
      * intros [H|H]; discriminate.
      * intros rc' H. injection H as <-. rewrite Hc. discriminate.
    + exists b. repeat split; try discriminate.
      * intros [H|H]; discriminate.
      * intros rc' H. injection H as <-. rewrite Hc. congruence.
    + destruct (is_AttributeError e); simpl.
      * exists false. repeat split; try discriminate.
        -- intros [H|H]; discriminate.
        -- intros rc' H. injection H as <-. rewrite Hc. discriminate.
      * exists true. repeat split; auto.
  - exists true. repeat split; auto.
  - destruct (is_AttributeError e); simpl; exists true; repeat split; auto.
Qed.

(** A channel object without a [closed] attribute (a Telnet connection)
    is reported as open. *)
Example channel_without_flag_is_open (w : world) :
  remote_conn w = Has (Some (MkChannel Missing)) ->
  channel_closed w = (Ok false, w).
Proof.
  intros H. unfold channel_closed, try_except, channel_probe, bind, getattr, ret.
  now rewrite H.
Qed.

(** ** Blank commands *)

(** C9. A command that is empty or whitespace-only is never sent:
    [handle_pagination] returns its skip status with the session
    untouched, and the task's loop passes over the command, logging the
    skip and nothing else, before any budget or channel check. *)
Theorem blank_command_never_sent (cmd : pyval) :
  is_blank (_safe_str cmd) = true ->
  (forall timeout_per_cmd max_page flag w,
      handle_pagination cmd timeout_per_cmd max_page flag w = (Ok SKIP_EMPTY, w)) /\
  (forall flag host start real rest w,
      exists w',
        inspect_command flag host start real cmd w = (Ok Continue, w') /\
        sent w' = sent w /\ cursor w' = cursor w /\
        disconnects w' = disconnects w /\
        log w' = log w ++ [(Debug, SkipEmptyCommand host)] /\
        run_commands flag host start real (cmd :: rest) w
        = run_commands flag host start real rest w').
Proof.
  intros Hb. pose proof (strip_or_empty_blank _ Hb) as Hc. split.
  - intros. unfold handle_pagination. now rewrite Hc.
  - intros. exists (snd (log_message Debug (SkipEmptyCommand host) w)).
    assert (E : inspect_command flag host start real cmd w
                = (Ok Continue, snd (log_message Debug (SkipEmptyCommand host) w))).
    { unfold inspect_command. now rewrite Hc. }
    repeat split; try exact E; try reflexivity.
    cbn [run_commands]. unfold bind at 1. now rewrite E.
Qed.

Lemma blank_command_never_sent_witness :
  is_blank (_safe_str (VStr (lit "  "))) = true /\
  handle_pagination (VStr (lit "  ")) 10 DEFAULT_MAX_PAGE (lit "n")
    (session_at 0 (script []))
  = (Ok SKIP_EMPTY, session_at 0 (script [])).
Proof.
  split; [reflexivity|].
  apply (blank_command_never_sent (VStr (lit "  "))). reflexivity.
Defined.

(** ** Device validation *)

Definition empty_pool : pool := MkPool [] [] [].

(** A required field that is present but blank is reported as missing. *)
Lemma blank_field_is_missing (device_info : gmap pystr pyval) (f s : pystr) :
  In f required_fields ->
  device_info !! f = Some (VStr s) ->
  is_blank s = true ->
  In f (missing_fields device_info).
Proof.
  intros Hf Hd Hs. unfold missing_fields. apply filter_In. split; [exact Hf|].
  unfold py_get. rewrite Hd. simpl. rewrite (strip_blank _ Hs). reflexivity.
Qed.

(** Such a device is skipped with a warning that names the missing
    fields, and nothing is submitted for it. *)
Lemma blank_field_device_skipped (device_info : gmap pystr pyval) (f s : pystr)
    (rest : list (gmap pystr pyval)) (p : pool) :
  In f required_fields ->
  device_info !! f = Some (VStr s) ->
  is_blank s = true ->
  In f (missing_fields device_info) /\
  submit_devices (device_info :: rest) p
  = submit_devices rest
      (MkPool (submitted p) (futures p)
         (main_log p
          ++ [(Warning, SkippedIncomplete (missing_fields device_info) device_info)])).
Proof.
  intros Hf Hd Hs.
  pose proof (blank_field_is_missing _ _ _ Hf Hd Hs) as Hin.
  split; [exact Hin|].
  cbn [submit_devices]. destruct (missing_fields device_info); [destruct Hin|].
  reflexivity.
Qed.

(** A record whose [username] column does not exist at all. *)
Definition device_without_username : gmap pystr pyval :=
  list_to_map
    [ (lit "device_type", VStr (lit "hp_comware"));
      (lit "host", VStr (lit "sw1"));
      (lit "ip", VStr (lit "10.0.0.1"));
      (lit "port", VStr (lit "22")) ].

Definition no_commands : gmap pystr (list pyval) := ∅.

(** C4, at the failing input.  For an absent field, [device_info.get(f)]
    is [None] and [str(None).strip()] is ["None"], not the empty string:
    the record is not reported, it is submitted to the pool without any
    warning, and the task started for it calls [ConnectHandler]. *)
Theorem absent_field_device_is_submitted :
  device_without_username !! lit "username" = None /\
  missing_fields device_without_username = [] /\
  (exists task,
      submit_devices [device_without_username] empty_pool
      = (Ok tt, MkPool [task] [lit "sw1"] [(Info, TaskSubmitted (lit "sw1"))]) /\
      task !! lit "username" = None /\
      length (connects (snd (inspection task no_commands (lit "n")
                               (session_at 0 (script []))))) = 1%nat).
Proof.
  split; [vm_compute; reflexivity|].
  split; [vm_compute; reflexivity|].
  eexists. split; [vm_compute; reflexivity|].
  split; vm_compute; reflexivity.
Qed.

(** ** What a run of session operations leaves behind *)

(** Clock reading after [n] more exchanges, starting with exchange [c]
    at reading [t]. *)
Fixpoint clock_after (dev : nat -> exchange) (c : nat) (t : Q) (n : nat) : Q :=
  match n with
  | O => t
  | S n' => clock_after dev (S c) (t + took (dev c)) n'
  end.

(** [played w w' new]: from [w] to [w'] the texts [new] were written, one
    exchange each, and nothing else happened to the session. *)
Record played (w w' : world) (new : list (pystr * Q)) : Prop := MkPlayed {
  played_device : device w' = device w;
  played_cursor : cursor w' = (cursor w + length new)%nat;
  played_sent : sent w' = sent w ++ new;
  played_now : now w' = clock_after (device w) (cursor w) (now w) (length new);
  played_disconnects : disconnects w' = disconnects w;
  played_connects : connects w' = connects w;
  played_disconnect_result : disconnect_result w' = disconnect_result w
}.

Lemma clock_after_add (dev : nat -> exchange) (n m c : nat) (t : Q) :
  clock_after dev c t (n + m)
  = clock_after dev (c + n) (clock_after dev c t n) m.
Proof.
  revert c t. induction n as [|n IH]; intros c t; simpl.
  - now rewrite Nat.add_0_r.
  - rewrite IH. now rewrite Nat.add_succ_r.
Qed.

Lemma played_quiet (w w' : world) : quiet w w' -> played w w' [].
Proof.
  intros H. apply quiet_fields in H as (? & ? & ? & ? & ? & ? & ? & ?).
  constructor; simpl; rewrite ?Nat.add_0_r, ?app_nil_r; assumption.
Qed.

Lemma played_refl (w : world) : played w w [].
Proof. apply played_quiet, quiet_refl. Qed.

Lemma played_trans (a b c : world) (n1 n2 : list (pystr * Q)) :
  played a b n1 -> played b c n2 -> played a c (n1 ++ n2).
Proof.
  intros [Hd1 Hc1 Hs1 Hn1 Hx1 Hy1 Hz1] [Hd2 Hc2 Hs2 Hn2 Hx2 Hy2 Hz2].
  constructor.
  - congruence.
  - rewrite Hc2, Hc1, length_app. lia.
  - rewrite Hs2, Hs1. now rewrite app_assoc.
  - rewrite Hn2, Hd1, Hc1, Hn1, length_app. now rewrite clock_after_add.
  - congruence.
  - congruence.
  - congruence.
Qed.

Lemma played_then_quiet (a b c : world) (n : list (pystr * Q)) :
  played a b n -> quiet b c -> played a c n.
Proof.
  intros H1 H2. rewrite <- (app_nil_r n).
  exact (played_trans a b c n [] H1 (played_quiet b c H2)).
Qed.

Lemma quiet_then_played (a b c : world) (n : list (pystr * Q)) :
  quiet a b -> played b c n -> played a c n.
Proof.
  intros H1 H2.
  exact (played_trans a b c [] n (played_quiet a b H1) H2).
Qed.

(** The outcome of the next exchange. *)
Definition next_reply (w : world) : res pystr :=
  match reply (device w (cursor w)) with
  | inl e => Raise e
  | inr out => Ok out
  end.

Lemma send_played (text : pystr) (t : Q) (w : world) :
  exists w',
    send_command_timing text t w = (next_reply w, w') /\
    played w w' [(text, t)].
Proof.
  eexists. split.
  - unfold send_command_timing, next_reply.
    destruct (reply (device w (cursor w))); reflexivity.
  - constructor; simpl; try reflexivity. lia.
Qed.

Lemma after_send (text : pystr) (t : Q) (w : world)
    (post : res pystr -> world -> Prop) :
  (forall w', played w w' [(text, t)] -> post (next_reply w) w') ->
  after (send_command_timing text t) w post.
Proof.
  intros H. destruct (send_played text t w) as (w' & E & Hp).
  unfold after. rewrite E. simpl. auto.
Qed.

Lemma next_reply_ends (w : world) : next_reply w <> OutOfFuel.
Proof. unfold next_reply. destruct (reply _); discriminate. Qed.

Lemma next_reply_quiet (w w' : world) : quiet w w' -> next_reply w' = next_reply w.
Proof.
  intros H. apply quiet_fields in H as (_ & Hd & Hc & _).
  unfold next_reply. now rewrite Hd, Hc.
Qed.

(** ** The marker scan, as a function *)

Definition clean_pattern (pattern : pystr) : pystr :=
  _strip_or_empty (VStr (_safe_str (VStr pattern))).

(** The pattern is the one the scan stops at for output [s]. *)
Definition marker_in (s : pystr) (pattern : pystr) : bool :=
  let p := clean_pattern pattern in
  negb (py_eqb p [])
  && (py_in p s || py_in (py_lower p) (py_lower s)).

(** The keystroke that answers a marker. *)
Definition keystroke (pattern : pystr) : pystr :=
  if py_elem (clean_pattern pattern) space_markers then lit " " else [10%N].

(** Every marker has a keystroke. *)
Definition answered (pattern : pystr) : bool :=
  let p := clean_pattern pattern in
  py_eqb p [] || py_elem p space_markers
  || py_eqb p (lit "<Press ENTER to continue>").

Lemma patterns_answered : forallb answered PAGINATION_PATTERNS = true.
Proof. vm_compute. reflexivity. Qed.

Lemma after_scan (pats : list pystr) (cmd s_show shown : pystr) (pc : Z)
    (t : Q) (flag : pystr) (w : world)
    (post : res (bool * pystr) -> world -> Prop) :
  forallb answered pats = true ->
  match List.find (marker_in s_show) pats with
  | None => forall w', quiet w w' -> post (Ok (false, shown)) w'
  | Some pattern =>
      forall w', played w w' [(keystroke pattern, t)] ->
        post (match next_reply w with
              | Ok more => Ok (true, shown ++ more)
              | Raise e => Raise e
              | OutOfFuel => OutOfFuel
              end) w'
  end ->
  after (scan_patterns pats cmd s_show shown pc t flag) w post.
Proof.
  revert w. induction pats as [|pattern rest IH]; intros w Hwf H.
  - simpl in H. apply after_ret. apply H, quiet_refl.
  - simpl in Hwf. apply andb_prop in Hwf as [Ha Hwf].
    cbn [scan_patterns]. cbn [List.find] in H.
    unfold marker_in in H at 1. unfold answered in Ha.
    cbv zeta in H, Ha.
    fold (clean_pattern pattern).
    destruct (py_eqb (clean_pattern pattern) []) eqn:He; simpl in H.
    { now apply IH. }
    destruct (py_in (clean_pattern pattern) s_show
              || py_in (py_lower (clean_pattern pattern)) (py_lower s_show)) eqn:Hm.
    2:{ now apply IH. }
    unfold keystroke in H.
    apply after_bind, after_debug. intros w1 Hq1 _.
    destruct (py_elem (clean_pattern pattern) space_markers) eqn:Hs.
    + apply after_bind, after_log. intros w2 Hq2 _.
      apply after_bind, after_send. intros w3 Hp3.
      pose proof (quiet_trans _ _ _ Hq1 Hq2) as Hq.
      rewrite (next_reply_quiet _ _ Hq).
      specialize (H w3 (quiet_then_played _ _ _ _ Hq Hp3)).
      destruct (next_reply w); [apply after_ret | |]; exact H.
    + cbn [orb] in Ha. rewrite Ha.
      apply after_bind, after_log. intros w2 Hq2 _.
      apply after_bind, after_send. intros w3 Hp3.
      pose proof (quiet_trans _ _ _ Hq1 Hq2) as Hq.
      rewrite (next_reply_quiet _ _ Hq).
      specialize (H w3 (quiet_then_played _ _ _ _ Hq Hp3)).
      destruct (next_reply w); [apply after_ret | |]; exact H.
Qed.

(** ** The paging loop: termination and bounds *)

Lemma after_time (w : world) (post : res Q -> world -> Prop) :
  post (Ok (now w)) w -> after time_time w post.
Proof. auto. Qed.

Lemma Qgtb_false (a b : Q) : Qgtb a b = false -> (a <= b)%Q.
Proof.
  unfold Qgtb. intros H. apply negb_false_iff in H. now apply Qle_bool_iff.
Qed.

Lemma Qgtb_true (a b : Q) : Qgtb a b = true -> (b < a)%Q.
Proof.
  unfold Qgtb. intros H. apply negb_true_iff in H.
  apply Qnot_le_lt. intros Hle. apply Qle_bool_iff in Hle. congruence.
Qed.


Lemma Qgtb_le (a b : Q) : (a <= b)%Q -> Qgtb a b = false.
Proof.
  intros H. destruct (Qgtb a b) eqn:E; [|reflexivity].
  apply Qgtb_true in E. lra.
Qed.

(** What every run of the loop satisfies: it ends; it plays at most
    [budget] exchanges, each with the loop's own read timeout; it enters
    its body at most [budget] more times; and when it has played an
    exchange, it ends within the timeout plus the time of the last one. *)
Definition loop_post (t T0 : Q) (budget entries : nat) (w : world)
    (r : res (pystr * nat)) (w' : world) : Prop :=
  r <> OutOfFuel /\
  exists new,
    played w w' new /\
    Forall (fun e => snd e = t) new /\
    (length new <= budget)%nat /\
    (forall out n, r = Ok (out, n) -> (n <= entries + budget)%nat) /\
    (new = [] \/ (now w' - T0 <= t + took (device w (Nat.pred (cursor w'))))%Q).

Lemma single_exchange_deadline (w w' : world) (x : pystr * Q) (t T0 : Q) :
  played w w' [x] -> (now w - T0 <= t)%Q ->
  (now w' - T0 <= t + took (device w (Nat.pred (cursor w'))))%Q.
Proof.
  intros [_ Hc _ Hn _ _ _] Hg. rewrite Hn, Hc. simpl.
  replace (Nat.pred (cursor w + 1)) with (cursor w) by lia. lra.
Qed.

Lemma loop_post_stop (t T0 : Q) (budget entries : nat) (w w' : world) (out : pystr) :
  quiet w w' -> loop_post t T0 (S budget) entries w (Ok (out, S entries)) w'.
Proof.
  intros Hq. split; [discriminate|]. exists []. repeat apply conj.
  - now apply played_quiet.
  - constructor.
  - simpl. lia.
  - intros ? ? H. injection H as _ <-. lia.
  - now left.
Qed.

Lemma loop_post_last (t T0 : Q) (budget entries : nat) (w w' : world)
    (x : pystr) (r : res (pystr * nat)) :
  played w w' [(x, t)] -> (now w - T0 <= t)%Q ->
  r <> OutOfFuel ->
  (forall out n, r = Ok (out, n) -> n = S entries) ->
  loop_post t T0 (S budget) entries w r w'.
Proof.
  intros Hp Hg Hr Hn. split; [exact Hr|]. exists [(x, t)]. repeat apply conj.
  - exact Hp.
  - repeat constructor.
  - simpl. lia.
  - intros out n E. rewrite (Hn _ _ E). lia.
  - right. eapply single_exchange_deadline; eauto.
Qed.

Lemma loop_post_more (t T0 : Q) (budget entries : nat) (w w1 w' : world)
    (x : pystr) (r : res (pystr * nat)) :
  played w w1 [(x, t)] -> (now w - T0 <= t)%Q ->
  loop_post t T0 budget (S entries) w1 r w' ->
  loop_post t T0 (S budget) entries w r w'.
Proof.
  intros Hp Hg (Hr & new & Hp' & Hall & Hlen & Hn & Htime).
  split; [exact Hr|]. exists ([(x, t)] ++ new). repeat apply conj.
  - eapply played_trans; eauto.
  - constructor; [reflexivity | exact Hall].
  - simpl. lia.
  - intros out n E. specialize (Hn _ _ E). lia.
  - right. destruct Htime as [-> | Htime].
    + destruct Hp' as [_ Hc' _ Hn' _ _ _]. simpl in Hc', Hn'.
      rewrite Hn', Hc', Nat.add_0_r.
      eapply single_exchange_deadline; eauto.
    + destruct Hp as [Hd _ _ _ _ _ _]. now rewrite <- Hd.
Qed.

Section Loop.

Variables (cmd cmd_clean : pystr) (t : Q) (max_page : Z) (flag : pystr) (T0 : Q).

Lemma paging_loop_summary (fuel : nat) :
  forall (st : PageState) (entries : nat) (w : world),
    (Z.to_nat (max_page - page_count st) < fuel)%nat ->
    after (paging_loop fuel cmd cmd_clean t max_page flag T0 st entries) w
      (loop_post t T0 (S (Z.to_nat (max_page - page_count st))) entries w).
Proof.
  induction fuel as [|fuel IH]; intros st entries w Hfuel; [lia|].
  cbn [paging_loop].
  destruct (unrecognized _).
  { apply after_bind, after_debug. intros w1 Hq _. apply after_ret.
    now apply loop_post_stop. }
  apply after_bind, after_debug. intros w1 Hq1 _.
  destruct (Z.geb _ _).
  { apply after_ret. now apply loop_post_stop. }
  apply after_bind, after_time.
  destruct (Qgtb _ _) eqn:Hg.
  { apply after_ret. now apply loop_post_stop. }
  apply Qgtb_false in Hg.
  assert (Hg' : (now w - T0 <= t)%Q).
  { apply quiet_fields in Hq1 as (<- & _). exact Hg. }
  apply after_bind, after_scan; [exact patterns_answered|].
  destruct (List.find _ _) as [pattern|].
  - intros w2 Hp2.
    pose proof (quiet_then_played _ _ _ _ Hq1 Hp2) as Hp.
    pose proof (next_reply_ends w1) as Hends.
    destruct (next_reply w1) as [more|e|]; cbn [fst snd negb orb].
    + destruct (Z.gtb_spec (page_count st + 1) max_page) as [Hgt|Hle].
      * apply after_ret.
        apply (loop_post_last t T0 _ entries w w2 (keystroke pattern) _ Hp Hg').
        -- discriminate.
        -- intros ? ? E. now injection E as _ <-.
      * eapply after_weaken.
        { apply IH. cbn [page_count]. lia. }
        intros r w' Hpost. cbn [page_count] in Hpost.
        replace (S (Z.to_nat (max_page - page_count st)))
          with (S (S (Z.to_nat (max_page - (page_count st + 1))))) by lia.
        eapply loop_post_more; eauto.
    + apply (loop_post_last t T0 _ entries w w2 (keystroke pattern) _ Hp Hg');
        discriminate.
    + now destruct Hends.
  - intros w2 Hq2. cbn [fst snd negb orb]. apply after_ret.
    apply loop_post_stop. eapply quiet_trans; eauto.
Qed.

End Loop.

(** Started with a fresh page state, the paging loop ends whatever the
    device replies: its body is entered at most [max_page + 1] times (so
    at most page ceiling + 2), it plays at most that many exchanges, and
    once it has played one it ends no later than the timeout [t] it runs
    with plus the time of the last blocking read, counted from [T0]. *)
Lemma paging_loop_bounded
    (cmd cmd_clean : pystr) (t : Q) (max_page : Z) (flag : pystr) (T0 : Q)
    (shown : pystr) (w : world) :
  (0 <= max_page)%Z ->
  exists r w',
    paging_loop (loop_fuel max_page) cmd cmd_clean t max_page flag T0
      (MkPage shown 0 [] 0) 0 w = (r, w') /\
    r <> OutOfFuel /\
    (forall out n, r = Ok (out, n) ->
       (Z.of_nat n <= max_page + 1)%Z /\ (Z.of_nat n <= max_page + 2)%Z) /\
    (Z.of_nat (cursor w' - cursor w) <= max_page + 1)%Z /\
    (cursor w' = cursor w \/
     (now w' - T0 <= t + took (device w (Nat.pred (cursor w'))))%Q).
Proof.
  intros Hmp.
  pose proof (paging_loop_summary cmd cmd_clean t max_page flag T0
                (loop_fuel max_page) (MkPage shown 0 [] 0) 0 w) as H.
  cbn [page_count] in H. unfold loop_fuel in *.
  specialize (H ltac:(rewrite Z.sub_0_r; lia)).
  unfold after in H.
  destruct (paging_loop _ _ _ _ _ _ _ _ _ w) as [r w'] eqn:E. simpl in H.
  exists r, w'. split; [reflexivity|].
  destruct H as (Hr & new & Hp & _ & Hlen & Hn & Htime).
  rewrite Z.sub_0_r in Hlen, Hn.
  split; [exact Hr|]. split; [|split].
  - intros out n En. specialize (Hn _ _ En). lia.
  - rewrite (played_cursor _ _ _ Hp). lia.
  - destruct Htime as [-> | Htime]; [left | right; exact Htime].
    rewrite (played_cursor _ _ _ Hp). simpl. lia.
Qed.

(** ** The engine only logs and sends *)

(** [m] ends, and all it does to the session is play exchanges whose
    read timeout is [t]. *)
Definition tidy_post {A} (t : Q) (w : world) (r : res A) (w' : world) : Prop :=
  r <> OutOfFuel /\
  exists new, played w w' new /\ Forall (fun e => snd e = t) new.

Definition tidy {A} (t : Q) (m : M A) : Prop :=
  forall w, after m w (tidy_post t w).

Lemma tidy_post_quiet {A} (t : Q) (w w' : world) (r : res A) :
  quiet w w' -> r <> OutOfFuel -> tidy_post t w r w'.
Proof.
  intros Hq Hr. split; [exact Hr|]. exists []. split; [now apply played_quiet|].
  constructor.
Qed.

Lemma tidy_post_trans {A} (t : Q) (a b c : world) (new : list (pystr * Q))
    (r : res A) :
  played a b new -> Forall (fun e => snd e = t) new ->
  tidy_post t b r c -> tidy_post t a r c.
Proof.
  intros Hp Hall (Hr & new' & Hp' & Hall'). split; [exact Hr|].
  exists (new ++ new'). split; [eapply played_trans; eauto|].
  apply Forall_app; auto.
Qed.

Lemma tidy_ret {A} (t : Q) (a : A) : tidy t (ret a).
Proof.
  intros w. apply after_ret. apply tidy_post_quiet; [apply quiet_refl | discriminate].
Qed.

Lemma tidy_bind {A B} (t : Q) (m : M A) (k : A -> M B) :
  tidy t m -> (forall a, tidy t (k a)) -> tidy t (bind m k).
Proof.
  intros Hm Hk w. apply after_bind. eapply after_weaken; [apply Hm|].
  intros r w1 (Hr & new & Hp & Hall). destruct r as [a|e|].
  - eapply after_weaken; [apply Hk|].
    intros r' w2 H. eapply tidy_post_trans; eauto.
  - split; [discriminate|]. eauto.
  - now destruct Hr.
Qed.

Lemma tidy_try {A} (t : Q) (m : M A) (h : exn -> M A) :
  tidy t m -> (forall e, tidy t (h e)) -> tidy t (try_except m h).
Proof.
  intros Hm Hh w. apply after_try. eapply after_weaken; [apply Hm|].
  intros r w1 (Hr & new & Hp & Hall). destruct r as [a|e|].
  - split; [discriminate|]. eauto.
  - eapply after_weaken; [apply Hh|].
    intros r' w2 H. eapply tidy_post_trans; eauto.
  - now destruct Hr.
Qed.

Lemma tidy_log (t : Q) (lvl : level) (ev : event) : tidy t (log_message lvl ev).
Proof.
  intros w. apply after_log. intros w' Hq _.
  apply tidy_post_quiet; [exact Hq | discriminate].
Qed.

Lemma tidy_debug (t : Q) (flag : pystr) (ev : event) : tidy t (debug flag ev).
Proof.
  intros w. apply after_debug. intros w' Hq _.
  apply tidy_post_quiet; [exact Hq | discriminate].
Qed.

Lemma tidy_send (t : Q) (text : pystr) : tidy t (send_command_timing text t).
Proof.
  intros w. apply after_send. intros w' Hp. split; [apply next_reply_ends|].
  exists [(text, t)]. split; [exact Hp|]. repeat constructor.
Qed.

Lemma tidy_time (t : Q) : tidy t time_time.
Proof.
  intros w. apply after_time. apply tidy_post_quiet; [apply quiet_refl | discriminate].
Qed.

Lemma tidy_alternatives (alts : list pystr) (cmd cmd_clean : pystr) (t : Q)
    (flag : pystr) :
  tidy t (try_alternatives alts cmd cmd_clean t flag).
Proof.
  induction alts as [|alt rest IH]; cbn [try_alternatives].
  - apply tidy_ret.
  - destruct (negb _); [|exact IH].
    apply tidy_bind; [apply tidy_debug|]. intros _.
    apply tidy_bind; [apply tidy_send|]. intros alt_show.
    destruct (negb _); [|exact IH].
    apply tidy_bind; [apply tidy_debug|]. intros _. apply tidy_ret.
Qed.

Lemma tidy_no_output (cmd cmd_clean : pystr) (t : Q) (flag : pystr) :
  tidy t (no_output_command cmd cmd_clean t flag).
Proof.
  unfold no_output_command.
  apply tidy_bind; [apply tidy_debug|]. intros _.
  apply tidy_bind; [apply tidy_send|]. intros shown.
  apply tidy_bind.
  { destruct (_ && _); [apply tidy_alternatives | apply tidy_ret]. }
  intros [status|]; [apply tidy_ret|].
  repeat match goal with
         | |- tidy _ (if ?c then _ else _) => destruct c
         | |- tidy _ (bind _ _) => apply tidy_bind; [apply tidy_debug | intros _]
         | |- tidy _ (ret _) => apply tidy_ret
         end.
Qed.

Lemma tidy_paging_loop (cmd cmd_clean : pystr) (t : Q) (max_page : Z)
    (flag : pystr) (T0 : Q) (shown : pystr) :
  tidy t (paging_loop (loop_fuel max_page) cmd cmd_clean t max_page flag T0
            (MkPage shown 0 [] 0) 0).
Proof.
  intros w. eapply after_weaken.
  - apply paging_loop_summary. cbn [page_count]. unfold loop_fuel. lia.
  - intros r w' (Hr & new & Hp & Hall & _). split; eauto.
Qed.

Lemma tidy_standard_paging (cmd cmd_clean : pystr) (t : Q) (max_page : Z)
    (flag : pystr) :
  tidy t (standard_paging cmd cmd_clean t max_page flag).
Proof.
  unfold standard_paging.
  apply tidy_bind; [apply tidy_send|]. intros shown.
  destruct (unrecognized _); [apply tidy_ret|].
  apply tidy_bind; [apply tidy_time|]. intros T0.
  apply tidy_paging_loop.
Qed.

(** The read timeout [handle_pagination] works with. *)
Definition effective_timeout (cmd : pyval) (t : Q) : Q :=
  if py_elem (_strip_or_empty (VStr (_safe_str cmd))) BIG_OUTPUT_CMDS
  then Qmin (t * 3) LONG_TIMEOUT else t.

Lemma tidy_handle_pagination (cmd : pyval) (t : Q) (max_page : Z) (flag : pystr) :
  tidy (effective_timeout cmd t) (handle_pagination cmd t max_page flag).
Proof.
  unfold handle_pagination, effective_timeout.
  destruct (py_eqb _ []); [apply tidy_ret|].
  destruct (py_elem _ NO_OUTPUT_CMDS) eqn:Hno.
  - (* no-output commands are not large-output commands *)
    assert (Hbig : py_elem (_strip_or_empty (VStr (_safe_str cmd))) BIG_OUTPUT_CMDS = false).
    { unfold py_elem in Hno. apply existsb_exists in Hno as (x & Hin & Hx).
      apply py_eqb_true in Hx. rewrite Hx.
      simpl in Hin.
      repeat (destruct Hin as [<-|Hin]; [vm_compute; reflexivity|]).
      destruct Hin. }
    rewrite Hbig. apply tidy_no_output.
  - destruct (py_elem _ BIG_OUTPUT_CMDS).
    + apply tidy_bind; [apply tidy_debug|]. intros _.
      apply tidy_bind; [apply tidy_debug|]. intros _.
      apply tidy_bind; [apply tidy_standard_paging|]. intros r. apply tidy_ret.
    + apply tidy_bind; [apply tidy_ret|]. intros _.
      apply tidy_bind; [apply tidy_ret|]. intros _.
      apply tidy_bind; [apply tidy_standard_paging|]. intros r. apply tidy_ret.
Qed.

(** [handle_pagination] always ends. *)
Lemma handle_pagination_ends (cmd : pyval) (t : Q) (max_page : Z) (flag : pystr)
    (w : world) :
  fst (handle_pagination cmd t max_page flag w) <> OutOfFuel.
Proof. apply (tidy_handle_pagination cmd t max_page flag w). Qed.

(** ** Large-output commands *)

Lemma big_not_no_output (x : pystr) :
  py_elem x BIG_OUTPUT_CMDS = true ->
  py_eqb x [] = false /\ py_elem x NO_OUTPUT_CMDS = false.
Proof.
  intros H. unfold py_elem in H. apply existsb_exists in H as (y & Hin & Hy).
  apply py_eqb_true in Hy. subst y. simpl in Hin.
  repeat (destruct Hin as [<-|Hin]; [split; vm_compute; reflexivity|]).
  destruct Hin.
Qed.

Lemma standard_paging_first_send (cmd cmd_clean : pystr) (t : Q) (max_page : Z)
    (flag : pystr) (w : world) :
  after (standard_paging cmd cmd_clean t max_page flag) w
    (fun _ w' => exists rest, sent w' = sent w ++ (cmd, t) :: rest).
Proof.
  unfold standard_paging. apply after_bind, after_send. intros w1 Hp1.
  pose proof (played_sent _ _ _ Hp1) as Hs1.
  destruct (next_reply w) as [shown|e|]; try (exists []; exact Hs1).
  destruct (unrecognized _).
  { apply after_ret. exists []. exact Hs1. }
  apply after_bind, after_time.
  eapply after_weaken; [apply tidy_paging_loop|].
  intros r w' (_ & new & Hp & _). exists new.
  rewrite (played_sent _ _ _ Hp), Hs1. now rewrite <- app_assoc.
Qed.

(** C7. For a large-output command [handle_pagination] enters standard
    paging with the page ceiling raised to [BIG_OUTPUT_MAX_PAGE] = 3 x 200
    = 600 (it is 600 for the default ceiling) and with three times the
    timeout, capped at [LONG_TIMEOUT] = max(3 x 10, 240) = 240 seconds;
    the command itself is already sent with that timeout. *)
Theorem big_output_limits (cmd : pyval) (t : Q) (max_page : Z) (flag : pystr)
    (w : world) :
  py_elem (_strip_or_empty (VStr (_safe_str cmd))) BIG_OUTPUT_CMDS = true ->
  let cmd_clean := _strip_or_empty (VStr (_safe_str cmd)) in
  let big_page := Z.max max_page BIG_OUTPUT_MAX_PAGE in
  let big_timeout := Qmin (t * 3) LONG_TIMEOUT in
  BIG_OUTPUT_MAX_PAGE = (3 * DEFAULT_MAX_PAGE)%Z /\
  BIG_OUTPUT_MAX_PAGE = 600%Z /\
  Z.max DEFAULT_MAX_PAGE BIG_OUTPUT_MAX_PAGE = 600%Z /\
  LONG_TIMEOUT = Qmax (3 * INSPECTION_CMD_TIMEOUT) 240 /\
  LONG_TIMEOUT = 240%Q /\
  (big_timeout <= LONG_TIMEOUT)%Q /\
  handle_pagination cmd t max_page flag w
  = (debug flag (DbgBigOutput cmd_clean) ;;
     debug flag (DbgBigOutputAdjust big_page big_timeout) ;;
     let* r := standard_paging (_safe_str cmd) cmd_clean big_timeout big_page flag in
     ret (fst r)) w /\
  exists rest,
    sent (snd (handle_pagination cmd t max_page flag w))
    = sent w ++ (_safe_str cmd, big_timeout) :: rest.
Proof.
  intros Hbig cmd_clean big_page big_timeout.
  destruct (big_not_no_output _ Hbig) as [Hne Hno].
  assert (E : handle_pagination cmd t max_page flag w
              = (debug flag (DbgBigOutput cmd_clean) ;;
                 debug flag (DbgBigOutputAdjust big_page big_timeout) ;;
                 let* r := standard_paging (_safe_str cmd) cmd_clean big_timeout
                             big_page flag in
                 ret (fst r)) w).
  { unfold handle_pagination. fold cmd_clean. fold cmd_clean in Hne, Hno, Hbig.
    now rewrite Hne, Hno, Hbig. }
  split; [vm_compute; reflexivity|].
  split; [vm_compute; reflexivity|].
  split; [vm_compute; reflexivity|].
  split; [vm_compute; reflexivity|].
  split; [vm_compute; reflexivity|].
  split; [apply Q.le_min_r|].
  split; [exact E|].
  rewrite E.
  {
    assert (H : after (debug flag (DbgBigOutput cmd_clean) ;;
                       debug flag (DbgBigOutputAdjust big_page big_timeout) ;;
                       let* r := standard_paging (_safe_str cmd) cmd_clean
                                   big_timeout big_page flag in
                       ret (fst r)) w
                  (fun _ w' => exists rest,
                       sent w' = sent w ++ (_safe_str cmd, big_timeout) :: rest)).
    { apply after_bind, after_debug. intros w1 Hq1 _.
      apply after_bind, after_debug. intros w2 Hq2 _.
      apply after_bind. eapply after_weaken; [apply standard_paging_first_send|].
      intros r w3 [rest Hrest].
      pose proof (quiet_trans _ _ _ Hq1 Hq2) as Hq.
      apply quiet_fields in Hq as (_ & _ & _ & _ & Hs & _).
      rewrite Hs in Hrest.
      destruct r; try apply after_ret; eauto. }
    exact H. }
Qed.

Lemma big_output_limits_witness :
  py_elem (_strip_or_empty (VStr (_safe_str (VStr (lit "display interface")))))
    BIG_OUTPUT_CMDS = true /\
  exists rest,
    sent (snd (handle_pagination (VStr (lit "display interface")) 10
                 DEFAULT_MAX_PAGE (lit "n") (session_at 0 (script []))))
    = sent (session_at 0 (script []))
      ++ (lit "display interface", Qmin (10 * 3) LONG_TIMEOUT) :: rest.
Proof.
  split; [vm_compute; reflexivity|].
  apply (big_output_limits (VStr (lit "display interface")) 10 DEFAULT_MAX_PAGE
           (lit "n") (session_at 0 (script []))).
  vm_compute; reflexivity.
Defined.

(** ** Alternative disable-paging commands *)

(** The spellings of [alts] tried for [cmd_clean], in order. *)
Definition tried_of (cmd_clean : pystr) (alts : list pystr) : list pystr :=
  List.filter (fun alt => negb (py_eqb alt cmd_clean)) alts.

Definition other_spellings (cmd_clean : pystr) : list pystr :=
  tried_of cmd_clean alternative_cmds.

Lemma alternative_cmds_distinct : List.NoDup alternative_cmds.
Proof.
  unfold alternative_cmds.
  repeat constructor; simpl; intros H;
    repeat (destruct H as [H|H]; [vm_compute in H; discriminate H|]);
    exact H.
Qed.

Lemma other_spellings_distinct (cmd_clean : pystr) :
  List.NoDup (other_spellings cmd_clean).
Proof.
  unfold other_spellings, tried_of.
  apply List.NoDup_filter, alternative_cmds_distinct.
Qed.

Lemma other_spellings_skip_original (cmd_clean : pystr) :
  ~ In cmd_clean (other_spellings cmd_clean).
Proof.
  unfold other_spellings, tried_of. intros H. apply filter_In in H as [_ H].
  now rewrite py_eqb_refl in H.
Qed.

Lemma in_app_r (p a b : pystr) : py_in p b = true -> py_in p (a ++ b) = true.
Proof.
  intros H. induction a as [|c a IH]; [exact H|].
  rewrite <- app_comm_cons, py_in_cons, IH. apply orb_true_r.
Qed.

Lemma in_self_app (p b : pystr) : py_in p (p ++ b) = true.
Proof.
  destruct p as [|c p]; [destruct b; reflexivity|].
  rewrite <- app_comm_cons, py_in_cons, app_comm_cons.
  now rewrite startswith_self_app.
Qed.

Lemma in_middle (p a b : pystr) : py_in p (a ++ p ++ b) = true.
Proof. apply in_app_r, in_self_app. Qed.

Section Alternatives.

Variables (cmd cmd_clean : pystr) (t : Q) (flag : pystr) (good : pystr).
Hypothesis good_reply : any_in error_patterns good = false.

Let tried := tried_of cmd_clean.

(** The loop over the alternatives when the [k]-th spelling tried is the
    first one whose reply shows no error. *)
Lemma try_alternatives_first_good (alts : list pystr) :
  forall (k : nat) (w : world),
    (k < length (tried alts))%nat ->
    (forall i, (i < k)%nat ->
       exists r, reply (device w (cursor w + i)) = inr r /\
                 any_in error_patterns r = true) ->
    reply (device w (cursor w + k)) = inr good ->
    after (try_alternatives alts cmd cmd_clean t flag) w
      (fun r w' =>
         r = Ok (Some (alt_succeeded_msg cmd (nth k (tried alts) []) good)) /\
         played w w' (List.map (fun a => (a, t)) (firstn (S k) (tried alts)))).
Proof.
  induction alts as [|alt rest IH]; intros k w Hk Hbad Hgood.
  - simpl in Hk. lia.
  - cbn [try_alternatives]. unfold tried, tried_of in *. cbn [List.filter] in *.
    destruct (negb (py_eqb alt cmd_clean)).
    2:{ now apply IH. }
    apply after_bind, after_debug. intros w1 Hq1 _.
    apply after_bind, after_send. intros w2 Hp2.
    pose proof (quiet_then_played _ _ _ _ Hq1 Hp2) as Hp.
    rewrite (next_reply_quiet _ _ Hq1). unfold next_reply.
    destruct k as [|k].
    + rewrite Nat.add_0_r in Hgood. rewrite Hgood.
      cbn [_safe_str]. rewrite good_reply. cbn [negb].
      apply after_bind, after_debug. intros w3 Hq3 _. apply after_ret.
      split; [reflexivity|]. cbn [firstn List.map].
      eapply played_then_quiet; eauto.
    + destruct (Hbad 0%nat ltac:(lia)) as (r & Hr & Herr).
      rewrite Nat.add_0_r in Hr. rewrite Hr. cbn [_safe_str]. rewrite Herr.
      cbn [negb]. cbn [length] in Hk.
      pose proof (played_device _ _ _ Hp) as Hd.
      pose proof (played_cursor _ _ _ Hp) as Hc. simpl in Hc.
      eapply after_weaken.
      { apply (IH k w2); [lia | |].
        - intros i Hi. rewrite Hd, Hc.
          replace (cursor w + 1 + i)%nat with (cursor w + S i)%nat by lia.
          apply Hbad. lia.
        - rewrite Hd, Hc.
          now replace (cursor w + 1 + k)%nat with (cursor w + S k)%nat by lia. }
      intros r' w' [-> Hp']. split; [reflexivity|].
      exact (played_trans _ _ _ [(alt, t)] _ Hp Hp').
Qed.

(** The loop over the alternatives when every spelling tried is answered
    with an error: all are tried, and the loop falls through. *)
Lemma try_alternatives_all_bad (alts : list pystr) :
  forall (w : world),
    (forall i, (i < length (tried alts))%nat ->
       exists r, reply (device w (cursor w + i)) = inr r /\
                 any_in error_patterns r = true) ->
    after (try_alternatives alts cmd cmd_clean t flag) w
      (fun r w' =>
         r = Ok None /\ played w w' (List.map (fun a => (a, t)) (tried alts))).
Proof.
  induction alts as [|alt rest IH]; intros w Hbad.
  - apply after_ret. split; [reflexivity | apply played_refl].
  - cbn [try_alternatives]. unfold tried, tried_of in *. cbn [List.filter] in *.
    destruct (negb (py_eqb alt cmd_clean)).
    2:{ now apply IH. }
    apply after_bind, after_debug. intros w1 Hq1 _.
    apply after_bind, after_send. intros w2 Hp2.
    pose proof (quiet_then_played _ _ _ _ Hq1 Hp2) as Hp.
    rewrite (next_reply_quiet _ _ Hq1). unfold next_reply.
    cbn [length] in Hbad.
    destruct (Hbad 0%nat ltac:(lia)) as (r & Hr & Herr).
    rewrite Nat.add_0_r in Hr. rewrite Hr. cbn [_safe_str]. rewrite Herr.
    cbn [negb].
    pose proof (played_device _ _ _ Hp) as Hd.
    pose proof (played_cursor _ _ _ Hp) as Hc. simpl in Hc.
    eapply after_weaken.
    { apply (IH w2). intros i Hi. rewrite Hd, Hc.
      replace (cursor w + 1 + i)%nat with (cursor w + S i)%nat by lia.
      apply Hbad. lia. }
    intros r' w' [-> Hp']. split; [reflexivity|].
    exact (played_trans _ _ _ [(alt, t)] _ Hp Hp').
Qed.

End Alternatives.

Lemma after_exact {A} (m : M A) (w : world) (r0 : res A) (P : world -> Prop) :
  after m w (fun r w' => r = r0 /\ P w') ->
  exists w', m w = (r0, w') /\ P w'.
Proof.
  unfold after. destruct (m w) as [r w']. simpl. intros [-> H]. eauto.
Qed.

Lemma no_output_not_empty (x : pystr) :
  py_elem x NO_OUTPUT_CMDS = true -> py_eqb x [] = false.
Proof.
  intros H. unfold py_elem in H. apply existsb_exists in H as (y & Hin & Hy).
  apply py_eqb_true in Hy. subst y. simpl in Hin.
  repeat (destruct Hin as [<-|Hin]; [vm_compute; reflexivity|]).
  destruct Hin.
Qed.

Lemma NoDup_firstn {A} (n : nat) (l : list A) : List.NoDup l -> List.NoDup (firstn n l).
Proof.
  intros H. rewrite <- (firstn_skipn n l) in H.
  now apply NoDup_app_remove_r in H.
Qed.

(** C5. A no-output disable-paging command whose first reply shows an
    error: the other spellings are tried in list order, the original one
    left out, each at most once; the replies before the [k]-th show an
    error, the [k]-th does not; nothing is sent after it, and the status
    returned names that spelling. *)
Theorem alternatives_tried_in_order
    (cmd : pyval) (t : Q) (max_page : Z) (flag : pystr) (w : world)
    (k : nat) (bad good : pystr) :
  let c := _safe_str cmd in
  let cmd_clean := _strip_or_empty (VStr c) in
  let alts := other_spellings cmd_clean in
  py_elem cmd_clean NO_OUTPUT_CMDS = true ->
  py_in (lit "screen-length") cmd_clean = true ->
  reply (device w (cursor w)) = inr bad ->
  any_in error_patterns bad = true ->
  (k < length alts)%nat ->
  (forall i, (i < k)%nat ->
     exists r, reply (device w (cursor w + 1 + i)) = inr r /\
               any_in error_patterns r = true) ->
  reply (device w (cursor w + 1 + k)) = inr good ->
  any_in error_patterns good = false ->
  exists w',
    handle_pagination cmd t max_page flag w
    = (Ok (alt_succeeded_msg c (nth k alts []) good), w') /\
    sent w' = sent w ++ (c, t) :: List.map (fun a => (a, t)) (firstn (S k) alts) /\
    cursor w' = (cursor w + 2 + k)%nat /\
    List.NoDup (firstn (S k) alts) /\
    ~ In cmd_clean alts /\
    py_in (nth k alts []) (alt_succeeded_msg c (nth k alts []) good) = true.
Proof.
  intros c cmd_clean alts Hno Hsl Hbad Herr Hk Hbads Hgood Hok.
  assert (H : after (handle_pagination cmd t max_page flag) w
                (fun r w' =>
                   r = Ok (alt_succeeded_msg c (nth k alts []) good) /\
                   played w w'
                     ([(c, t)] ++ List.map (fun a => (a, t)) (firstn (S k) alts)))).
  { unfold handle_pagination. fold c. fold cmd_clean.
    rewrite (no_output_not_empty _ Hno), Hno.
    unfold no_output_command.
    apply after_bind, after_debug. intros w1 Hq1 _.
    apply after_bind, after_send. intros w2 Hp2.
    pose proof (quiet_then_played _ _ _ _ Hq1 Hp2) as Hp.
    rewrite (next_reply_quiet _ _ Hq1). unfold next_reply. rewrite Hbad.
    cbn [_safe_str]. rewrite Hsl, Herr. cbn [andb].
    pose proof (played_device _ _ _ Hp) as Hd.
    pose proof (played_cursor _ _ _ Hp) as Hc. simpl in Hc.
    apply after_bind. eapply after_weaken.
    { apply (try_alternatives_first_good c cmd_clean t flag good Hok
               alternative_cmds k w2).
      - exact Hk.
      - intros i Hi. rewrite Hd, Hc. now apply Hbads.
      - now rewrite Hd, Hc. }
    intros r w3 [-> Hp3]. apply after_ret. split; [reflexivity|].
    exact (played_trans _ _ _ _ _ Hp Hp3). }
  apply after_exact in H as (w' & E & Hp). exists w'.
  split; [exact E|].
  split; [exact (played_sent _ _ _ Hp)|].
  split.
  { rewrite (played_cursor _ _ _ Hp). simpl.
    rewrite length_map, length_firstn. lia. }
  split; [apply NoDup_firstn, other_spellings_distinct|].
  split; [apply other_spellings_skip_original|].
  unfold alt_succeeded_msg.
  rewrite (app_assoc (lit "命令 ")), (app_assoc (lit "命令 " ++ c)).
  apply in_middle.
Qed.

Lemma alternatives_tried_in_order_witness :
  exists w',
    handle_pagination (VStr (lit "screen-length disable")) 10 DEFAULT_MAX_PAGE
      (lit "n")
      (session_at 0
         (script [ says (lit "% Unrecognized command found at '^' position.") 1;
                   says (lit "Error: invalid input") 1;
                   says [] 1 ]))
    = (Ok (alt_succeeded_msg (lit "screen-length disable")
             (lit "screen-length 0 temporary") []), w') /\
    List.map fst (sent w')
    = [ lit "screen-length disable"; lit "screen-length 0";
        lit "screen-length 0 temporary" ].
Proof.
  destruct (alternatives_tried_in_order (VStr (lit "screen-length disable")) 10
              DEFAULT_MAX_PAGE (lit "n")
              (session_at 0
                 (script [ says (lit "% Unrecognized command found at '^' position.") 1;
                           says (lit "Error: invalid input") 1;
                           says [] 1 ]))
              1 (lit "% Unrecognized command found at '^' position.") [])
    as (w' & E & Hs & _).
  - vm_compute; reflexivity.
  - vm_compute; reflexivity.
  - reflexivity.
  - vm_compute; reflexivity.
  - vm_compute; lia.
  - intros i Hi. assert (i = 0%nat) as -> by lia.
    exists (lit "Error: invalid input"). split; vm_compute; reflexivity.
  - reflexivity.
  - vm_compute; reflexivity.
  - exists w'. split; [exact E|]. rewrite Hs. vm_compute. reflexivity.
Defined.

(** When every other spelling is answered with an error as well, each
    has been tried once and the failure of the original command is
    reported. *)
Lemma alternatives_all_fail
    (cmd : pyval) (t : Q) (max_page : Z) (flag : pystr) (w : world) (bad : pystr) :
  let c := _safe_str cmd in
  let cmd_clean := _strip_or_empty (VStr c) in
  let alts := other_spellings cmd_clean in
  py_elem cmd_clean NO_OUTPUT_CMDS = true ->
  py_in (lit "screen-length") cmd_clean = true ->
  reply (device w (cursor w)) = inr bad ->
  any_in error_patterns bad = true ->
  (forall i, (i < length alts)%nat ->
     exists r, reply (device w (cursor w + 1 + i)) = inr r /\
               any_in error_patterns r = true) ->
  exists w',
    handle_pagination cmd t max_page flag w = (Ok (failed_msg c bad), w') /\
    sent w' = sent w ++ (c, t) :: List.map (fun a => (a, t)) alts.
Proof.
  intros c cmd_clean alts Hno Hsl Hbad Herr Hbads.
  assert (H : after (handle_pagination cmd t max_page flag) w
                (fun r w' =>
                   r = Ok (failed_msg c bad) /\
                   played w w' ([(c, t)] ++ List.map (fun a => (a, t)) alts))).
  { unfold handle_pagination. fold c. fold cmd_clean.
    rewrite (no_output_not_empty _ Hno), Hno.
    unfold no_output_command.
    apply after_bind, after_debug. intros w1 Hq1 _.
    apply after_bind, after_send. intros w2 Hp2.
    pose proof (quiet_then_played _ _ _ _ Hq1 Hp2) as Hp.
    rewrite (next_reply_quiet _ _ Hq1). unfold next_reply. rewrite Hbad.
    cbn [_safe_str]. rewrite Hsl, Herr. cbn [andb].
    pose proof (played_device _ _ _ Hp) as Hd.
    pose proof (played_cursor _ _ _ Hp) as Hc. simpl in Hc.
    apply after_bind. eapply after_weaken.
    { apply (try_alternatives_all_bad c cmd_clean t flag alternative_cmds w2).
      intros i Hi. rewrite Hd, Hc. now apply Hbads. }
    intros r w3 [-> Hp3].
    apply after_bind, after_debug. intros w4 Hq4 _. apply after_ret.
    split; [reflexivity|].
    eapply played_then_quiet; [|exact Hq4].
    exact (played_trans _ _ _ _ _ Hp Hp3). }
  apply after_exact in H as (w' & E & Hp). exists w'.
  split; [exact E | exact (played_sent _ _ _ Hp)].
Qed.

(** ** The repeat guard and the deadline guard *)

(** A marker that is there, and could match, only through visible
    characters. *)
Definition solid (pattern : pystr) : bool :=
  let p := clean_pattern pattern in
  py_eqb p [] || (ends_solid p && ends_solid (py_lower p)).

Lemma patterns_solid : forallb solid PAGINATION_PATTERNS = true.
Proof. vm_compute. reflexivity. Qed.

Definition marker_found (s : pystr) : bool :=
  existsb (marker_in s) PAGINATION_PATTERNS.

Lemma marker_in_app_blank (s ws pattern : pystr) :
  solid pattern = true -> is_blank ws = true ->
  marker_in (s ++ ws) pattern = marker_in s pattern.
Proof.
  unfold solid, marker_in. cbv zeta. intros Hs Hws.
  destruct (py_eqb (clean_pattern pattern) []); [reflexivity|].
  cbn [orb negb andb] in *. apply andb_prop in Hs as [H1 H2].
  rewrite lower_app, (lower_blank _ Hws).
  now rewrite (in_app_blank _ _ _ H1 Hws), (in_app_blank _ _ _ H2 Hws).
Qed.

Lemma find_marker_app_blank (pats : list pystr) (s ws : pystr) :
  forallb solid pats = true -> is_blank ws = true ->
  List.find (marker_in (s ++ ws)) pats = List.find (marker_in s) pats.
Proof.
  intros Hs Hws. induction pats as [|pattern rest IH]; [reflexivity|].
  simpl in Hs. apply andb_prop in Hs as [H1 H2].
  cbn [List.find]. now rewrite (marker_in_app_blank _ _ _ H1 Hws), IH.
Qed.

Lemma marker_found_find (s : pystr) :
  marker_found s = true ->
  exists pattern, List.find (marker_in s) PAGINATION_PATTERNS = Some pattern.
Proof.
  unfold marker_found. intros H. apply existsb_exists in H as (x & Hin & Hx).
  destruct (List.find (marker_in s) PAGINATION_PATTERNS) eqn:E; [eauto|].
  pose proof (find_none _ _ E _ Hin). congruence.
Qed.

Lemma marker_not_blank (s : pystr) : marker_found s = true -> py_strip s <> [].
Proof.
  unfold marker_found. intros H Hs. apply existsb_exists in H as (x & Hin & Hx).
  apply strip_nil_blank in Hs.
  pose proof patterns_solid as Hsol.
  rewrite forallb_forall in Hsol. specialize (Hsol _ Hin).
  unfold solid, marker_in in *. cbv zeta in *.
  destruct (py_eqb (clean_pattern x) []); [discriminate|].
  cbn [orb negb andb] in *. apply andb_prop in Hsol as [H1 H2].
  rewrite (lower_blank _ Hs) in Hx.
  rewrite (in_blank _ _ H1 Hs), (in_blank _ _ H2 Hs) in Hx. discriminate.
Qed.

Lemma unrecognized_app_blank (s ws : pystr) :
  is_blank ws = true -> unrecognized (s ++ ws) = unrecognized s.
Proof.
  intros Hws. unfold unrecognized.
  assert (H1 : ends_solid (lit "Unrecognized command") = true)
    by (vm_compute; reflexivity).
  assert (H2 : ends_solid
                 (lit "Error: Unrecognized command found at '^' position.") = true)
    by (vm_compute; reflexivity).
  now rewrite (in_app_blank _ _ _ H1 Hws), (in_app_blank _ _ _ H2 Hws).
Qed.

(** The repeat ceiling of a command. *)
Definition repeat_ceiling (cmd_clean : pystr) : Z :=
  if py_elem cmd_clean BIG_OUTPUT_CMDS then (MAX_REPEAT_PAGE * 2)%Z
  else MAX_REPEAT_PAGE.

Section Guards.

Variables (cmd cmd_clean : pystr) (t : Q) (max_page : Z) (flag : pystr) (T0 : Q).


Variable s0 : pystr.
Hypothesis known : unrecognized s0 = false.
Hypothesis marked : marker_found s0 = true.

(** From a state in which [show] is the baseline [s0] followed by
    whitespace, [m] more blank replies arriving before the deadline take
    the repeat counter to the ceiling. *)
Lemma repeat_run (m : nat) :
  forall (fuel : nat) (ws : pystr) (entries : nat) (pc rc : Z) (w : world),
    is_blank ws = true ->
    (rc + Z.of_nat m + 1 = repeat_ceiling cmd_clean)%Z ->
    (m < fuel)%nat ->
    (pc + Z.of_nat m <= max_page)%Z ->
    (forall i, (i < m)%nat ->
       exists r, reply (device w (cursor w + i)) = inr r /\ is_blank r = true) ->
    (forall i, (i < m)%nat ->
       (clock_after (device w) (cursor w) (now w) i - T0 <= t)%Q) ->
    after (paging_loop fuel cmd cmd_clean t max_page flag T0
             (MkPage (s0 ++ ws) pc s0 rc) entries) w
      (fun r w' =>
         exists tail keys,
           is_blank tail = true /\
           r = Ok (s0 ++ tail ++ DEADLOCK_WARNING, (entries + m + 1)%nat) /\
           length keys = m /\
           played w w' (List.map (fun k => (k, t)) keys)).
Proof.
  induction m as [|m IH]; intros fuel ws entries pc rc w Hws Hrc Hfuel Hpc Hrep Hclk;
    (destruct fuel as [|fuel]; [lia|]);
    cbn [paging_loop _safe_str show prev_output repeat_count page_count];
    rewrite (unrecognized_app_blank _ _ Hws), known;
    rewrite (strip_app_blank _ _ Hws), py_eqb_refl;
    fold (repeat_ceiling cmd_clean);
    apply after_bind, after_debug; intros w1 Hq1 _.
  - destruct (Z.geb_spec (rc + 1) (repeat_ceiling cmd_clean)) as [_|Hlt]; [|lia].
    apply after_ret. exists ws, []. rewrite <- app_assoc.
    repeat apply conj; try reflexivity; try assumption.
    + f_equal. f_equal. lia.
    + now apply played_quiet.
  - destruct (Z.geb_spec (rc + 1) (repeat_ceiling cmd_clean)) as [Hge|_]; [lia|].
    apply after_bind, after_time.
    pose proof (quiet_fields _ _ Hq1) as (Hn1 & Hd1 & Hc1 & _).
    pose proof (Hclk 0%nat ltac:(lia)) as Hclk0. cbn [clock_after] in Hclk0.
    rewrite Hn1, (Qgtb_le _ _ Hclk0).
    apply after_bind, after_scan; [exact patterns_answered|].
    rewrite (find_marker_app_blank _ _ _ patterns_solid Hws).
    destruct (marker_found_find _ marked) as [pattern ->].
    intros w2 Hp2.
    pose proof (quiet_then_played _ _ _ _ Hq1 Hp2) as Hp.
    rewrite (next_reply_quiet _ _ Hq1). unfold next_reply.
    destruct (Hrep 0%nat ltac:(lia)) as (r & Hr & Hblank).
    rewrite Nat.add_0_r in Hr. rewrite Hr. cbn [fst snd negb orb].
    destruct (Z.gtb_spec (pc + 1) max_page) as [Hgt|_]; [lia|].
    rewrite <- app_assoc.
    pose proof (played_device _ _ _ Hp) as Hd.
    pose proof (played_cursor _ _ _ Hp) as Hc. simpl in Hc.
    pose proof (played_now _ _ _ Hp) as Hn. simpl in Hn.
    eapply after_weaken.
    { apply (IH fuel (ws ++ r) (S entries) (pc + 1)%Z (rc + 1)%Z w2).
      - rewrite is_blank_app, Hws, Hblank. reflexivity.
      - lia.
      - lia.
      - lia.
      - intros i Hi. rewrite Hd, Hc.
        replace (cursor w + 1 + i)%nat with (cursor w + S i)%nat by lia.
        apply Hrep. lia.
      - intros i Hi. rewrite Hd, Hc, Hn.
        replace (cursor w + 1)%nat with (S (cursor w)) by lia.
        apply (Hclk (S i)). lia. }
    intros r' w' (tail & keys & Htail & -> & Hlen & Hp').
    exists tail, (keystroke pattern :: keys).
    repeat apply conj; try assumption.
    + f_equal. f_equal. lia.
    + simpl. now rewrite Hlen.
    + exact (played_trans _ _ _ [(keystroke pattern, t)] _ Hp Hp').
Qed.

End Guards.

Lemma repeat_ceiling_values (cmd_clean : pystr) :
  repeat_ceiling cmd_clean
  = (if py_elem cmd_clean BIG_OUTPUT_CMDS then 10 else 5)%Z.
Proof. unfold repeat_ceiling. destruct (py_elem _ _); reflexivity. Qed.

(** Standard paging when the first reply shows a marker and every
    further reply is blank and arrives before the deadline. *)
Lemma standard_paging_deadlock (cmd cmd_clean : pystr) (t : Q) (max_page : Z)
    (flag : pystr) (w : world) (s0 : pystr) :
  let ceiling := Z.to_nat (repeat_ceiling cmd_clean) in
  let T0 := (now w + took (device w (cursor w)))%Q in
  reply (device w (cursor w)) = inr s0 ->
  unrecognized s0 = false ->
  marker_found s0 = true ->
  (forall i, (i < ceiling)%nat ->
     exists r, reply (device w (cursor w + 1 + i)) = inr r /\ is_blank r = true) ->
  (forall i, (i < ceiling)%nat ->
     (clock_after (device w) (S (cursor w)) T0 i - T0 <= t)%Q) ->
  (Z.of_nat ceiling <= max_page)%Z ->
  after (standard_paging cmd cmd_clean t max_page flag) w
    (fun r w' =>
       exists tail keys,
         is_blank tail = true /\
         r = Ok (s0 ++ tail ++ DEADLOCK_WARNING, S ceiling) /\
         length keys = ceiling /\
         played w w' ((cmd, t) :: List.map (fun k => (k, t)) keys)).
Proof.
  intros ceiling T0 Hfirst Hknown Hmark Hrep Hclk Hmp.
  assert (Hceil : (1 <= ceiling)%nat).
  { unfold ceiling. rewrite repeat_ceiling_values. destruct (py_elem _ _); lia. }
  assert (Hceil' : Z.of_nat ceiling = repeat_ceiling cmd_clean).
  { unfold ceiling. rewrite repeat_ceiling_values. destruct (py_elem _ _); lia. }
  unfold standard_paging. apply after_bind, after_send. intros w1 Hp1.
  unfold next_reply. rewrite Hfirst. cbn [_safe_str]. rewrite Hknown.
  apply after_bind, after_time.
  pose proof (played_device _ _ _ Hp1) as Hd1.
  pose proof (played_cursor _ _ _ Hp1) as Hc1. simpl in Hc1.
  pose proof (played_now _ _ _ Hp1) as Hn1. cbn [length clock_after] in Hn1.
  fold T0 in Hn1. rewrite Hn1.
  (* first pass through the body: the baseline is recorded *)
  unfold loop_fuel.
  cbn [paging_loop _safe_str show prev_output repeat_count page_count].
  rewrite Hknown.
  change (py_strip []) with (@nil N).
  destruct (py_eqb (py_strip s0) []) eqn:Hempty.
  { apply py_eqb_true in Hempty. now apply marker_not_blank in Hempty. }
  fold (repeat_ceiling cmd_clean).
  apply after_bind, after_debug. intros w2 Hq2 _.
  destruct (Z.geb_spec 0 (repeat_ceiling cmd_clean)) as [Hge|_]; [lia|].
  apply after_bind, after_time.
  pose proof (quiet_fields _ _ Hq2) as (Hn2 & Hd2 & Hc2 & _).
  pose proof (Hclk 0%nat ltac:(lia)) as Hclk0. cbn [clock_after] in Hclk0.
  rewrite Hn2, Hn1, (Qgtb_le _ _ Hclk0).
  apply after_bind, after_scan; [exact patterns_answered|].
  destruct (marker_found_find _ Hmark) as [pattern ->].
  intros w3 Hp3.
  pose proof (quiet_then_played _ _ _ _ Hq2 Hp3) as Hp13.
  pose proof (played_trans _ _ _ _ _ Hp1 Hp13) as Hp.
  rewrite (next_reply_quiet _ _ Hq2). unfold next_reply. rewrite Hd1, Hc1.
  destruct (Hrep 0%nat ltac:(lia)) as (r0 & Hr0 & Hblank0).
  rewrite Nat.add_0_r in Hr0. rewrite Hr0. cbn [fst snd negb orb].
  destruct (Z.gtb_spec (0 + 1) max_page) as [Hgt|_]; [lia|].
  pose proof (played_device _ _ _ Hp) as Hd.
  pose proof (played_cursor _ _ _ Hp) as Hc. simpl in Hc.
  pose proof (played_now _ _ _ Hp) as Hn. cbn [length clock_after app] in Hn.
  fold T0 in Hn.
  eapply after_weaken.
  { apply (repeat_run cmd cmd_clean t max_page flag T0 s0 Hknown Hmark
             (ceiling - 1) (Z.to_nat max_page) r0 1%nat (0 + 1)%Z 0%Z w3).
    - exact Hblank0.
    - lia.
    - lia.
    - lia.
    - intros i Hi. rewrite Hd, Hc.
      replace (cursor w + 2 + i)%nat with (cursor w + 1 + S i)%nat by lia.
      apply Hrep. lia.
    - intros i Hi. rewrite Hd, Hc, Hn.
      replace (cursor w + 2)%nat with (S (S (cursor w))) by lia.
      apply (Hclk (S i)). lia. }
  intros r w' (tail & keys & Htail & -> & Hlen & Hp').
  exists tail, (keystroke pattern :: keys).
  repeat apply conj; try assumption.
  - f_equal. f_equal. lia.
  - simpl. rewrite Hlen. lia.
  - exact (played_trans _ _ _ [(cmd, t); (keystroke pattern, t)] _ Hp Hp').
Qed.

(** C1, as the code has it.  A standard command whose first reply shows
    a pagination marker and whose further replies add nothing but
    whitespace: as long as the deadline guard does not fire first (each of
    these replies arrives within the command's timeout, counted from the
    start of paging) and the page ceiling is not below the repeat
    ceiling, the loop plays exactly as many continuation exchanges as the
    repeat ceiling (5, or 10 for a large-output command) and returns the
    output followed by the deadlock warning. *)
Theorem unchanged_pages_reach_repeat_ceiling
    (cmd : pyval) (t : Q) (max_page : Z) (flag : pystr) (w : world) (s0 : pystr) :
  let c := _safe_str cmd in
  let cmd_clean := _strip_or_empty (VStr c) in
  let big := py_elem cmd_clean BIG_OUTPUT_CMDS in
  let ceiling := Z.to_nat (repeat_ceiling cmd_clean) in
  let page_ceiling := if big then Z.max max_page BIG_OUTPUT_MAX_PAGE else max_page in
  let T0 := (now w + took (device w (cursor w)))%Q in
  py_eqb cmd_clean [] = false ->
  py_elem cmd_clean NO_OUTPUT_CMDS = false ->
  reply (device w (cursor w)) = inr s0 ->
  unrecognized s0 = false ->
  marker_found s0 = true ->
  (forall i, (i < ceiling)%nat ->
     exists r, reply (device w (cursor w + 1 + i)) = inr r /\ is_blank r = true) ->
  (forall i, (i < ceiling)%nat ->
     (clock_after (device w) (S (cursor w)) T0 i - T0 <= effective_timeout cmd t)%Q) ->
  (Z.of_nat ceiling <= page_ceiling)%Z ->
  exists tail w',
    handle_pagination cmd t max_page flag w
    = (Ok (s0 ++ tail ++ DEADLOCK_WARNING), w') /\
    is_blank tail = true /\
    cursor w' = (cursor w + 1 + ceiling)%nat /\
    py_in DEADLOCK_WARNING (s0 ++ tail ++ DEADLOCK_WARNING) = true /\
    Z.of_nat ceiling = (if big then 10 else 5)%Z.
Proof.
  intros c cmd_clean big ceiling page_ceiling T0
         Hne Hno Hfirst Hknown Hmark Hrep Hclk Hmp.
  assert (H : after (handle_pagination cmd t max_page flag) w
                (fun r w' =>
                   exists tail,
                     is_blank tail = true /\
                     r = Ok (s0 ++ tail ++ DEADLOCK_WARNING) /\
                     cursor w' = (cursor w + 1 + ceiling)%nat)).
  { unfold handle_pagination. fold c. fold cmd_clean. rewrite Hne, Hno.
    unfold effective_timeout in Hclk. fold c in Hclk. fold cmd_clean in Hclk.
    fold big. fold big in Hclk.
    apply after_bind.
    eapply after_weaken with (p := fun r w1 => r = Ok tt /\ quiet w w1).
    { destruct big.
      - apply after_debug. intros w1 Hq1 _. auto.
      - apply after_ret. split; reflexivity. }
    intros r w1 [-> Hq1].
    apply after_bind.
    eapply after_weaken with (p := fun r w2 => r = Ok tt /\ quiet w w2).
    { destruct big.
      - apply after_debug. intros w2 Hq2 _. split; [reflexivity|].
        eapply quiet_trans; eauto.
      - apply after_ret. auto. }
    intros r w2 [-> Hq2].
    pose proof (quiet_fields _ _ Hq2) as (Hn & Hd & Hc & _).
    apply after_bind. eapply after_weaken.
    { apply (standard_paging_deadlock c cmd_clean
               (if big then Qmin (t * 3) LONG_TIMEOUT else t)
               (if big then Z.max max_page BIG_OUTPUT_MAX_PAGE else max_page)
               flag w2 s0).
      - now rewrite Hd, Hc.
      - exact Hknown.
      - exact Hmark.
      - intros i Hi. rewrite Hd, Hc. now apply Hrep.
      - intros i Hi. rewrite Hd, Hc, Hn. now apply Hclk.
      - exact Hmp. }
    intros r w' (tail & keys & Htail & -> & Hlen & Hp).
    apply after_ret. exists tail. repeat apply conj; try assumption; try reflexivity.
    rewrite (played_cursor _ _ _ Hp), Hc. simpl. rewrite length_map, Hlen.
    fold ceiling. lia. }
  unfold after in H.
  destruct (handle_pagination cmd t max_page flag w) as [r w'] eqn:E.
  simpl in H. destruct H as (tail & Htail & -> & Hc).
  exists tail, w'. repeat apply conj; try assumption; try reflexivity.
  - rewrite app_assoc. apply in_suffix.
  - unfold ceiling. rewrite repeat_ceiling_values. fold big. destruct big; reflexivity.
Qed.

(** A device that shows one page with a marker and then answers every
    keystroke with nothing, [dt] seconds each. *)
Definition stuck_device (dt : Q) : nat -> exchange :=
  script [ says (lit "page1 ---- More ----") 1;
           says [] dt; says [] dt; says [] dt; says [] dt; says [] dt; says [] dt ].

Lemma unchanged_pages_reach_repeat_ceiling_witness :
  exists tail w',
    handle_pagination (VStr (lit "display version")) 10 DEFAULT_MAX_PAGE (lit "n")
      (session_at 0 (stuck_device 2))
    = (Ok (lit "page1 ---- More ----" ++ tail ++ DEADLOCK_WARNING), w') /\
    cursor w' = 6%nat.
Proof.
  destruct (unchanged_pages_reach_repeat_ceiling (VStr (lit "display version")) 10
              DEFAULT_MAX_PAGE (lit "n") (session_at 0 (stuck_device 2))
              (lit "page1 ---- More ----"))
    as (tail & w' & E & _ & Hc & _).
  - vm_compute; reflexivity.
  - vm_compute; reflexivity.
  - reflexivity.
  - vm_compute; reflexivity.
  - vm_compute; reflexivity.
  - intros i Hi. change (Z.to_nat _) with 5%nat in Hi.
    do 5 (destruct i as [|i]; [exists []; split; reflexivity|]). lia.
  - intros i Hi. change (Z.to_nat _) with 5%nat in Hi.
    do 5 (destruct i as [|i]; [vm_compute; discriminate|]). lia.
  - vm_compute; discriminate.
  - exists tail, w'. split; [exact E | exact Hc].
Defined.

(** C1, as stated, fails when the replies are slow: the same device
    answering every 2.6 seconds is cut off by the deadline guard after
    four unchanged pages; the text carries the timeout warning and not
    the deadlock warning. *)
Lemma unchanged_pages_cut_by_deadline :
  let w := session_at 0 (stuck_device (26 # 10)) in
  let r := handle_pagination (VStr (lit "display version")) 10 DEFAULT_MAX_PAGE
             (lit "n") w in
  (forall i, (1 <= i)%nat -> reply (device w i) = inr []) /\
  exists out,
    fst r = Ok out /\
    cursor (snd r) = 5%nat /\
    py_in DEADLOCK_WARNING out = false /\
    py_in TIMEOUT_WARNING out = true.
Proof.
  split.
  - intros i Hi. do 8 (destruct i as [|i]; [try lia; reflexivity|]).
    unfold stuck_device, script. simpl. now destruct i.
  - eexists. split; [vm_compute; reflexivity|].
    split; vm_compute; auto.
Qed.




(** ** The inspection task *)

(** [m] returns normally with a value in [R], and all it does to the
    session is play exchanges whose read timeout is in [P]. *)
Definition calm_post {A} (P : Q -> Prop) (R : A -> Prop) (w : world)
    (r : res A) (w' : world) : Prop :=
  (exists a, r = Ok a /\ R a) /\
  exists new, played w w' new /\ Forall (fun e => P (snd e)) new.

Definition calm {A} (P : Q -> Prop) (R : A -> Prop) (m : M A) : Prop :=
  forall w, after m w (calm_post P R w).

Lemma calm_post_quiet {A} (P : Q -> Prop) (R : A -> Prop) (w w' : world) (a : A) :
  quiet w w' -> R a -> calm_post P R w (Ok a) w'.
Proof.
  intros Hq Ha. split; [eauto|]. exists []. split; [now apply played_quiet|].
  constructor.
Qed.

Lemma calm_post_trans {A} (P : Q -> Prop) (R : A -> Prop) (a b c : world)
    (new : list (pystr * Q)) (r : res A) :
  played a b new -> Forall (fun e => P (snd e)) new ->
  calm_post P R b r c -> calm_post P R a r c.
Proof.
  intros Hp Hall (Hr & new' & Hp' & Hall'). split; [exact Hr|].
  exists (new ++ new'). split; [eapply played_trans; eauto|].
  apply Forall_app; auto.
Qed.

Lemma calm_ret {A} (P : Q -> Prop) (R : A -> Prop) (a : A) :
  R a -> calm P R (ret a).
Proof. intros Ha w. apply after_ret. apply calm_post_quiet; [apply quiet_refl | exact Ha]. Qed.

Lemma calm_bind {A B} (P : Q -> Prop) (R1 : A -> Prop) (R2 : B -> Prop)
    (m : M A) (k : A -> M B) :
  calm P R1 m -> (forall a, R1 a -> calm P R2 (k a)) -> calm P R2 (bind m k).
Proof.
  intros Hm Hk w. apply after_bind. eapply after_weaken; [apply Hm|].
  intros r w1 ((a & -> & Ha) & new & Hp & Hall).
  eapply after_weaken; [apply (Hk a Ha)|].
  intros r' w2 H. eapply calm_post_trans; eauto.
Qed.

Lemma calm_log (P : Q -> Prop) (lvl : level) (ev : event) :
  calm P (fun _ => True) (log_message lvl ev).
Proof.
  intros w. apply after_log. intros w' Hq _. now apply calm_post_quiet.
Qed.

Lemma calm_debug (P : Q -> Prop) (flag : pystr) (ev : event) :
  calm P (fun _ => True) (debug flag ev).
Proof.
  intros w. apply after_debug. intros w' Hq _. now apply calm_post_quiet.
Qed.

(** A handler that catches everything makes a tidy computation calm. *)
Lemma calm_rescue {A} (P : Q -> Prop) (R : A -> Prop) (t : Q)
    (m : M A) (h : exn -> M A) :
  tidy t m -> P t -> (forall a, R a) -> (forall e, calm P R (h e)) ->
  calm P R (try_except m h).
Proof.
  intros Hm Ht HR Hh w. apply after_try. eapply after_weaken; [apply Hm|].
  intros r w1 (Hr & new & Hp & Hall).
  assert (Hall' : Forall (fun e => P (snd e)) new).
  { eapply List.Forall_impl; [|exact Hall]. simpl. now intros e ->. }
  destruct r as [a|e|].
  - split; [eauto|]. eauto.
  - eapply after_weaken; [apply Hh|].
    intros r' w2 H. eapply calm_post_trans; eauto.
  - now destruct Hr.
Qed.

(** Around a calm body an [except] clause is never entered. *)
Lemma calm_try {A} (P : Q -> Prop) (R : A -> Prop) (m : M A) (h : exn -> M A) :
  calm P R m -> calm P R (try_except m h).
Proof.
  intros Hm w. apply after_try. eapply after_weaken; [apply Hm|].
  intros r w1 H. destruct H as ((a & -> & Ha) & Hnew). split; eauto.
Qed.

(** The timeouts one command may be sent with: the one the engine works
    with, and the allotted one of the fallback. *)
Definition timeouts_of (cmd : pystr) (allotted : Q) (x : Q) : Prop :=
  x = effective_timeout (VStr cmd) allotted \/ x = allotted.

(** [run_command] never raises and never breaks the loop: it continues
    with the next command or falls through with the output. *)
Lemma run_command_calm (flag host cmd : pystr) (t : Q) :
  calm (timeouts_of cmd t)
    (fun r => r = inl Continue \/ exists shown, r = inr shown)
    (run_command flag host cmd t).
Proof.
  unfold run_command. apply calm_try.
  eapply calm_bind with (R1 := fun _ => True).
  - eapply calm_rescue.
    + apply tidy_handle_pagination.
    + now left.
    + auto.
    + intros e.
      eapply calm_bind; [apply calm_log|]. intros _ _.
      eapply calm_bind with (R1 := fun _ => True).
      * eapply calm_rescue.
        -- apply tidy_send.
        -- now right.
        -- auto.
        -- intros e2. eapply calm_bind; [apply calm_log|]. intros _ _.
           now apply calm_ret.
      * intros base _. eapply calm_bind; [apply calm_debug|]. intros _ _.
        now apply calm_ret.
  - intros shown _. destruct (unrecognized _).
    + eapply calm_bind; [apply calm_log|]. intros _ _. apply calm_ret. now left.
    + apply calm_ret. right. eauto.
Qed.

(** The probe does not change the session. *)
Lemma channel_closed_pure (w : world) :
  exists b, channel_closed w = (Ok b, w).
Proof.
  unfold channel_closed, try_except, channel_probe, bind, getattr, ret, raise.
  destruct (remote_conn w) as [|[rc|]|e]; simpl; eauto.
  - destruct (closed rc) as [|b|e]; simpl; eauto.
    destruct (is_AttributeError e); simpl; eauto.
  - destruct (is_AttributeError e); simpl; eauto.
Qed.

Lemma channel_closed_same_conn (a b : world) :
  remote_conn a = remote_conn b ->
  fst (channel_closed a) = fst (channel_closed b).
Proof.
  intros H.
  unfold channel_closed, try_except, channel_probe, bind, getattr, ret, raise.
  rewrite H.
  destruct (remote_conn b) as [|[rc|]|e]; simpl; auto.
  - destruct (closed rc) as [|c|e]; simpl; auto.
    destruct (is_AttributeError e); simpl; auto.
  - destruct (is_AttributeError e); simpl; auto.
Qed.

Lemma after_channel_closed (w : world) (post : res bool -> world -> Prop) :
  (forall b, fst (channel_closed w) = Ok b -> post (Ok b) w) ->
  after channel_closed w post.
Proof.
  intros H. destruct (channel_closed_pure w) as [b E].
  unfold after. rewrite E. simpl. apply H. now rewrite E.
Qed.

(** [try: ssh.disconnect()  except Exception: pass] *)
Lemma guarded_disconnect (w : world) :
  exists w',
    try_except ssh_disconnect (fun _ => ret tt) w = (Ok tt, w') /\
    sent w' = sent w /\ cursor w' = cursor w /\
    remote_conn w' = remote_conn w /\ now w' = now w /\
    disconnects w' = S (disconnects w).
Proof.
  unfold try_except, ssh_disconnect, ret.
  destruct (disconnect_result w); eexists; repeat split; reflexivity.
Qed.

Definition remaining_budget (start : Q) (w : world) : Q :=
  INSPECTION_TASK_TIMEOUT - (now w - start).

Definition allotted_timeout (start : Q) (w : world) : Q :=
  Qmin INSPECTION_CMD_TIMEOUT (remaining_budget start w).

(** What one pass through the loop body does, by the way it ends. *)
Definition command_post (start : Q) (cmd0 : pyval) (w : world)
    (r : res flow) (w' : world) : Prop :=
  exists f, r = Ok f /\
    match f with
    | Return =>
        (remaining_budget start w <= 0)%Q /\
        sent w' = sent w /\ cursor w' = cursor w /\
        disconnects w' = S (disconnects w)
    | Break | Continue =>
        (f = Break -> fst (channel_closed w') = Ok true) /\
        exists new,
          played w w' new /\
          Forall (fun e => timeouts_of (_safe_str cmd0) (allotted_timeout start w) (snd e))
            new /\
          (new = [] \/ (0 < remaining_budget start w)%Q)
    end.

Lemma inspect_command_summary (flag host : pystr) (start : Q) (real : pystr)
    (cmd0 : pyval) (w : world) :
  after (inspect_command flag host start real cmd0) w (command_post start cmd0 w).
Proof.
  unfold inspect_command.
  destruct (py_eqb (_strip_or_empty (VStr (_safe_str cmd0))) []).
  { apply after_bind, after_log. intros w1 Hq _. apply after_ret.
    exists Continue. split; [reflexivity|]. split; [discriminate|].
    exists []. repeat apply conj; auto using played_quiet. }
  apply after_bind, after_debug. intros w1 Hq1 _.
  apply after_bind, after_time.
  pose proof (quiet_fields _ _ Hq1) as (Hn1 & Hd1 & Hc1 & Hr1 & Hs1 & Hk1 & Hx1 & Hy1).
  rewrite Hn1. fold (remaining_budget start w).
  destruct (Qle_bool (remaining_budget start w) 0) eqn:Hrem.
  { apply Qle_bool_iff in Hrem.
    apply after_bind, after_log. intros w2 Hq2 _.
    pose proof (quiet_fields _ _ Hq2) as (Hn2 & Hd2 & Hc2 & Hr2 & Hs2 & Hk2 & Hx2 & Hy2).
    destruct (guarded_disconnect w2) as (w3 & E & Hs3 & Hc3 & _ & _ & Hx3).
    apply after_bind. unfold after at 1. rewrite E. cbn [fst snd].
    apply after_ret. exists Return. split; [reflexivity|].
    repeat apply conj; try assumption; congruence. }
  assert (Hpos : (0 < remaining_budget start w)%Q).
  { apply Qnot_le_lt. intros H. apply Qle_bool_iff in H. congruence. }
  apply after_bind, after_channel_closed. intros [|] Hb.
  { apply after_bind, after_log. intros w2 Hq2 _. apply after_ret.
    pose proof (quiet_fields _ _ Hq2) as (_ & _ & _ & Hr2 & _).
    exists Break. split; [reflexivity|]. split.
    - intros _. rewrite <- Hb. apply channel_closed_same_conn. exact Hr2.
    - exists []. repeat apply conj; auto.
      apply played_quiet. eapply quiet_trans; eauto. }
  fold (allotted_timeout start w).
  apply after_bind. eapply after_weaken; [apply run_command_calm|].
  intros r w2 ((x & -> & Hx) & new & Hp & Hall).
  pose proof (quiet_then_played _ _ _ _ Hq1 Hp) as Hp'.
  destruct Hx as [-> | [shown ->]].
  { apply after_ret. exists Continue. split; [reflexivity|].
    split; [discriminate|]. exists new. auto. }
  apply after_bind.
  apply after_weaken with
    (p := fun r w3 => exists leave, r = Ok leave /\ quiet w2 w3 /\
                      (leave = true -> fst (channel_closed w3) = Ok true)).
  { destruct (py_eqb _ (lit "quit")).
    - apply after_bind, after_channel_closed. intros [|] Hb2.
      + apply after_bind, after_log. intros w3 Hq3 _. apply after_ret.
        exists true. repeat apply conj; auto. intros _.
        pose proof (quiet_fields _ _ Hq3) as (_ & _ & _ & Hr3 & _).
        rewrite <- Hb2. now apply channel_closed_same_conn.
      + apply after_bind, after_log. intros w3 Hq3 _. apply after_ret.
        exists false. repeat apply conj; auto. discriminate.
    - apply after_ret. exists false. repeat apply conj; auto using quiet_refl.
      discriminate. }
  intros r w3 (leave & -> & Hq3 & Hleave).
  destruct leave.
  { apply after_ret. exists Break. split; [reflexivity|]. split; [auto|].
    exists new. repeat apply conj; auto. eapply played_then_quiet; eauto. }
  apply after_bind.
  apply after_weaken with (p := fun r w4 => r = Ok tt /\ quiet w3 w4).
  { destruct (py_eqb flag (lit "y")).
    - apply after_log. intros w4 Hq4 _. auto.
    - apply after_ret. auto using quiet_refl. }
  intros r w4 [-> Hq4]. apply after_ret.
  exists Continue. split; [reflexivity|]. split; [discriminate|].
  exists new. repeat apply conj; auto.
  eapply played_then_quiet; [|exact Hq4]. eapply played_then_quiet; eauto.
Qed.

Lemma run_commands_continue (flag host : pystr) (start : Q) (real : pystr)
    (cmd0 : pyval) (rest : list pyval) (w w' : world) (f : flow) :
  inspect_command flag host start real cmd0 w = (Ok f, w') ->
  run_commands flag host start real (cmd0 :: rest) w
  = match f with
    | Continue => run_commands flag host start real rest w'
    | Break => (Ok false, w')
    | Return => (Ok true, w')
    end.
Proof.
  intros E. cbn [run_commands]. unfold bind at 1. rewrite E. now destruct f.
Qed.

(** The loop over the commands always ends normally. *)
Lemma run_commands_returns (flag host : pystr) (start : Q) (real : pystr)
    (cmds : list pyval) :
  forall w, exists b w', run_commands flag host start real cmds w = (Ok b, w').
Proof.
  induction cmds as [|cmd0 rest IH]; intros w.
  - exists false, w. reflexivity.
  - pose proof (inspect_command_summary flag host start real cmd0 w) as H.
    unfold after in H.
    destruct (inspect_command flag host start real cmd0 w) as [r w1] eqn:E.
    simpl in H. destruct H as (f & -> & _).
    rewrite (run_commands_continue _ _ _ _ _ rest _ _ _ E).
    destruct f; eauto.
Qed.


(** A command whose every exchange raises is followed by the next one. *)
Example failing_command_then_next :
  let boom := MkExn (lit "ReadTimeout") (lit "Pattern not detected") false false false in
  let w := session_at 0
             (script [ MkExchange (inl boom) 10 None;
                       MkExchange (inl boom) 10 None;
                       says (lit "uptime is 3 weeks") 1 ]) in
  let r := run_commands (lit "n") (lit "sw1") 0 (lit "<sw1>")
             [VStr (lit "display version"); VStr (lit "display clock")] w in
  fst r = Ok false /\
  List.map fst (sent (snd r))
  = [lit "display version"; lit "display version"; lit "display clock"] /\
  List.map fst (log (snd r)) = [Error; Error].
Proof. vm_compute. auto. Qed.

(** ** The task budget *)

Lemma budget_exhausted_returns (flag host : pystr) (start : Q) (real : pystr)
    (cmd0 : pyval) (w : world) :
  py_eqb (_strip_or_empty (VStr (_safe_str cmd0))) [] = false ->
  (remaining_budget start w <= 0)%Q ->
  exists w',
    inspect_command flag host start real cmd0 w = (Ok Return, w') /\
    sent w' = sent w /\ cursor w' = cursor w /\
    disconnects w' = S (disconnects w).
Proof.
  intros Hne Hrem.
  assert (H : after (inspect_command flag host start real cmd0) w
                (fun r w' => r = Ok Return /\
                   (sent w' = sent w /\ cursor w' = cursor w /\
                    disconnects w' = S (disconnects w)))).
  { unfold inspect_command. rewrite Hne.
    apply after_bind, after_debug. intros w1 Hq1 _.
    apply after_bind, after_time.
    pose proof (quiet_fields _ _ Hq1) as (Hn1 & _ & Hc1 & _ & Hs1 & _ & Hx1 & _).
    rewrite Hn1. fold (remaining_budget start w).
    apply Qle_bool_iff in Hrem. rewrite Hrem.
    apply after_bind, after_log. intros w2 Hq2 _.
    pose proof (quiet_fields _ _ Hq2) as (_ & _ & Hc2 & _ & Hs2 & _ & Hx2 & _).
    destruct (guarded_disconnect w2) as (w3 & E & Hs3 & Hc3 & _ & _ & Hx3).
    apply after_bind. unfold after at 1. rewrite E. cbn [fst snd].
    apply after_ret. repeat apply conj; congruence. }
  apply after_exact in H. exact H.
Qed.

(** C2, as the code has it.  The timeout allotted to a command is
    min(default command timeout, remaining budget), hence within the
    remaining budget; the exchanges of a command outside the
    large-output set are read with it.  For a large-output command the
    engine reads with min(3 x allotted, LONG_TIMEOUT), which stays within
    three times the remaining budget.  With no budget left nothing is
    sent, and a command that is not blank makes the task disconnect and
    leave the loop by [return]. *)
Theorem command_timeouts_and_budget
    (flag host : pystr) (start : Q) (real : pystr) (cmd0 : pyval)
    (rest : list pyval) (w : world) :
  let remaining := remaining_budget start w in
  let allotted := allotted_timeout start w in
  let cmd_clean := _strip_or_empty (VStr (_safe_str cmd0)) in
  let big := py_elem cmd_clean BIG_OUTPUT_CMDS in
  allotted = Qmin INSPECTION_CMD_TIMEOUT remaining /\
  (allotted <= remaining)%Q /\
  exists f w' new,
    inspect_command flag host start real cmd0 w = (Ok f, w') /\
    sent w' = sent w ++ new /\
    (forall text x, In (text, x) new ->
       (0 < remaining)%Q /\
       (x = allotted \/ (big = true /\ x = Qmin (allotted * 3) LONG_TIMEOUT)) /\
       (big = false -> (x <= remaining)%Q) /\
       (x <= 3 * remaining)%Q) /\
    ((remaining <= 0)%Q ->
       new = [] /\ cursor w' = cursor w /\
       (py_eqb cmd_clean [] = false ->
          f = Return /\ disconnects w' = S (disconnects w) /\
          run_commands flag host start real (cmd0 :: rest) w = (Ok true, w'))).
Proof.
  intros remaining allotted cmd_clean big.
  assert (Hle : (allotted <= remaining)%Q) by apply Q.le_min_r.
  split; [reflexivity|]. split; [exact Hle|].
  pose proof (inspect_command_summary flag host start real cmd0 w) as H.
  unfold after in H.
  destruct (inspect_command flag host start real cmd0 w) as [r w'] eqn:E.
  simpl in H. destruct H as (f & -> & Hf).
  assert (Hshape :
    exists new, sent w' = sent w ++ new /\ cursor w' = (cursor w + length new)%nat /\
      Forall (fun e => timeouts_of (_safe_str cmd0) allotted (snd e)) new /\
      (new = [] \/ (0 < remaining)%Q)).
  { destruct f.
    - destruct Hf as (_ & new & Hp & Hall & Hpos). exists new.
      repeat apply conj; auto; apply Hp.
    - destruct Hf as (_ & new & Hp & Hall & Hpos). exists new.
      repeat apply conj; auto; apply Hp.
    - destruct Hf as (_ & Hs & Hc & _). exists [].
      rewrite app_nil_r, Nat.add_0_r. repeat apply conj; auto. }
  destruct Hshape as (new & Hs & Hc & Hall & Hpos).
  exists f, w', new. split; [reflexivity|]. split; [exact Hs|]. split.
  - intros text x Hin.
    destruct Hpos as [-> | Hpos]; [destruct Hin|].
    rewrite List.Forall_forall in Hall. specialize (Hall _ Hin). simpl in Hall.
    unfold timeouts_of, effective_timeout in Hall. cbn [_safe_str] in Hall.
    fold cmd_clean in Hall. fold big in Hall.
    pose proof (Q.le_min_l (allotted * 3) LONG_TIMEOUT) as Hmin.
    split; [exact Hpos|].
    destruct big.
    + destruct Hall as [-> | ->].
      * repeat apply conj; [right; auto | discriminate | lra].
      * repeat apply conj; [left; auto | discriminate | lra].
    + assert (x = allotted) as -> by (destruct Hall; assumption).
      repeat apply conj; [left; auto | auto | lra].
  - intros Hrem.
    assert (Hnew : new = []).
    { destruct Hpos as [? | Hpos]; [assumption | lra]. }
    subst new. rewrite Nat.add_0_r in Hc.
    repeat apply conj; auto.
    intros Hne.
    destruct (budget_exhausted_returns flag host start real cmd0 w Hne Hrem)
      as (w2 & E2 & _ & _ & Hx).
    rewrite E in E2. injection E2 as -> ->.
    repeat apply conj; auto.
    now rewrite (run_commands_continue _ _ _ _ _ rest _ _ _ E).
Qed.

(** C2, as stated, fails for a large-output command: with 5 seconds of
    the budget left the allotted timeout is 5 seconds, and the engine
    reads with 15. *)
Lemma enlarged_timeout_exceeds_remaining_budget :
  let w := session_at 595 (script [ says (lit "GigabitEthernet1/0/1 current state: UP") 1 ]) in
  let r := inspect_command (lit "n") (lit "sw1") 0 (lit "<sw1>")
             (VStr (lit "display interface")) w in
  (remaining_budget 0 w == 5)%Q /\
  (allotted_timeout 0 w == 5)%Q /\
  fst r = Ok Continue /\
  exists x, sent (snd r) = [(lit "display interface", x)] /\
            (x == 15)%Q /\ ~ (x <= remaining_budget 0 w)%Q.
Proof.
  split; [vm_compute; reflexivity|].
  split; [vm_compute; reflexivity|].
  split; [vm_compute; reflexivity|].
  eexists. split; [vm_compute; reflexivity|].
  split; [vm_compute; reflexivity|].
  vm_compute. intros H. now apply H.
Qed.

(** ** What the task as a whole can raise *)

Lemma quiet_prompt (w w' : world) :
  quiet w w' -> prompt_result w' = prompt_result w.
Proof. unfold quiet, mute. intros H. injection H. auto. Qed.

Lemma after_attempt {A} (m : M A) (w : world)
    (post : res (exn + A) -> world -> Prop) :
  after m w (fun r w' =>
    match r with
    | Ok a => post (Ok (inr a)) w'
    | Raise e => post (Ok (inl e)) w'
    | OutOfFuel => post OutOfFuel w'
    end) ->
  after (attempt m) w post.
Proof.
  unfold after, attempt. destruct (m w) as [[a|e|] w']; simpl; auto.
Qed.

Lemma after_finally {A} (body : M A) (cleanup : M unit) (w : world)
    (post : res A -> world -> Prop) :
  after body w (fun r w' =>
    match r with
    | OutOfFuel => post OutOfFuel w'
    | _ =>
        after cleanup w' (fun c w'' =>
          match c with
          | Ok _ => post r w''
          | Raise e => post (Raise e) w''
          | OutOfFuel => post OutOfFuel w''
          end)
    end) ->
  after (with_finally body cleanup) w post.
Proof.
  unfold after, with_finally.
  destruct (body w) as [[a|e|] w']; simpl; auto;
    destruct (cleanup w') as [[u|e'|] w'']; simpl; auto.
Qed.

(** The [finally] block never raises. *)
Lemma release_returns (flag host : pystr) (start : Q) (bound : bool) (w : world) :
  exists w', release flag host start bound w = (Ok tt, w').
Proof.
  unfold release, try_except, bind, debug, ssh_disconnect, log_message,
    time_time, ret.
  destruct bound; simpl;
    repeat match goal with
           | |- context [if ?c then _ else _] => destruct c; simpl
           | |- context [match disconnect_result ?w with _ => _ end] =>
               destruct (disconnect_result w); simpl
           end; eauto.
Qed.

Lemma open_session_static (login_info : gmap pystr pyval) (flag host : pystr)
    (w : world) :
  after (open_session login_info flag host) w
    (fun r w' => r <> OutOfFuel /\ prompt_result w' = prompt_result w).
Proof.
  unfold open_session, item.
  destruct (login_info !! lit "conn_timeout").
  - apply after_bind, after_ret.
    apply after_bind, after_log. intros w1 Hq1 _.
    apply after_bind, after_debug. intros w2 Hq2 _.
    unfold after, ConnectHandler.
    rewrite <- (quiet_prompt _ _ Hq1), <- (quiet_prompt _ _ Hq2).
    destruct (connect_result w2); simpl; split; try discriminate; reflexivity.
  - apply after_bind, after_raise. split; [discriminate | reflexivity].
Qed.

(** The [else] block raises only what [find_prompt] raises, or the
    missing [device_type] key. *)
Lemma inspect_connected_raises (login_info : gmap pystr pyval)
    (cmds_dict : gmap pystr (list pyval)) (flag host : pystr) (start : Q)
    (w : world) :
  after (inspect_connected login_info cmds_dict flag host start) w
    (fun r _ =>
       match r with
       | Ok _ => True
       | Raise e => e = KeyError (lit "device_type") \/ prompt_result w = inl e
       | OutOfFuel => False
       end).
Proof.
  unfold inspect_connected. apply after_bind.
  unfold after at 1, find_prompt.
  destruct (prompt_result w) as [e|prompt]; simpl; [now right|].
  apply after_bind, after_log. intros w1 Hq1 _.
  apply after_bind. unfold item.
  destruct (login_info !! lit "device_type") as [device_type|].
  2:{ apply after_raise. now left. }
  apply after_ret.
  destruct (match device_type with VStr k => cmds_dict !! k | _ => None end)
    as [[|c cmds]|].
  - apply after_log. auto.
  - apply after_bind. unfold after at 1.
    destruct (run_commands_returns flag host start (py_strip prompt) (c :: cmds) w1)
      as (b & w2 & E).
    rewrite E. simpl. apply after_ret. exact I.
  - apply after_log. auto.
Qed.

(** At the level of the whole task: [inspection] always ends, and the
    only exceptions that reach its caller are raised outside the command
    loop: by [find_prompt], or by a device record without its [host] or
    [device_type] key. *)
Lemma inspection_raises_outside_commands (login_info : gmap pystr pyval)
    (cmds_dict : gmap pystr (list pyval)) (flag : pystr) (w : world) :
  match fst (inspection login_info cmds_dict flag w) with
  | Ok _ => True
  | Raise e =>
      e = KeyError (lit "host") \/ e = KeyError (lit "device_type")
      \/ prompt_result w = inl e
  | OutOfFuel => False
  end.
Proof.
  change (after (inspection login_info cmds_dict flag) w
            (fun r _ =>
               match r with
               | Ok _ => True
               | Raise e =>
                   e = KeyError (lit "host") \/ e = KeyError (lit "device_type")
                   \/ prompt_result w = inl e
               | OutOfFuel => False
               end)).
  unfold inspection. apply after_bind, after_time.
  destruct (login_info !! lit "host") as [h|].
  2:{ apply after_raise. now left. }
  unfold inspection_body.
  apply after_bind, after_attempt.
  eapply after_weaken; [apply open_session_static|].
  intros r w1 [Hr Hp1].
  assert (Hrel : forall bound w0,
             after (release flag (py_str h) (now w) bound) w0
               (fun c _ => c = Ok tt)).
  { intros bound w0. destruct (release_returns flag (py_str h) (now w) bound w0)
      as [w' E]. unfold after. now rewrite E. }
  destruct r as [u|e|]; [| |now destruct Hr].
  - apply after_bind, after_attempt.
    apply after_weaken with
      (p := fun r w2 => r <> OutOfFuel /\ prompt_result w2 = prompt_result w1).
    { destruct (secret_set login_info).
      - unfold after, ssh_enable.
        destruct (enable_result w1); simpl; split; try discriminate; reflexivity.
      - apply after_ret. split; [discriminate | reflexivity]. }
    intros r w2 [Hr2 Hp2].
    destruct r as [u2|e|]; [| |now destruct Hr2].
    + apply after_finally.
      eapply after_weaken; [apply inspect_connected_raises|].
      intros r w3 H3.
      destruct r as [u3|e|]; [| |destruct H3].
      * eapply after_weaken; [apply Hrel|]. now intros c w4 ->.
      * eapply after_weaken; [apply Hrel|]. intros c w4 ->.
        right. rewrite Hp2, Hp1 in H3. exact H3.
    + apply after_bind, after_log. intros w3 _ _.
      eapply after_weaken; [apply Hrel|]. now intros c w4 ->.
  - apply after_bind, after_log. intros w3 _ _.
    eapply after_weaken; [apply Hrel|]. now intros c w4 ->.
Qed.

(* ================================================================== *)
(** * Further properties of the code *)
(* ================================================================== *)

(** ** The cleaning helpers *)

Lemma lstrip_split (s : pystr) :
  exists pre, s = pre ++ py_lstrip s /\ is_blank pre = true.
Proof.
  induction s as [|c s (pre & E & Hpre)].
  - exists []. auto.
  - simpl. destruct (py_isspace c) eqn:Hc.
    + exists (c :: pre). simpl. rewrite Hc, Hpre. split; [now f_equal | reflexivity].
    + exists []. auto.
Qed.

Lemma lstrip_head (s : pystr) :
  match py_lstrip s with [] => True | c :: _ => py_isspace c = false end.
Proof.
  induction s as [|c s IH]; [exact I|].
  simpl. destruct (py_isspace c) eqn:Hc; [exact IH | exact Hc].
Qed.

Lemma lstrip_fixed (s : pystr) :
  match s with [] => True | c :: _ => py_isspace c = false end ->
  py_lstrip s = s.
Proof. destruct s as [|c s]; [reflexivity|]. simpl. now intros ->. Qed.

Lemma rstrip_split (s : pystr) :
  exists suf, s = py_rstrip s ++ suf /\ is_blank suf = true.
Proof.
  destruct (lstrip_split (rev s)) as (pre & E & Hpre).
  exists (rev pre). split; [|now rewrite is_blank_rev].
  unfold py_rstrip. rewrite <- rev_app_distr, <- E. now rewrite rev_involutive.
Qed.

Lemma strip_split (s : pystr) :
  exists a b, s = a ++ py_strip s ++ b /\ is_blank a = true /\ is_blank b = true.
Proof.
  destruct (lstrip_split s) as (a & Ea & Ha).
  destruct (rstrip_split (py_lstrip s)) as (b & Eb & Hb).
  exists a, b. unfold py_strip. rewrite <- Eb. auto.
Qed.

(** What [strip] returns neither starts nor ends with whitespace. *)
Lemma strip_ends (s : pystr) :
  match py_strip s with [] => True | c :: _ => py_isspace c = false end /\
  match rev (py_strip s) with [] => True | c :: _ => py_isspace c = false end.
Proof.
  split.
  - destruct (rstrip_split (py_lstrip s)) as (b & Eb & Hb).
    pose proof (lstrip_head s) as Hh. fold (py_strip s) in Eb.
    destruct (py_strip s) as [|c r]; [exact I|].
    rewrite Eb in Hh. exact Hh.
  - unfold py_strip, py_rstrip. rewrite rev_involutive. apply lstrip_head.
Qed.

Lemma strip_fixed (s : pystr) :
  match s with [] => True | c :: _ => py_isspace c = false end ->
  match rev s with [] => True | c :: _ => py_isspace c = false end ->
  py_strip s = s.
Proof.
  intros Hh Hl. unfold py_strip, py_rstrip.
  rewrite (lstrip_fixed s Hh), (lstrip_fixed (rev s) Hl). apply rev_involutive.
Qed.

Lemma strip_idempotent (s : pystr) : py_strip (py_strip s) = py_strip s.
Proof. destruct (strip_ends s). now apply strip_fixed. Qed.

Lemma strip_keeps (s : pystr) (c : N) : In c (py_strip s) -> In c s.
Proof.
  destruct (strip_split s) as (a & b & E & _). intros H.
  rewrite E. apply in_or_app. right. apply in_or_app. now left.
Qed.

Definition is_control (c : N) : bool := ((c =? 13) || (c =? 10) || (c =? 9))%N.

Lemma strip_controls_fixed (s : pystr) :
  forallb (fun c => negb (is_control c)) s = true -> strip_controls s = s.
Proof.
  induction s as [|c s IH]; [reflexivity|].
  simpl. intros H. apply andb_prop in H as [Hc Hs].
  unfold is_control in Hc. rewrite Hc. now rewrite IH.
Qed.

Lemma strip_controls_none (s : pystr) :
  forallb (fun c => negb (is_control c)) (strip_controls s) = true.
Proof.
  apply forallb_forall. intros c H. unfold strip_controls in H.
  now apply filter_In in H as [_ H].
Qed.

Lemma strip_or_empty_clean_parts (x : pyval) :
  py_strip (_strip_or_empty x) = _strip_or_empty x /\
  strip_controls (_strip_or_empty x) = _strip_or_empty x.
Proof.
  destruct x as [|r|t|r b]; try (split; reflexivity). cbn [_strip_or_empty]. split.
  - apply strip_idempotent.
  - apply strip_controls_fixed, forallb_forall. intros c H. apply strip_keeps in H.
    pose proof (strip_controls_none (py_remove (lit "_x000d_") t)) as Hn.
    rewrite forallb_forall in Hn. now apply Hn.
Qed.

(** X1. The result of [_strip_or_empty] is clean: it holds no carriage
    return, line feed or tab, it neither starts nor ends with whitespace,
    and cleaning it once more by the last two steps changes nothing; for
    a value that is not a string it is empty. *)
Theorem strip_or_empty_is_clean (x : pyval) :
  let s := _strip_or_empty x in
  forallb (fun c => negb (is_control c)) s = true /\
  match s with [] => True | c :: _ => py_isspace c = false end /\
  match rev s with [] => True | c :: _ => py_isspace c = false end /\
  py_strip s = s /\
  strip_controls s = s /\
  ((forall t, x <> VStr t) -> s = []).
Proof.
  intros s.
  assert (Hctl : forallb (fun c => negb (is_control c)) s = true).
  { subst s. destruct x as [|r|t|r b]; try reflexivity. cbn [_strip_or_empty].
    apply forallb_forall. intros c H. apply strip_keeps in H.
    pose proof (strip_controls_none (py_remove (lit "_x000d_") t)) as Hn.
    rewrite forallb_forall in Hn. now apply Hn. }
  assert (Hends :
    match s with [] => True | c :: _ => py_isspace c = false end /\
    match rev s with [] => True | c :: _ => py_isspace c = false end).
  { subst s. destruct x as [|r|t|r b]; try (split; exact I). apply strip_ends. }
  destruct Hends as [Hh Hl].
  repeat apply conj; try assumption.
  - now apply strip_fixed.
  - now apply strip_controls_fixed.
  - intros Hx. subst s. destruct x as [|r|t|r b]; try reflexivity.
    now destruct (Hx t).
Qed.

Lemma remove_go_sublist (pat s : pystr) (k : nat) :
  sublist (py_remove_go pat s k) s.
Proof.
  revert k. induction s as [|c s IH]; intros k; [constructor|].
  cbn [py_remove_go]. destruct k.
  - destruct (py_startswith (c :: s) pat).
    + apply sublist_cons, IH.
    + apply sublist_skip, IH.
  - apply sublist_cons, IH.
Qed.

Lemma strip_controls_sublist (s : pystr) : sublist (strip_controls s) s.
Proof.
  induction s as [|c s IH]; [constructor|].
  unfold strip_controls in *. simpl. destruct (negb _).
  - now apply sublist_skip.
  - now apply sublist_cons.
Qed.

Lemma strip_sublist (s : pystr) : sublist (py_strip s) s.
Proof.
  destruct (strip_split s) as (a & b & E & _).
  rewrite E at 2. apply sublist_inserts_l, sublist_inserts_r. reflexivity.
Qed.

(** X2. [_strip_or_empty] only deletes: its result is the input with some
    characters left out, in the same order, so it is never longer and
    holds no character the input did not have. *)
Theorem strip_or_empty_only_deletes (t : pystr) :
  sublist (_strip_or_empty (VStr t)) t /\
  (length (_strip_or_empty (VStr t)) <= length t)%nat /\
  (forall c, In c (_strip_or_empty (VStr t)) -> In c t).
Proof.
  assert (H : sublist (_strip_or_empty (VStr t)) t).
  { cbn [_strip_or_empty].
    etransitivity; [apply strip_sublist|].
    etransitivity; [apply strip_controls_sublist|].
    apply remove_go_sublist. }
  split; [exact H|]. split.
  - now apply sublist_length.
  - intros c Hc. apply list_elem_of_In. apply list_elem_of_In in Hc.
    eapply elem_of_sublist; eauto.
Qed.

(** X3. [_clean_list_to_str] returns no empty string: every element is a
    cleaned, non-empty string that comes from an element of the
    argument, in the same order; values that clean to nothing ([None],
    NaN, blank text) are left out. *)
Theorem clean_list_has_no_empty (seq : pyarg) :
  let items := match seq with ASeq items => items | AOne v => [v] end in
  let out := _clean_list_to_str seq in
  (forall sv, In sv out ->
     sv <> [] /\ py_strip sv = sv /\ strip_controls sv = sv /\
     exists v, In v items /\ sv = _strip_or_empty (VStr (_safe_str v))) /\
  sublist out (List.map (fun v => _strip_or_empty (VStr (_safe_str v))) items) /\
  (length out <= length items)%nat /\
  (forallb (fun v => is_blank (_safe_str v)) items = true -> out = []).
Proof.
  intros items out. subst out. unfold _clean_list_to_str. fold items.
  set (clean := fun v => _strip_or_empty (VStr (_safe_str v))).
  assert (Hsub : forall l : list pystr,
             sublist (List.filter (fun sv => negb (py_eqb sv [])) l) l).
  { induction l as [|a l IH]; [constructor|]. simpl. destruct (negb _).
    - now apply sublist_skip.
    - now apply sublist_cons. }
  repeat apply conj.
  - intros sv H. apply filter_In in H as [Hin Hne].
    apply negb_true_iff, py_eqb_false in Hne.
    apply in_map_iff in Hin as (v & <- & Hv).
    destruct (strip_or_empty_clean_parts (VStr (_safe_str v))) as (Hs & Hc).
    repeat apply conj; auto. eauto.
  - apply Hsub.
  - rewrite <- (length_map clean items). apply sublist_length, Hsub.
  - intros Hb. induction items as [|v items IH]; [reflexivity|].
    simpl in Hb. apply andb_prop in Hb as [Hv Hrest].
    simpl. unfold clean at 1. rewrite (strip_or_empty_blank _ Hv). simpl.
    now apply IH.
Qed.

(** ** What the engine writes, and when it raises *)

Lemma startswith_app_l (a b p : pystr) :
  py_startswith a p = true -> py_startswith (a ++ b) p = true.
Proof.
  revert p. induction a as [|c a IH]; intros p H.
  - destruct p; [apply startswith_nil | discriminate].
  - destruct p as [|x p]; [reflexivity|]. simpl in *.
    apply andb_prop in H as [-> H]. simpl. now apply IH.
Qed.

Lemma in_app_l (p a b : pystr) : py_in p a = true -> py_in p (a ++ b) = true.
Proof.
  induction a as [|c a IH]; intros H.
  - rewrite py_in_nil in H. apply py_eqb_true in H. subst p.
    destruct b; reflexivity.
  - rewrite py_in_cons in H. rewrite <- app_comm_cons, py_in_cons.
    apply orb_prop in H as [H|H].
    + rewrite app_comm_cons, (startswith_app_l _ _ _ H). reflexivity.
    + rewrite (IH H). apply orb_true_r.
Qed.

(** A marker that was seen stays in the accumulated output. *)
Lemma marker_found_app (s more : pystr) :
  marker_found s = true -> marker_found (s ++ more) = true.
Proof.
  unfold marker_found. intros H. apply existsb_exists in H as (x & Hin & Hx).
  apply existsb_exists. exists x. split; [exact Hin|].
  unfold marker_in in *. cbv zeta in *.
  apply andb_prop in Hx as [Hne Hx]. rewrite Hne. cbn [andb].
  rewrite lower_app.
  apply orb_prop in Hx as [Hx|Hx]; rewrite (in_app_l _ _ _ Hx);
    [reflexivity | apply orb_true_r].
Qed.

Lemma marker_found_none (s : pystr) :
  marker_found s = false -> List.find (marker_in s) PAGINATION_PATTERNS = None.
Proof.
  unfold marker_found. intros H.
  destruct (List.find _ _) eqn:E; [|reflexivity].
  apply find_some in E as [Hin Hm].
  assert (existsb (marker_in s) PAGINATION_PATTERNS = true)
    by (apply existsb_exists; eauto).
  congruence.
Qed.

(** Every exchange from the cursor on returns text. *)
Definition honest (w : world) : Prop :=
  forall n, (cursor w <= n)%nat -> exists out, reply (device w n) = inr out.

Definition is_ok {A} (r : res A) : Prop :=
  match r with Ok _ => True | _ => False end.

Lemma honest_played (w w' : world) (new : list (pystr * Q)) :
  played w w' new -> honest w -> honest w'.
Proof.
  intros Hp H n Hn. rewrite (played_device _ _ _ Hp). apply H.
  rewrite (played_cursor _ _ _ Hp) in Hn. lia.
Qed.

Lemma honest_next (w : world) : honest w -> is_ok (next_reply w).
Proof.
  intros H. destruct (H (cursor w) (Nat.le_refl _)) as [out E].
  unfold next_reply. now rewrite E.
Qed.

(** [m] plays only exchanges in [P], and raises only if one of them
    does. *)
Definition orderly_post {A} (P : pystr * Q -> Prop) (w : world) (r : res A)
    (w' : world) : Prop :=
  r = OutOfFuel \/
  ((honest w -> is_ok r) /\
   exists new, played w w' new /\ Forall P new).

Definition orderly {A} (P : pystr * Q -> Prop) (m : M A) : Prop :=
  forall w, after m w (orderly_post P w).

Lemma orderly_post_quiet {A} (P : pystr * Q -> Prop) (w w' : world) (a : A) :
  quiet w w' -> orderly_post P w (Ok a) w'.
Proof.
  intros Hq. right. split; [intros _; exact I|].
  exists []. split; [now apply played_quiet | constructor].
Qed.

Lemma orderly_post_trans {A} (P : pystr * Q -> Prop) (a b c : world)
    (new : list (pystr * Q)) (r : res A) :
  played a b new -> Forall P new ->
  orderly_post P b r c -> orderly_post P a r c.
Proof.
  intros Hp Hall [-> | (Hr & new' & Hp' & Hall')]; [now left|]. right. split.
  - intros Ha. apply Hr. eapply honest_played; eauto.
  - exists (new ++ new'). split; [eapply played_trans; eauto|].
    apply Forall_app; auto.
Qed.

Lemma orderly_ret {A} (P : pystr * Q -> Prop) (a : A) : orderly P (ret a).
Proof. intros w. apply after_ret, orderly_post_quiet, quiet_refl. Qed.

Lemma orderly_bind {A B} (P : pystr * Q -> Prop) (m : M A) (k : A -> M B) :
  orderly P m -> (forall a, orderly P (k a)) -> orderly P (bind m k).
Proof.
  intros Hm Hk w. apply after_bind. eapply after_weaken; [apply Hm|].
  intros r w1 [-> | (Hr & new & Hp & Hall)]; [now left|].
  destruct r as [a|e|].
  - eapply after_weaken; [apply Hk|].
    intros r' w2 H. eapply orderly_post_trans; eauto.
  - right. split; [exact Hr | eauto].
  - now left.
Qed.

Lemma orderly_log (P : pystr * Q -> Prop) (lvl : level) (ev : event) :
  orderly P (log_message lvl ev).
Proof. intros w. apply after_log. intros w' Hq _. now apply orderly_post_quiet. Qed.

Lemma orderly_debug (P : pystr * Q -> Prop) (flag : pystr) (ev : event) :
  orderly P (debug flag ev).
Proof. intros w. apply after_debug. intros w' Hq _. now apply orderly_post_quiet. Qed.

Lemma orderly_time (P : pystr * Q -> Prop) : orderly P time_time.
Proof. intros w. apply after_time, orderly_post_quiet, quiet_refl. Qed.

Lemma orderly_send (P : pystr * Q -> Prop) (text : pystr) (t : Q) :
  P (text, t) -> orderly P (send_command_timing text t).
Proof.
  intros HP w. apply after_send. intros w' Hp. right. split.
  - apply honest_next.
  - exists [(text, t)]. split; [exact Hp | repeat constructor; exact HP].
Qed.

Lemma keystroke_cases (pattern : pystr) :
  keystroke pattern = lit " " \/ keystroke pattern = [10%N].
Proof. unfold keystroke. destruct (py_elem _ _); auto. Qed.

Lemma orderly_scan (P : pystr * Q -> Prop) (cmd s_show shown : pystr) (pc : Z)
    (t : Q) (flag : pystr) :
  P (lit " ", t) -> P ([10%N], t) ->
  orderly P (scan_patterns PAGINATION_PATTERNS cmd s_show shown pc t flag).
Proof.
  intros Hs He w. apply after_scan; [exact patterns_answered|].
  destruct (List.find _ _) as [pattern|].
  - intros w' Hp. right. split.
    + intros Hh. pose proof (honest_next w Hh). now destruct (next_reply w).
    + exists [(keystroke pattern, t)]. split; [exact Hp|].
      repeat constructor. now destruct (keystroke_cases pattern) as [-> | ->].
  - intros w' Hq. now apply orderly_post_quiet.
Qed.

Lemma orderly_loop (P : pystr * Q -> Prop) (cmd cmd_clean : pystr) (t : Q)
    (max_page : Z) (flag : pystr) (T0 : Q) :
  P (lit " ", t) -> P ([10%N], t) ->
  forall fuel st entries,
    orderly P (paging_loop fuel cmd cmd_clean t max_page flag T0 st entries).
Proof.
  intros Hs He. induction fuel as [|fuel IH]; intros st entries.
  - intros w. now left.
  - cbn [paging_loop].
    destruct (unrecognized _).
    { apply orderly_bind; [apply orderly_debug|]. intros _. apply orderly_ret. }
    apply orderly_bind; [apply orderly_debug|]. intros _.
    destruct (Z.geb _ _); [apply orderly_ret|].
    apply orderly_bind; [apply orderly_time|]. intros now_.
    destruct (Qgtb _ _); [apply orderly_ret|].
    apply orderly_bind; [now apply orderly_scan|]. intros scanned.
    destruct (negb (fst scanned) || _); [apply orderly_ret | apply IH].
Qed.

Lemma orderly_standard (P : pystr * Q -> Prop) (cmd cmd_clean : pystr) (t : Q)
    (max_page : Z) (flag : pystr) :
  P (cmd, t) -> P (lit " ", t) -> P ([10%N], t) ->
  orderly P (standard_paging cmd cmd_clean t max_page flag).
Proof.
  intros Hc Hs He. unfold standard_paging.
  apply orderly_bind; [now apply orderly_send|]. intros shown.
  destruct (unrecognized _); [apply orderly_ret|].
  apply orderly_bind; [apply orderly_time|]. intros T0.
  now apply orderly_loop.
Qed.

Lemma orderly_alternatives (P : pystr * Q -> Prop) (cmd cmd_clean : pystr)
    (t : Q) (flag : pystr) (alts : list pystr) :
  (forall alt, In alt alts -> P (alt, t)) ->
  orderly P (try_alternatives alts cmd cmd_clean t flag).
Proof.
  induction alts as [|alt rest IH]; intros HP; cbn [try_alternatives].
  - apply orderly_ret.
  - assert (Hrest : orderly P (try_alternatives rest cmd cmd_clean t flag)).
    { apply IH. intros a Ha. apply HP. now right. }
    destruct (negb _); [|exact Hrest].
    apply orderly_bind; [apply orderly_debug|]. intros _.
    apply orderly_bind; [apply orderly_send, HP; now left|]. intros alt_show.
    destruct (negb _); [|exact Hrest].
    apply orderly_bind; [apply orderly_debug|]. intros _. apply orderly_ret.
Qed.

Lemma orderly_no_output (P : pystr * Q -> Prop) (cmd cmd_clean : pystr) (t : Q)
    (flag : pystr) :
  P (cmd, t) -> (forall alt, In alt alternative_cmds -> P (alt, t)) ->
  orderly P (no_output_command cmd cmd_clean t flag).
Proof.
  intros Hc Ha. unfold no_output_command.
  apply orderly_bind; [apply orderly_debug|]. intros _.
  apply orderly_bind; [now apply orderly_send|]. intros shown.
  apply orderly_bind.
  { destruct (_ && _); [now apply orderly_alternatives | apply orderly_ret]. }
  intros [status|]; [apply orderly_ret|].
  repeat match goal with
         | |- orderly _ (if ?c then _ else _) => destruct c
         | |- orderly _ (bind _ _) => apply orderly_bind; [apply orderly_debug | intros _]
         | |- orderly _ (ret _) => apply orderly_ret
         end.
Qed.

(** The texts and read timeout of the exchanges of one call. *)
Definition engine_exchange (cmd : pyval) (t : Q) (e : pystr * Q) : Prop :=
  snd e = effective_timeout cmd t /\
  (fst e = _safe_str cmd \/
   (if py_elem (_strip_or_empty (VStr (_safe_str cmd))) NO_OUTPUT_CMDS
    then In (fst e) alternative_cmds
    else fst e = lit " " \/ fst e = [10%N])).

Lemma orderly_handle_pagination (cmd : pyval) (t : Q) (max_page : Z) (flag : pystr) :
  orderly (engine_exchange cmd t) (handle_pagination cmd t max_page flag).
Proof.
  unfold handle_pagination, engine_exchange, effective_timeout.
  destruct (py_eqb _ []); [apply orderly_ret|].
  destruct (py_elem _ NO_OUTPUT_CMDS) eqn:Hno.
  - assert (Hbig : py_elem (_strip_or_empty (VStr (_safe_str cmd))) BIG_OUTPUT_CMDS = false).
    { destruct (py_elem _ BIG_OUTPUT_CMDS) eqn:Hb; [|reflexivity].
      apply big_not_no_output in Hb as [_ Hb]. congruence. }
    rewrite Hbig. apply orderly_no_output; simpl; auto.
  - destruct (py_elem _ BIG_OUTPUT_CMDS).
    + apply orderly_bind; [apply orderly_debug|]. intros _.
      apply orderly_bind; [apply orderly_debug|]. intros _.
      apply orderly_bind; [apply orderly_standard; simpl; auto|].
      intros r. apply orderly_ret.
    + apply orderly_bind; [apply orderly_ret|]. intros _.
      apply orderly_bind; [apply orderly_ret|]. intros _.
      apply orderly_bind; [apply orderly_standard; simpl; auto|].
      intros r. apply orderly_ret.
Qed.

(** X4. Whatever the device does, one call of [handle_pagination] writes
    nothing but the command itself and, for a no-output command, the
    alternative disable-paging spellings, or else the continuation
    keystrokes space and newline; and it reads every reply with the same
    timeout: the one it was given, or min(3 x it, LONG_TIMEOUT) for a
    large-output command. *)
Theorem engine_writes_only_command_and_keystrokes
    (cmd : pyval) (t : Q) (max_page : Z) (flag : pystr) (w : world) :
  let w' := snd (handle_pagination cmd t max_page flag w) in
  exists new,
    sent w' = sent w ++ new /\
    cursor w' = (cursor w + length new)%nat /\
    disconnects w' = disconnects w /\
    Forall (engine_exchange cmd t) new.
Proof.
  intros w'.
  pose proof (orderly_handle_pagination cmd t max_page flag w) as H.
  pose proof (handle_pagination_ends cmd t max_page flag w) as Hends.
  unfold after in H. destruct H as [H | (_ & new & Hp & Hall)]; [contradiction|].
  exists new. repeat apply conj; try apply Hp. exact Hall.
Qed.

(** X5. [handle_pagination] raises only what [send_command_timing] raises: in
    front of a device all of whose exchanges return text, it returns
    text. *)
Theorem engine_raises_only_with_session
    (cmd : pyval) (t : Q) (max_page : Z) (flag : pystr) (w : world) :
  (forall n, (cursor w <= n)%nat -> exists out, reply (device w n) = inr out) ->
  exists out w', handle_pagination cmd t max_page flag w = (Ok out, w').
Proof.
  intros Hh.
  pose proof (orderly_handle_pagination cmd t max_page flag w) as H.
  pose proof (handle_pagination_ends cmd t max_page flag w) as Hends.
  unfold after in H.
  destruct (handle_pagination cmd t max_page flag w) as [r w'].
  simpl in H, Hends. destruct H as [-> | (Hr & _)]; [contradiction|].
  specialize (Hr Hh). destruct r as [out| |]; try contradiction. eauto.
Qed.

Lemma engine_raises_only_with_session_witness :
  exists out w',
    handle_pagination (VStr (lit "display version")) 10 DEFAULT_MAX_PAGE (lit "n")
      (session_at 0 (script [ says (lit "H3C Comware") 1 ]))
    = (Ok out, w').
Proof.
  apply engine_raises_only_with_session.
  intros n _. unfold session_at, script, says. cbn [device].
  destruct n as [|[|n]]; cbn [nth reply]; eauto.
Defined.

(** ** What the engine returns for a paged command *)

(** The text received by [n] exchanges, from exchange [c] on. *)
Fixpoint received (dev : nat -> exchange) (c n : nat) : pystr :=
  match n with
  | O => []
  | S n' =>
      match reply (dev c) with inr out => out | inl _ => [] end
      ++ received dev (S c) n'
  end.

Lemma received_add (dev : nat -> exchange) (n m c : nat) :
  received dev c (n + m) = received dev c n ++ received dev (c + n) m.
Proof.
  revert c. induction n as [|n IH]; intros c; simpl.
  - now rewrite Nat.add_0_r.
  - now rewrite IH, app_assoc, Nat.add_succ_r.
Qed.

Lemma received_one (w : world) (more : pystr) :
  next_reply w = Ok more -> received (device w) (cursor w) 1 = more.
Proof.
  unfold next_reply. simpl. destruct (reply _); [discriminate|].
  intros [= ->]. apply app_nil_r.
Qed.

(** The page ceiling [handle_pagination] works with. *)
Definition page_ceiling (cmd : pyval) (max_page : Z) : Z :=
  if py_elem (_strip_or_empty (VStr (_safe_str cmd))) BIG_OUTPUT_CMDS
  then Z.max max_page BIG_OUTPUT_MAX_PAGE else max_page.

(** Neither blank nor a no-output command: the command goes through
    standard paging. *)
Definition paged (cmd : pyval) : bool :=
  let cmd_clean := _strip_or_empty (VStr (_safe_str cmd)) in
  negb (py_eqb cmd_clean []) && negb (py_elem cmd_clean NO_OUTPUT_CMDS).

Definition no_warning (tail : pystr) : Prop :=
  tail = [] \/ tail = DEADLOCK_WARNING \/ tail = TIMEOUT_WARNING.

Definition output_post (max_page : Z) (st : PageState) (w : world)
    (r : res (pystr * nat)) (w' : world) : Prop :=
  forall out n, r = Ok (out, n) ->
    exists new tail,
      played w w' new /\
      out = show st ++ received (device w) (cursor w) (length new) ++ tail /\
      no_warning tail /\
      (marker_found (show st) = true -> tail = [] ->
       unrecognized out = true \/
       (max_page < page_count st + Z.of_nat (length new))%Z).

Lemma paging_loop_output (cmd cmd_clean : pystr) (t : Q) (max_page : Z)
    (flag : pystr) (T0 : Q) :
  forall fuel st entries w,
    after (paging_loop fuel cmd cmd_clean t max_page flag T0 st entries) w
      (output_post max_page st w).
Proof.
  induction fuel as [|fuel IH]; intros st entries w.
  - unfold after. simpl. intros out n E. discriminate E.
  - cbn [paging_loop _safe_str].
    destruct (unrecognized (show st)) eqn:Hu.
    { apply after_bind, after_debug. intros w1 Hq _. apply after_ret.
      intros out n E. injection E as <- <-. exists [], []. repeat apply conj.
      - now apply played_quiet.
      - simpl. now rewrite app_nil_r.
      - now left.
      - intros _ _. now left. }
    apply after_bind, after_debug. intros w1 Hq1 _.
    destruct (Z.geb _ _).
    { apply after_ret.
      intros out n E. injection E as <- <-. exists [], DEADLOCK_WARNING.
      repeat apply conj.
      - now apply played_quiet.
      - cbn [length received app]. reflexivity.
      - right. left. reflexivity.
      - intros _ Ht. vm_compute in Ht. discriminate Ht. }
    apply after_bind, after_time.
    destruct (Qgtb _ _).
    { apply after_ret.
      intros out n E. injection E as <- <-. exists [], TIMEOUT_WARNING.
      repeat apply conj.
      - now apply played_quiet.
      - cbn [length received app]. reflexivity.
      - right. right. reflexivity.
      - intros _ Ht. vm_compute in Ht. discriminate Ht. }
    apply after_bind, after_scan; [exact patterns_answered|].
    destruct (List.find _ _) as [pattern|] eqn:Hfind.
    + intros w2 Hp2.
      pose proof (quiet_then_played _ _ _ _ Hq1 Hp2) as Hp.
      pose proof (next_reply_quiet _ _ Hq1) as Hnr.
      destruct (next_reply w1) as [more|e|]; cbn [fst snd negb orb];
        [| intros out n E; discriminate E | intros out n E; discriminate E].
      symmetry in Hnr. apply received_one in Hnr.
      destruct (Z.gtb_spec (page_count st + 1) max_page) as [Hgt|Hle].
      * apply after_ret.
        intros out n E. injection E as <- <-.
        exists [(keystroke pattern, t)], []. repeat apply conj.
        -- exact Hp.
        -- cbn [length]. now rewrite Hnr, app_nil_r.
        -- now left.
        -- intros _ _. right. cbn [length]. lia.
      * eapply after_weaken; [apply IH|].
        intros r w' Hpost out n E.
        destruct (Hpost out n E) as (new & tail & Hp' & Hout & Htail & Hst).
        cbn [show page_count] in Hout, Hst.
        exists ([(keystroke pattern, t)] ++ new), tail. repeat apply conj.
        -- eapply played_trans; eauto.
        -- rewrite Hout, length_app. cbn [length].
           rewrite (received_add (device w) 1 (length new) (cursor w)), Hnr.
           rewrite (played_device _ _ _ Hp), (played_cursor _ _ _ Hp).
           cbn [length]. now rewrite <- !app_assoc.
        -- exact Htail.
        -- intros Hm Ht.
           destruct (Hst (marker_found_app _ _ Hm) Ht) as [H|H]; [now left|].
           right. rewrite length_app. cbn [length]. lia.
    + intros w2 Hq2. cbn [fst snd negb orb]. apply after_ret.
      intros out n E. injection E as <- <-. exists [], []. repeat apply conj.
      * apply played_quiet. eapply quiet_trans; eauto.
      * simpl. now rewrite app_nil_r.
      * now left.
      * intros Hm _. apply marker_found_find in Hm as [p Hp]. congruence.
Qed.

Lemma standard_paging_output (cmd cmd_clean : pystr) (t : Q) (max_page : Z)
    (flag : pystr) (w : world) :
  after (standard_paging cmd cmd_clean t max_page flag) w
    (fun r w' =>
       forall out n, r = Ok (out, n) ->
         exists new tail,
           played w w' ((cmd, t) :: new) /\
           out = received (device w) (cursor w) (S (length new)) ++ tail /\
           no_warning tail /\
           (forall s0, next_reply w = Ok s0 -> marker_found s0 = true ->
              tail = [] ->
              unrecognized out = true \/ (max_page < Z.of_nat (length new))%Z)).
Proof.
  unfold standard_paging. apply after_bind, after_send. intros w1 Hp1.
  destruct (next_reply w) as [shown|e|] eqn:Hnr;
    [| intros out n E; discriminate E | intros out n E; discriminate E].
  pose proof (received_one _ _ Hnr) as Hrec.
  cbn [_safe_str]. destruct (unrecognized shown) eqn:Hu.
  { apply after_ret. intros out n E. injection E as <- <-.
    exists [], []. repeat apply conj.
    - exact Hp1.
    - cbn [length]. now rewrite Hrec, app_nil_r.
    - now left.
    - intros _ _ _ _. now left. }
  apply after_bind, after_time.
  eapply after_weaken; [apply paging_loop_output|].
  intros r w' Hpost out n E.
  destruct (Hpost out n E) as (new & tail & Hp & Hout & Htail & Hst).
  cbn [show page_count] in Hout, Hst.
  exists new, tail. repeat apply conj.
  - exact (played_trans _ _ _ _ _ Hp1 Hp).
  - rewrite Hout.
    change (S (length new)) with (1 + length new)%nat.
    rewrite (received_add (device w) 1 (length new) (cursor w)), Hrec.
    rewrite (played_device _ _ _ Hp1), (played_cursor _ _ _ Hp1).
    cbn [length]. now rewrite <- app_assoc.
  - exact Htail.
  - intros s0 [= <-] Hm Ht. destruct (Hst Hm Ht) as [H|H]; [now left|].
    right. lia.
Qed.

(** A paged command is handed to [standard_paging] with the effective
    timeout and page ceiling, after log lines only. *)
Lemma after_paged (cmd : pyval) (t : Q) (max_page : Z) (flag : pystr) (w : world)
    (post : res pystr -> world -> Prop) :
  paged cmd = true ->
  (forall w1, quiet w w1 ->
     after (standard_paging (_safe_str cmd)
              (_strip_or_empty (VStr (_safe_str cmd)))
              (effective_timeout cmd t) (page_ceiling cmd max_page) flag) w1
       (fun r w' =>
          match r with
          | Ok x => post (Ok (fst x)) w'
          | Raise e => post (Raise e) w'
          | OutOfFuel => post OutOfFuel w'
          end)) ->
  after (handle_pagination cmd t max_page flag) w post.
Proof.
  unfold paged, handle_pagination, effective_timeout, page_ceiling. cbv zeta.
  intros Hpaged H. apply andb_prop in Hpaged as [Hne Hno].
  apply negb_true_iff in Hne, Hno. rewrite Hne, Hno.
  destruct (py_elem _ BIG_OUTPUT_CMDS).
  - apply after_bind, after_debug. intros w1 Hq1 _.
    apply after_bind, after_debug. intros w2 Hq2 _.
    apply after_bind. eapply after_weaken; [apply H; eapply quiet_trans; eauto|].
    intros [x|e|] w3 Hpost; [apply after_ret|..]; exact Hpost.
  - apply after_bind, after_ret. apply after_bind, after_ret.
    apply after_bind. eapply after_weaken; [apply H, quiet_refl|].
    intros [x|e|] w3 Hpost; [apply after_ret|..]; exact Hpost.
Qed.

(** X6. The text returned for a paged command is everything the device sent
    during the call, reply after reply in order and nothing left out,
    followed by at most one of the two warnings.  At least one exchange
    took place. *)
Theorem paged_output_is_what_was_received
    (cmd : pyval) (t : Q) (max_page : Z) (flag : pystr) (w w' : world)
    (out : pystr) :
  paged cmd = true ->
  handle_pagination cmd t max_page flag w = (Ok out, w') ->
  exists tail,
    out = received (device w) (cursor w) (cursor w' - cursor w) ++ tail /\
    (tail = [] \/ tail = DEADLOCK_WARNING \/ tail = TIMEOUT_WARNING) /\
    (cursor w < cursor w')%nat.
Proof.
  intros Hpaged E.
  refine (after_elim _ _ _ _
            (fun r w' => forall out, r = Ok out -> _) _ E out eq_refl).
  apply after_paged; [exact Hpaged|]. intros w1 Hq.
  eapply after_weaken; [apply standard_paging_output|].
  intros [[o n]|e|] w2 Hpost; [| intros ? [=] | intros ? [=]].
  intros o' [= <-].
  destruct (Hpost o n eq_refl) as (new & tail & Hp & Hout & Htail & _).
  apply quiet_fields in Hq as (_ & Hd & Hc & _).
  exists tail. repeat apply conj.
  - cbn [fst]. rewrite Hout, Hd, Hc.
    rewrite (played_cursor _ _ _ Hp), Hc. cbn [length].
    now replace (cursor w + S (length new) - cursor w)%nat with (S (length new)) by lia.
  - exact Htail.
  - rewrite (played_cursor _ _ _ Hp), Hc. cbn [length]. lia.
Qed.

Lemma paged_output_is_what_was_received_witness :
  exists tail,
    lit "page1 ---- More ----" ++ lit "page2"
    = received (script [ says (lit "page1 ---- More ----") 1; says (lit "page2") 1 ])
        0 2 ++ tail.
Proof.
  destruct (paged_output_is_what_was_received
              (VStr (lit "display version")) 10 0 (lit "n")
              (session_at 0 (script [ says (lit "page1 ---- More ----") 1;
                                      says (lit "page2") 1 ]))
              (snd (handle_pagination (VStr (lit "display version")) 10 0 (lit "n")
                      (session_at 0 (script [ says (lit "page1 ---- More ----") 1;
                                              says (lit "page2") 1 ]))))
              (lit "page1 ---- More ----" ++ lit "page2"))
    as (tail & H & _).
  - vm_compute. reflexivity.
  - vm_compute. reflexivity.
  - exists tail. exact H.
Defined.

(** X7. Once a pagination marker has shown up in the first reply, the call
    cannot end the plain way: the marker stays in the accumulated output
    and is found again on every later pass, so the output returned is an
    unrecognized-command reply, or ends with one of the two warnings, or
    the page ceiling was exceeded (more than ceiling + 1 exchanges took
    place). *)
Theorem marker_seen_ends_by_guard
    (cmd : pyval) (t : Q) (max_page : Z) (flag : pystr) (w w' : world)
    (s0 out : pystr) :
  paged cmd = true ->
  reply (device w (cursor w)) = inr s0 ->
  marker_found s0 = true ->
  handle_pagination cmd t max_page flag w = (Ok out, w') ->
  unrecognized out = true \/
  (exists x, out = x ++ DEADLOCK_WARNING) \/
  (exists x, out = x ++ TIMEOUT_WARNING) \/
  (page_ceiling cmd max_page + 1 < Z.of_nat (cursor w' - cursor w))%Z.
Proof.
  intros Hpaged Hs0 Hm E.
  refine (after_elim _ _ _ _
            (fun r w' => forall out, r = Ok out -> _) _ E out eq_refl).
  apply after_paged; [exact Hpaged|]. intros w1 Hq.
  eapply after_weaken; [apply standard_paging_output|].
  intros [[o n]|e|] w2 Hpost; [| intros ? [=] | intros ? [=]].
  intros o' [= <-]. cbn [fst].
  destruct (Hpost o n eq_refl) as (new & tail & Hp & Hout & Htail & Hst).
  assert (Hnr : next_reply w1 = Ok s0).
  { rewrite (next_reply_quiet _ _ Hq). unfold next_reply. now rewrite Hs0. }
  destruct Htail as [Ht | [Ht | Ht]].
  - destruct (Hst s0 Hnr Hm Ht) as [H|H]; [now left|].
    right. right. right.
    apply quiet_fields in Hq as (_ & _ & Hc & _).
    rewrite (played_cursor _ _ _ Hp), Hc. cbn [length]. lia.
  - right. left. subst tail. eauto.
  - right. right. left. subst tail. eauto.
Qed.

Lemma marker_seen_ends_by_guard_witness :
  unrecognized (lit "page1 ---- More ----" ++ lit "page2") = true \/
  (exists x, lit "page1 ---- More ----" ++ lit "page2" = x ++ DEADLOCK_WARNING) \/
  (exists x, lit "page1 ---- More ----" ++ lit "page2" = x ++ TIMEOUT_WARNING) \/
  (page_ceiling (VStr (lit "display version")) 0 + 1 < 2)%Z.
Proof.
  apply (marker_seen_ends_by_guard
           (VStr (lit "display version")) 10 0 (lit "n")
           (session_at 0 (script [ says (lit "page1 ---- More ----") 1;
                                   says (lit "page2") 1 ]))
           (snd (handle_pagination (VStr (lit "display version")) 10 0 (lit "n")
                   (session_at 0 (script [ says (lit "page1 ---- More ----") 1;
                                           says (lit "page2") 1 ]))))
           (lit "page1 ---- More ----")
           (lit "page1 ---- More ----" ++ lit "page2")).
  - vm_compute. reflexivity.
  - vm_compute. reflexivity.
  - vm_compute. reflexivity.
  - vm_compute. reflexivity.
Defined.

Lemma effective_timeout_pos (cmd : pyval) (t : Q) :
  (0 < t)%Q -> (0 < effective_timeout cmd t)%Q.
Proof.
  intros Ht. unfold effective_timeout. destruct (py_elem _ _); [|exact Ht].
  apply Q.min_glb_lt; [lra | reflexivity].
Qed.

(** X8. A first reply that is an unrecognized-command reply, or that shows no
    pagination marker (the read timeout being positive), is returned
    unchanged after that single exchange: nothing is appended to it and
    no keystroke is sent. *)
Theorem first_reply_returned_as_is
    (cmd : pyval) (t : Q) (max_page : Z) (flag : pystr) (w : world) (s0 : pystr) :
  paged cmd = true ->
  reply (device w (cursor w)) = inr s0 ->
  unrecognized s0 = true \/ (marker_found s0 = false /\ (0 < t)%Q) ->
  exists w',
    handle_pagination cmd t max_page flag w = (Ok s0, w') /\
    cursor w' = S (cursor w) /\
    sent w' = sent w ++ [(_safe_str cmd, effective_timeout cmd t)].
Proof.
  intros Hpaged Hs0 Hcase.
  assert (H : after (handle_pagination cmd t max_page flag) w
                (fun r w' =>
                   r = Ok s0 /\
                   played w w' [(_safe_str cmd, effective_timeout cmd t)])).
  { apply after_paged; [exact Hpaged|]. intros w1 Hq1.
    unfold standard_paging. apply after_bind, after_send. intros w2 Hp2.
    pose proof (quiet_then_played _ _ _ _ Hq1 Hp2) as Hp.
    rewrite (next_reply_quiet _ _ Hq1). unfold next_reply. rewrite Hs0.
    cbn [_safe_str]. destruct (unrecognized s0) eqn:Hu.
    { apply after_ret. split; [reflexivity | exact Hp]. }
    destruct Hcase as [Hcase | [Hm Ht]]; [discriminate Hcase|].
    apply after_bind, after_time.
    unfold loop_fuel. cbn [paging_loop _safe_str show prev_output repeat_count page_count].
    rewrite Hu.
    apply after_bind, after_debug. intros w3 Hq3 _.
    match goal with
    | |- context [Z.geb ?a ?b] =>
        replace (Z.geb a b) with false
          by (destruct (py_eqb _ _); destruct (py_elem _ _); reflexivity)
    end.
    apply after_bind, after_time.
    rewrite Qgtb_le.
    2:{ apply quiet_fields in Hq3 as (-> & _).
        pose proof (effective_timeout_pos cmd t Ht). lra. }
    apply after_bind, after_scan; [exact patterns_answered|].
    rewrite (marker_found_none _ Hm). intros w4 Hq4.
    cbn [fst snd negb orb]. apply after_ret. split; [reflexivity|].
    eapply played_then_quiet; [exact Hp|]. eapply quiet_trans; eauto. }
  unfold after in H.
  destruct (handle_pagination cmd t max_page flag w) as [r w'].
  simpl in H. destruct H as [-> Hp]. exists w'. split; [reflexivity|].
  split.
  - rewrite (played_cursor _ _ _ Hp). simpl. lia.
  - apply (played_sent _ _ _ Hp).
Qed.

Lemma first_reply_returned_as_is_witness :
  exists w',
    handle_pagination (VStr (lit "display version")) 10 DEFAULT_MAX_PAGE (lit "n")
      (session_at 0 (script [ says (lit "H3C Comware") 1 ]))
    = (Ok (lit "H3C Comware"), w') /\
    cursor w' = 1%nat /\
    sent w' = [(lit "display version", 10%Q)].
Proof.
  destruct (first_reply_returned_as_is
              (VStr (lit "display version")) 10 DEFAULT_MAX_PAGE (lit "n")
              (session_at 0 (script [ says (lit "H3C Comware") 1 ]))
              (lit "H3C Comware"))
    as (w' & E & Hc & Hs).
  - vm_compute. reflexivity.
  - reflexivity.
  - right. split; [vm_compute; reflexivity | reflexivity].
  - exists w'. repeat apply conj; [exact E | exact Hc | exact Hs].
Defined.

(** ** The bounds of paging, for the call as a whole *)

(** [standard_paging] ends; after the command it plays at most
    [max_page + 1] keystrokes, and once it has played one it ends within
    its timeout plus the last read, counted from the end of the first
    read. *)
Lemma standard_paging_bounded (cmd cmd_clean : pystr) (t : Q) (max_page : Z)
    (flag : pystr) (w : world) :
  after (standard_paging cmd cmd_clean t max_page flag) w
    (fun r w' =>
       r <> OutOfFuel /\
       exists new,
         played w w' ((cmd, t) :: new) /\
         Forall (fun e => snd e = t) new /\
         (length new <= S (Z.to_nat max_page))%nat /\
         (new = [] \/
          (now w' - (now w + took (device w (cursor w)))
           <= t + took (device w (Nat.pred (cursor w'))))%Q)).
Proof.
  unfold standard_paging. apply after_bind, after_send. intros w1 Hp1.
  assert (Hstop : forall r : res (pystr * nat),
             r <> OutOfFuel ->
             r <> OutOfFuel /\
             exists new,
               played w w1 ((cmd, t) :: new) /\
               Forall (fun e => snd e = t) new /\
               (length new <= S (Z.to_nat max_page))%nat /\
               (new = [] \/
                (now w1 - (now w + took (device w (cursor w)))
                 <= t + took (device w (Nat.pred (cursor w1))))%Q)).
  { intros r Hr. split; [exact Hr|]. exists []. repeat apply conj.
    - exact Hp1.
    - constructor.
    - simpl. lia.
    - now left. }
  pose proof (next_reply_ends w) as Hends.
  destruct (next_reply w) as [shown|e|];
    [| apply Hstop; discriminate | now destruct Hends].
  destruct (unrecognized _).
  { apply after_ret. apply Hstop. discriminate. }
  apply after_bind, after_time.
  eapply after_weaken.
  { apply paging_loop_summary. cbn [page_count]. unfold loop_fuel. lia. }
  intros r w' (Hr & new & Hp & Hall & Hlen & _ & Htime).
  cbn [page_count] in Hlen. rewrite Z.sub_0_r in Hlen.
  split; [exact Hr|]. exists new. repeat apply conj.
  - exact (played_trans _ _ _ _ _ Hp1 Hp).
  - exact Hall.
  - exact Hlen.
  - destruct Htime as [-> | Htime]; [now left | right].
    pose proof (played_now _ _ _ Hp1) as Hn1. cbn [length clock_after] in Hn1.
    rewrite (played_device _ _ _ Hp1) in Htime. rewrite Hn1 in Htime.
    exact Htime.
Qed.

(** C8, as the code has it.  For a command that goes through paging,
    the loop and the call end whatever the device replies.  The loop body
    is entered at most page ceiling + 1 times (so at most ceiling + 2),
    where the ceiling is the one the call works with (raised to
    [BIG_OUTPUT_MAX_PAGE] for a large-output command); the call plays at
    most ceiling + 2 exchanges.  Once a continuation keystroke was sent,
    paging ends no later than the timeout the loop works with plus the
    time of the last blocking read, counted from the start of paging (the
    end of the command's first read).  That timeout is the allotted one
    for a command outside the large-output set, and min(3 x allotted,
    LONG_TIMEOUT) for a large-output command. *)
Theorem paging_bounded_by_effective_timeout
    (cmd : pyval) (t : Q) (max_page : Z) (flag : pystr) (w : world) :
  paged cmd = true ->
  (0 <= page_ceiling cmd max_page)%Z ->
  let c := _safe_str cmd in
  let cmd_clean := _strip_or_empty (VStr c) in
  let timeout := effective_timeout cmd t in
  let ceiling := page_ceiling cmd max_page in
  (forall (T0 : Q) (shown : pystr) (w0 : world),
     exists r w',
       paging_loop (loop_fuel ceiling) c cmd_clean timeout ceiling flag T0
         (MkPage shown 0 [] 0) 0 w0 = (r, w') /\
       r <> OutOfFuel /\
       (forall out n, r = Ok (out, n) ->
          (Z.of_nat n <= ceiling + 1)%Z /\ (Z.of_nat n <= ceiling + 2)%Z) /\
       (Z.of_nat (cursor w' - cursor w0) <= ceiling + 1)%Z /\
       (cursor w' = cursor w0 \/
        (now w' - T0 <= timeout + took (device w0 (Nat.pred (cursor w'))))%Q)) /\
  (exists r w',
     handle_pagination cmd t max_page flag w = (r, w') /\
     r <> OutOfFuel /\
     (cursor w < cursor w')%nat /\
     (Z.of_nat (cursor w' - cursor w) <= ceiling + 2)%Z /\
     Forall (fun e => snd e = timeout) (skipn (length (sent w)) (sent w')) /\
     (cursor w' = S (cursor w) \/
      (now w' - (now w + took (device w (cursor w)))
       <= timeout + took (device w (Nat.pred (cursor w'))))%Q)) /\
  (py_elem cmd_clean BIG_OUTPUT_CMDS = false -> timeout = t) /\
  (py_elem cmd_clean BIG_OUTPUT_CMDS = true ->
   timeout = Qmin (t * 3) LONG_TIMEOUT).
Proof.
  intros Hpaged Hceil c cmd_clean timeout ceiling.
  split; [|split; [|split]].
  - intros T0 shown w0.
    exact (paging_loop_bounded c cmd_clean timeout ceiling flag T0 shown w0 Hceil).
  - assert (H : after (handle_pagination cmd t max_page flag) w
                  (fun r w' =>
                     r <> OutOfFuel /\
                     exists new,
                       played w w' ((c, timeout) :: new) /\
                       Forall (fun e => snd e = timeout) new /\
                       (length new <= S (Z.to_nat ceiling))%nat /\
                       (new = [] \/
                        (now w' - (now w + took (device w (cursor w)))
                         <= timeout + took (device w (Nat.pred (cursor w'))))%Q))).
    { apply after_paged; [exact Hpaged|]. intros w1 Hq1.
      eapply after_weaken; [apply standard_paging_bounded|].
      intros r w2 (Hr & new & Hp & Hall & Hlen & Htime).
      pose proof (quiet_fields _ _ Hq1) as (Hn1 & Hd1 & Hc1 & _).
      rewrite Hn1, Hd1, Hc1 in Htime.
      assert (Hpost : exists new,
                        played w w2 ((c, timeout) :: new) /\
                        Forall (fun e => snd e = timeout) new /\
                        (length new <= S (Z.to_nat ceiling))%nat /\
                        (new = [] \/
                         (now w2 - (now w + took (device w (cursor w)))
                          <= timeout + took (device w (Nat.pred (cursor w2))))%Q)).
      { exists new. repeat apply conj; auto.
        exact (quiet_then_played _ _ _ _ Hq1 Hp). }
      destruct r as [x|e|]; [| | now destruct Hr];
        (split; [discriminate | exact Hpost]). }
    unfold after in H.
    destruct (handle_pagination cmd t max_page flag w) as [r w'].
    cbn [fst snd] in H. destruct H as (Hr & new & Hp & Hall & Hlen & Htime).
    exists r, w'. split; [reflexivity|]. split; [exact Hr|].
    pose proof (played_cursor _ _ _ Hp) as Hc. cbn [length] in Hc.
    pose proof (played_sent _ _ _ Hp) as Hs.
    repeat apply conj.
    + lia.
    + rewrite Hc. lia.
    + rewrite Hs, skipn_app, Nat.sub_diag, skipn_all. cbn [app skipn].
      constructor; [reflexivity | exact Hall].
    + destruct Htime as [-> | Htime]; [left | right; exact Htime].
      rewrite Hc. simpl. lia.
  - unfold timeout, effective_timeout. fold c. fold cmd_clean. now intros ->.
  - unfold timeout, effective_timeout. fold c. fold cmd_clean. now intros ->.
Qed.

Lemma paging_bounded_by_effective_timeout_witness :
  exists r w',
    handle_pagination (VStr (lit "display interface")) 10 DEFAULT_MAX_PAGE (lit "n")
      (session_at 0 (script [ says (lit "GE1/0/1 ---- More ----") 1;
                              says (lit "GE1/0/2") 5 ]))
    = (r, w') /\
    r <> OutOfFuel /\
    (Z.of_nat (cursor w' - 0)
     <= page_ceiling (VStr (lit "display interface")) DEFAULT_MAX_PAGE + 2)%Z.
Proof.
  destruct (paging_bounded_by_effective_timeout
              (VStr (lit "display interface")) 10 DEFAULT_MAX_PAGE (lit "n")
              (session_at 0 (script [ says (lit "GE1/0/1 ---- More ----") 1;
                                      says (lit "GE1/0/2") 5 ])))
    as (_ & (r & w' & E & Hr & _ & Hn & _) & _).
  - vm_compute. reflexivity.
  - vm_compute. discriminate.
  - exists r, w'. repeat apply conj; [exact E | exact Hr | exact Hn].
Defined.

(** A large-output command whose pages take five seconds each. *)
Definition slow_pages : nat -> exchange :=
  script [ says (lit "GE1/0/1 ---- More ----") 1;
           says (lit "GE1/0/2") 5; says (lit "GE1/0/3") 5; says (lit "GE1/0/4") 5;
           says (lit "GE1/0/5") 5; says (lit "GE1/0/6") 5; says (lit "GE1/0/7") 5;
           says (lit "GE1/0/8") 5 ].

(** C8, as stated, fails for a large-output command.  With an allotted
    timeout of 10 seconds the loop works with 30: seven pages of five
    seconds each are read before the deadline guard fires, so paging
    lasts 35 seconds, more than the allotted timeout plus one blocking
    read (10 + 5). *)
Lemma enlarged_paging_outlasts_allotted_timeout :
  let w := session_at 0 slow_pages in
  let r := handle_pagination (VStr (lit "display interface")) 10 DEFAULT_MAX_PAGE
             (lit "n") w in
  let paging_started := (now w + took (device w (cursor w)))%Q in
  let last_read := took (device w (Nat.pred (cursor (snd r)))) in
  fst r = Ok (lit "GE1/0/1 ---- More ----" ++ lit "GE1/0/2" ++ lit "GE1/0/3"
              ++ lit "GE1/0/4" ++ lit "GE1/0/5" ++ lit "GE1/0/6" ++ lit "GE1/0/7"
              ++ lit "GE1/0/8" ++ TIMEOUT_WARNING) /\
  cursor (snd r) = 8%nat /\
  (effective_timeout (VStr (lit "display interface")) 10 == 30)%Q /\
  (now (snd r) - paging_started == 35)%Q /\
  (last_read == 5)%Q /\
  ~ (now (snd r) - paging_started <= 10 + last_read)%Q.
Proof.
  split; [vm_compute; reflexivity|].
  split; [vm_compute; reflexivity|].
  split; [vm_compute; reflexivity|].
  split; [vm_compute; reflexivity|].
  split; [vm_compute; reflexivity|].
  vm_compute. intros H. now apply H.
Qed.

(** ** What a no-output command writes *)

Lemma try_alternatives_prefix (cmd cmd_clean : pystr) (t : Q) (flag : pystr) :
  forall (alts : list pystr) (w : world),
    after (try_alternatives alts cmd cmd_clean t flag) w
      (fun _ w' =>
         exists k, (k <= length (tried_of cmd_clean alts))%nat /\
           played w w'
             (List.map (fun a => (a, t)) (firstn k (tried_of cmd_clean alts)))).
Proof.
  induction alts as [|alt rest IH]; intros w.
  - apply after_ret. exists O. split; [simpl; lia | apply played_refl].
  - cbn [try_alternatives]. unfold tried_of in *. cbn [List.filter].
    destruct (negb (py_eqb alt cmd_clean)); [|apply IH].
    apply after_bind, after_debug. intros w1 Hq1 _.
    apply after_bind, after_send. intros w2 Hp2.
    pose proof (quiet_then_played _ _ _ _ Hq1 Hp2) as Hp.
    assert (Hone : exists k,
               (k <= length (alt :: List.filter
                               (fun a => negb (py_eqb a cmd_clean)) rest))%nat /\
               played w w2
                 (List.map (fun a => (a, t))
                    (firstn k (alt :: List.filter
                                 (fun a => negb (py_eqb a cmd_clean)) rest)))).
    { exists 1%nat. split; [simpl; lia | exact Hp]. }
    destruct (next_reply w1) as [alt_show|e|]; try exact Hone.
    destruct (negb _).
    + apply after_bind, after_debug. intros w3 Hq3 _. apply after_ret.
      destruct Hone as (k & Hk & Hpk). exists k. split; [exact Hk|].
      eapply played_then_quiet; eauto.
    + eapply after_weaken; [apply IH|].
      intros r w3 (k & Hk & Hpk). exists (S k). split; [simpl; lia|].
      exact (played_trans _ _ _ _ _ Hp Hpk).
Qed.

(* The four status branches of a no-output command: a log line, then
   the return. *)
Ltac status_tail :=
  repeat match goal with
         | |- after (if ?b then _ else _) _ _ => destruct b
         end;
  apply after_bind, after_debug; intros w4 Hq4 _; apply after_ret.

Lemma other_spellings_at_most_four (cmd_clean : pystr) :
  (length (other_spellings cmd_clean) <= 4)%nat.
Proof.
  unfold other_spellings, tried_of.
  exact (List.filter_length_le _ alternative_cmds).
Qed.

(** X9. Whatever the device replies, and also when an exchange raises, a
    no-output command writes the command itself followed by a prefix of
    the other disable-paging spellings in list order, every one read with
    the timeout given: at most five exchanges, and exactly one unless the
    command contains screen-length and its reply shows an error pattern.
    No continuation keystroke is ever written. *)
Theorem no_output_writes_spellings_in_order
    (cmd : pyval) (t : Q) (max_page : Z) (flag : pystr) (w : world) :
  let c := _safe_str cmd in
  let cmd_clean := _strip_or_empty (VStr c) in
  let w' := snd (handle_pagination cmd t max_page flag w) in
  py_elem cmd_clean NO_OUTPUT_CMDS = true ->
  exists k,
    (k <= 4)%nat /\
    sent w' = sent w ++ (c, t) :: List.map (fun a => (a, t))
                                     (firstn k (other_spellings cmd_clean)) /\
    cursor w' = (cursor w + 1 + k)%nat /\
    (py_in (lit "screen-length") cmd_clean = false -> k = O) /\
    (forall s, reply (device w (cursor w)) = inr s ->
       any_in error_patterns s = false -> k = O).
Proof.
  intros c cmd_clean w' Hno.
  assert (H : after (handle_pagination cmd t max_page flag) w
                (fun _ w' =>
                   exists k,
                     (k <= length (other_spellings cmd_clean))%nat /\
                     played w w'
                       ([(c, t)] ++ List.map (fun a => (a, t))
                                      (firstn k (other_spellings cmd_clean))) /\
                     (py_in (lit "screen-length") cmd_clean = false -> k = O) /\
                     (forall s, next_reply w = Ok s ->
                        any_in error_patterns s = false -> k = O))).
  { unfold handle_pagination. fold c. fold cmd_clean.
    rewrite (no_output_not_empty _ Hno), Hno.
    unfold no_output_command.
    apply after_bind, after_debug. intros w1 Hq1 _.
    apply after_bind, after_send. intros w2 Hp2.
    pose proof (quiet_then_played _ _ _ _ Hq1 Hp2) as Hp.
    rewrite (next_reply_quiet _ _ Hq1).
    assert (Hzero : forall w3, quiet w2 w3 ->
              exists k,
                (k <= length (other_spellings cmd_clean))%nat /\
                played w w3
                  ([(c, t)] ++ List.map (fun a => (a, t))
                                 (firstn k (other_spellings cmd_clean))) /\
                (py_in (lit "screen-length") cmd_clean = false -> k = O) /\
                (forall s, next_reply w = Ok s ->
                   any_in error_patterns s = false -> k = O)).
    { intros w3 Hq3. exists O. split; [lia|]. split; [|split; reflexivity].
      cbn [firstn List.map]. eapply played_then_quiet; eauto. }
    destruct (next_reply w) as [shown|e|] eqn:Hnr;
      [| apply Hzero, quiet_refl | apply Hzero, quiet_refl].
    cbn [_safe_str].
    apply after_bind.
    destruct (py_in (lit "screen-length") cmd_clean) eqn:Hsl;
      [destruct (any_in error_patterns shown) eqn:Herr|]; cbn [andb].
    - eapply after_weaken; [apply try_alternatives_prefix|].
      intros r w3 (k & Hk & Hpk).
      assert (Hk' : forall w4, quiet w3 w4 ->
                exists k,
                  (k <= length (other_spellings cmd_clean))%nat /\
                  played w w4
                    ([(c, t)] ++ List.map (fun a => (a, t))
                                   (firstn k (other_spellings cmd_clean))) /\
                  (true = false -> k = O) /\
                  (forall s, Ok shown = Ok s ->
                     any_in error_patterns s = false -> k = O)).
      { intros w4 Hq4. exists k. split; [exact Hk|]. split; [|split].
        - eapply played_then_quiet; [|exact Hq4].
          exact (played_trans _ _ _ _ _ Hp Hpk).
        - discriminate.
        - intros s [= <-] Hs. congruence. }
      destruct r as [[status|]|e|];
        [apply after_ret, Hk', quiet_refl | | apply Hk', quiet_refl
         | apply Hk', quiet_refl].
      status_tail; now apply Hk'.
    - apply after_ret. cbv beta iota.
      status_tail;
        (exists O; split; [lia|]; split; [|split; reflexivity];
         cbn [firstn List.map]; eapply played_then_quiet; eauto).
    - apply after_ret. cbv beta iota.
      status_tail;
        (exists O; split; [lia|]; split; [|split; reflexivity];
         cbn [firstn List.map]; eapply played_then_quiet; eauto). }
  unfold after in H. fold w' in H.
  destruct H as (k & Hk & Hp & Hsl & Herr).
  exists k. pose proof (other_spellings_at_most_four cmd_clean) as H4.
  split; [lia|]. split; [|split; [|split]].
  - exact (played_sent _ _ _ Hp).
  - rewrite (played_cursor _ _ _ Hp). cbn [app length].
    rewrite length_map, firstn_length_le by lia. lia.
  - exact Hsl.
  - intros s Hs. apply Herr. unfold next_reply. now rewrite Hs.
Qed.

Lemma no_output_writes_spellings_in_order_witness :
  exists k,
    (k <= 4)%nat /\
    sent (snd (handle_pagination (VStr (lit "screen-length disable")) 10
                 DEFAULT_MAX_PAGE (lit "n")
                 (session_at 0 (script [ says (lit "Unrecognized command") 1 ]))))
    = [] ++ (lit "screen-length disable", 10%Q)
         :: List.map (fun a => (a, 10%Q))
              (firstn k (other_spellings
                           (_strip_or_empty (VStr (lit "screen-length disable"))))).
Proof.
  destruct (no_output_writes_spellings_in_order
              (VStr (lit "screen-length disable")) 10 DEFAULT_MAX_PAGE (lit "n")
              (session_at 0 (script [ says (lit "Unrecognized command") 1 ])))
    as (k & Hk & Hs & _).
  - vm_compute. reflexivity.
  - exists k. split; [exact Hk | exact Hs].
Defined.

(** ** The task: sessions are released *)

(** What a call that only logs, connects or enables leaves alone. *)
Definition session_part (w : world) :=
  (now w, cursor w, sent w, disconnects w,
   (connect_result w, enable_result w, prompt_result w, disconnect_result w)).

Definition same_session (w w' : world) : Prop := session_part w' = session_part w.

Lemma same_session_refl (w : world) : same_session w w.
Proof. reflexivity. Qed.













(** A complete device record, as the scheduler hands it to the task. *)
Definition complete_device : gmap pystr pyval :=
  list_to_map
    [ (lit "device_type", VStr (lit "hp_comware"));
      (lit "host", VStr (lit "sw1"));
      (lit "ip", VStr (lit "10.0.0.1"));
      (lit "username", VStr (lit "admin"));
      (lit "port", VStr (lit "22"));
      (lit "conn_timeout", VOther (lit "15") true) ].


(** ** The task with a console that can raise *)

Lemma bind_same {A B} (m : M A) (k1 k2 : A -> M B) (w : world) :
  (forall a w', k1 a w' = k2 a w') -> bind m k1 w = bind m k2 w.
Proof.
  intros H. unfold bind. destruct (m w) as [[a|e|] w']; [apply H | reflexivity..].
Qed.

Lemma with_finally_same {A} (m1 m2 : M A) (cleanup : M unit) (w : world) :
  m1 w = m2 w -> with_finally m1 cleanup w = with_finally m2 cleanup w.
Proof. intros H. unfold with_finally. now rewrite H. Qed.

(** With a console that takes every text, the task with its console is
    the task of the sections above. *)
Lemma quiet_console_inspect_command (flag host : pystr) (start : Q)
    (real : pystr) (cmd0 : pyval) (w : world) :
  Printing.inspect_command (fun _ _ => None) flag host start real cmd0 w
  = inspect_command flag host start real cmd0 w.
Proof. reflexivity. Qed.

Lemma quiet_console_run_commands (flag host : pystr) (start : Q)
    (real : pystr) (cmds : list pyval) :
  forall w,
    Printing.run_commands (fun _ _ => None) flag host start real cmds w
    = run_commands flag host start real cmds w.
Proof.
  induction cmds as [|cmd0 rest IH]; intros w; [reflexivity|].
  cbn [Printing.run_commands run_commands].
  change (Printing.inspect_command (fun _ _ => None) flag host start real cmd0)
    with (inspect_command flag host start real cmd0).
  apply bind_same. intros [] w'; [apply IH | reflexivity..].
Qed.

Lemma quiet_console_inspection (login_info : gmap pystr pyval)
    (cmds_dict : gmap pystr (list pyval)) (flag : pystr) (w : world) :
  Printing.inspection (fun _ _ => None) login_info cmds_dict flag w
  = inspection login_info cmds_dict flag w.
Proof.
  unfold Printing.inspection, inspection.
  apply bind_same. intros t w0.
  destruct (login_info !! lit "host") as [h|]; [|reflexivity].
  unfold Printing.inspection_body, inspection_body.
  apply bind_same. intros [e|u] w1; [reflexivity|].
  apply bind_same. intros [e|u2] w2; [reflexivity|].
  apply with_finally_same.
  unfold Printing.inspect_connected, inspect_connected.
  apply bind_same. intros p w3.
  apply bind_same. intros [] w4.
  apply bind_same. intros d w5.
  destruct (match d with VStr k => cmds_dict !! k | _ => None end) as [[|c cs]|];
    [reflexivity | | reflexivity].
  unfold bind. now rewrite quiet_console_run_commands.
Qed.

(** The console raised [e]: real-time output is on and there is a text
    the console refuses with [e]. *)
Definition console_raised (stdout : world -> pystr -> option exn) (flag : pystr)
    (e : exn) : Prop :=
  py_eqb flag (lit "y") = true /\ exists w0 text, stdout w0 text = Some e.

(** The console never gets in the way: output is off, or every text is
    taken. *)
Definition console_safe (stdout : world -> pystr -> option exn) (flag : pystr)
    : Prop :=
  py_eqb flag (lit "y") = false \/ forall w0 text, stdout w0 text = None.

Lemma console_safe_never_raised (stdout : world -> pystr -> option exn)
    (flag : pystr) (e : exn) :
  console_safe stdout flag -> ~ console_raised stdout flag e.
Proof.
  intros [Hn | Hs] (Hy & w0 & text & He); [congruence|].
  rewrite Hs in He. discriminate He.
Qed.

(** What one pass through the loop body does when the print can raise:
    what it does with a quiet console, or the print's exception after the
    command's exchanges. *)
Definition printing_post (stdout : world -> pystr -> option exn) (flag : pystr)
    (start : Q) (real : pystr) (cmd0 : pyval) (w : world)
    (r : res flow) (w' : world) : Prop :=
  command_post start cmd0 w r w' \/
  exists e shown new,
    r = Raise e /\ py_eqb flag (lit "y") = true /\
    stdout w' (printed_text real (_safe_str cmd0) shown) = Some e /\
    played w w' new /\ (0 < remaining_budget start w)%Q.

Lemma printing_inspect_command_summary (stdout : world -> pystr -> option exn)
    (flag host : pystr) (start : Q) (real : pystr) (cmd0 : pyval) (w : world) :
  after (Printing.inspect_command stdout flag host start real cmd0) w
    (printing_post stdout flag start real cmd0 w).
Proof.
  unfold Printing.inspect_command, printing_post.
  destruct (py_eqb (_strip_or_empty (VStr (_safe_str cmd0))) []).
  { apply after_bind, after_log. intros w1 Hq _. apply after_ret. left.
    exists Continue. split; [reflexivity|]. split; [discriminate|].
    exists []. repeat apply conj; auto using played_quiet. }
  apply after_bind, after_debug. intros w1 Hq1 _.
  apply after_bind, after_time.
  pose proof (quiet_fields _ _ Hq1) as (Hn1 & Hd1 & Hc1 & Hr1 & Hs1 & Hk1 & Hx1 & Hy1).
  rewrite Hn1. fold (remaining_budget start w).
  destruct (Qle_bool (remaining_budget start w) 0) eqn:Hrem.
  { apply Qle_bool_iff in Hrem.
    apply after_bind, after_log. intros w2 Hq2 _.
    pose proof (quiet_fields _ _ Hq2) as (Hn2 & Hd2 & Hc2 & Hr2 & Hs2 & Hk2 & Hx2 & Hy2).
    destruct (guarded_disconnect w2) as (w3 & E & Hs3 & Hc3 & _ & _ & Hx3).
    apply after_bind. unfold after at 1. rewrite E. cbn [fst snd].
    apply after_ret. left. exists Return. split; [reflexivity|].
    repeat apply conj; try assumption; congruence. }
  assert (Hpos : (0 < remaining_budget start w)%Q).
  { apply Qnot_le_lt. intros H. apply Qle_bool_iff in H. congruence. }
  apply after_bind, after_channel_closed. intros [|] Hb.
  { apply after_bind, after_log. intros w2 Hq2 _. apply after_ret.
    pose proof (quiet_fields _ _ Hq2) as (_ & _ & _ & Hr2 & _).
    left. exists Break. split; [reflexivity|]. split.
    - intros _. rewrite <- Hb. apply channel_closed_same_conn. exact Hr2.
    - exists []. repeat apply conj; auto.
      apply played_quiet. eapply quiet_trans; eauto. }
  fold (allotted_timeout start w).
  apply after_bind. eapply after_weaken; [apply run_command_calm|].
  intros r w2 ((x & -> & Hx) & new & Hp & Hall).
  pose proof (quiet_then_played _ _ _ _ Hq1 Hp) as Hp'.
  destruct Hx as [-> | [shown ->]].
  { apply after_ret. left. exists Continue. split; [reflexivity|].
    split; [discriminate|]. exists new. auto. }
  apply after_bind.
  apply after_weaken with
    (p := fun r w3 => exists leave, r = Ok leave /\ quiet w2 w3 /\
                      (leave = true -> fst (channel_closed w3) = Ok true)).
  { destruct (py_eqb _ (lit "quit")).
    - apply after_bind, after_channel_closed. intros [|] Hb2.
      + apply after_bind, after_log. intros w3 Hq3 _. apply after_ret.
        exists true. repeat apply conj; auto. intros _.
        pose proof (quiet_fields _ _ Hq3) as (_ & _ & _ & Hr3 & _).
        rewrite <- Hb2. now apply channel_closed_same_conn.
      + apply after_bind, after_log. intros w3 Hq3 _. apply after_ret.
        exists false. repeat apply conj; auto. discriminate.
    - apply after_ret. exists false. repeat apply conj; auto using quiet_refl.
      discriminate. }
  intros r w3 (leave & -> & Hq3 & Hleave).
  destruct leave.
  { apply after_ret. left. exists Break. split; [reflexivity|]. split; [auto|].
    exists new. repeat apply conj; auto. eapply played_then_quiet; eauto. }
  pose proof (played_then_quiet _ _ _ _ Hp' Hq3) as Hp3.
  apply after_bind.
  destruct (py_eqb flag (lit "y")) eqn:Hy.
  - unfold after at 1, console_print. cbn [_safe_str].
    destruct (stdout w3 (printed_text real (_safe_str cmd0) shown)) as [e|] eqn:Hout.
    + cbn [fst snd]. right. exists e, shown, new. repeat apply conj; auto.
    + destruct (log_message_quiet Console (Printed real (_safe_str cmd0) shown) w3)
        as (w4 & E & Hq4 & _).
      rewrite E. cbn [fst snd]. apply after_ret. left.
      exists Continue. split; [reflexivity|]. split; [discriminate|].
      exists new. repeat apply conj; auto. eapply played_then_quiet; eauto.
  - apply after_ret. apply after_ret. left.
    exists Continue. split; [reflexivity|]. split; [discriminate|].
    exists new. repeat apply conj; auto.
Qed.

Lemma printing_run_commands_continue (stdout : world -> pystr -> option exn)
    (flag host : pystr) (start : Q) (real : pystr)
    (cmd0 : pyval) (rest : list pyval) (w w' : world) (r : res flow) :
  Printing.inspect_command stdout flag host start real cmd0 w = (r, w') ->
  Printing.run_commands stdout flag host start real (cmd0 :: rest) w
  = match r with
    | Ok Continue => Printing.run_commands stdout flag host start real rest w'
    | Ok Break => (Ok false, w')
    | Ok Return => (Ok true, w')
    | Raise e => (Raise e, w')
    | OutOfFuel => (OutOfFuel, w')
    end.
Proof.
  intros E. cbn [Printing.run_commands]. unfold bind at 1. rewrite E.
  destruct r as [[]|e|]; reflexivity.
Qed.

(** The loop ends; it raises only what the console raises. *)
Lemma printing_run_commands_summary (stdout : world -> pystr -> option exn)
    (flag host : pystr) (start : Q) (real : pystr) (cmds : list pyval) :
  forall w,
    after (Printing.run_commands stdout flag host start real cmds) w
      (fun r _ => (exists b, r = Ok b) \/
                  exists e, r = Raise e /\ console_raised stdout flag e).
Proof.
  induction cmds as [|cmd0 rest IH]; intros w.
  - apply after_ret. left. eauto.
  - pose proof (printing_inspect_command_summary stdout flag host start real cmd0 w)
      as H.
    unfold after in H |- *.
    destruct (Printing.inspect_command stdout flag host start real cmd0 w)
      as [r w1] eqn:E.
    rewrite (printing_run_commands_continue _ _ _ _ _ _ rest _ _ _ E).
    cbn [fst snd] in H.
    destruct H as [(f & -> & _) | (e & shown & new & -> & Hy & He & _)].
    + destruct f; cbn [fst snd]; [apply IH | left; eauto | left; eauto].
    + cbn [fst snd]. right. exists e. split; [reflexivity|].
      split; [exact Hy | eauto].
Qed.

Lemma printing_inspect_connected_raises (stdout : world -> pystr -> option exn)
    (login_info : gmap pystr pyval) (cmds_dict : gmap pystr (list pyval))
    (flag host : pystr) (start : Q) (w : world) :
  after (Printing.inspect_connected stdout login_info cmds_dict flag host start) w
    (fun r _ =>
       match r with
       | Ok _ => True
       | Raise e =>
           (login_info !! lit "device_type" = None /\
            e = KeyError (lit "device_type"))
           \/ prompt_result w = inl e
           \/ console_raised stdout flag e
       | OutOfFuel => False
       end).
Proof.
  unfold Printing.inspect_connected. apply after_bind.
  unfold after at 1, find_prompt.
  destruct (prompt_result w) as [e|prompt]; simpl; [right; now left|].
  apply after_bind, after_log. intros w1 Hq1 _.
  apply after_bind. unfold item.
  destruct (login_info !! lit "device_type") as [device_type|].
  2:{ apply after_raise. left. split; reflexivity. }
  apply after_ret.
  destruct (match device_type with VStr k => cmds_dict !! k | _ => None end)
    as [[|c cmds]|].
  - apply after_log. auto.
  - apply after_bind.
    eapply after_weaken; [apply printing_run_commands_summary|].
    intros r w2 [(b & ->) | (e & -> & He)]; [apply after_ret; exact I|].
    right. now right.
  - apply after_log. auto.
Qed.

(** [inspection] always ends, and what it raises comes from outside the
    handled part of the loop body: a record without its host or
    device_type key, [find_prompt], or the console print. *)
Lemma printing_inspection_raises (stdout : world -> pystr -> option exn)
    (login_info : gmap pystr pyval) (cmds_dict : gmap pystr (list pyval))
    (flag : pystr) (w : world) :
  after (Printing.inspection stdout login_info cmds_dict flag) w
    (fun r _ =>
       match r with
       | Ok _ => True
       | Raise e =>
           (login_info !! lit "host" = None /\ e = KeyError (lit "host"))
           \/ (login_info !! lit "device_type" = None /\
               e = KeyError (lit "device_type"))
           \/ prompt_result w = inl e
           \/ console_raised stdout flag e
       | OutOfFuel => False
       end).
Proof.
  unfold Printing.inspection. apply after_bind, after_time.
  destruct (login_info !! lit "host") as [h|].
  2:{ apply after_raise. left. split; reflexivity. }
  unfold Printing.inspection_body.
  apply after_bind, after_attempt.
  eapply after_weaken; [apply open_session_static|].
  intros r w1 [Hr Hp1].
  assert (Hrel : forall bound w0,
             after (release flag (py_str h) (now w) bound) w0
               (fun c _ => c = Ok tt)).
  { intros bound w0. destruct (release_returns flag (py_str h) (now w) bound w0)
      as [w' E]. unfold after. now rewrite E. }
  destruct r as [u|e|]; [| |now destruct Hr].
  - apply after_bind, after_attempt.
    apply after_weaken with
      (p := fun r w2 => r <> OutOfFuel /\ prompt_result w2 = prompt_result w1).
    { destruct (secret_set login_info).
      - unfold after, ssh_enable.
        destruct (enable_result w1); simpl; split; try discriminate; reflexivity.
      - apply after_ret. split; [discriminate | reflexivity]. }
    intros r w2 [Hr2 Hp2].
    destruct r as [u2|e|]; [| |now destruct Hr2].
    + apply after_finally.
      eapply after_weaken; [apply printing_inspect_connected_raises|].
      intros r w3 H3.
      destruct r as [u3|e|]; [| |destruct H3].
      * eapply after_weaken; [apply Hrel|]. now intros c w4 ->.
      * eapply after_weaken; [apply Hrel|]. intros c w4 ->.
        right. rewrite Hp2, Hp1 in H3. exact H3.
    + apply after_bind, after_log. intros w3 _ _.
      eapply after_weaken; [apply Hrel|]. now intros c w4 ->.
  - apply after_bind, after_log. intros w3 _ _.
    eapply after_weaken; [apply Hrel|]. now intros c w4 ->.
Qed.


(** The commands of the device type used in the examples. *)
Definition two_commands : gmap pystr (list pyval) :=
  {[ lit "hp_comware" := [VStr (lit "display version"); VStr (lit "display clock")] ]}.


(** X11. The task returns normally whenever the prompt can be read and
    the console does not get in the way.  For a record with its host and
    device_type keys, if [find_prompt] does not raise, [inspection]
    raises nothing but what the console print of a command's output
    raises, which needs real-time output on; with output off, or a
    console that takes every text, it returns normally, whatever the
    connection, the enable step, the commands and the disconnect do. *)
Theorem task_returns_when_prompt_is_read
    (stdout : world -> pystr -> option exn)
    (login_info : gmap pystr pyval) (cmds_dict : gmap pystr (list pyval))
    (flag : pystr) (w : world) (p : pystr) :
  login_info !! lit "host" <> None ->
  login_info !! lit "device_type" <> None ->
  prompt_result w = inr p ->
  match fst (Printing.inspection stdout login_info cmds_dict flag w) with
  | Ok _ => True
  | Raise e =>
      py_eqb flag (lit "y") = true /\ exists w0 text, stdout w0 text = Some e
  | OutOfFuel => False
  end /\
  ((py_eqb flag (lit "y") = false \/ (forall w0 text, stdout w0 text = None)) ->
   fst (Printing.inspection stdout login_info cmds_dict flag w) = Ok tt).
Proof.
  intros Hhost Hdt Hp.
  pose proof (printing_inspection_raises stdout login_info cmds_dict flag w) as H.
  unfold after in H.
  destruct (fst (Printing.inspection stdout login_info cmds_dict flag w))
    as [[]|e|]; [split; auto | | destruct H].
  assert (He : console_raised stdout flag e).
  { destruct H as [[Hn _] | [[Hn _] | [Hpr | Hc]]];
      [contradiction | contradiction | congruence | exact Hc]. }
  split; [exact He|].
  intros Hsafe. exfalso. exact (console_safe_never_raised stdout flag e Hsafe He).
Qed.

Lemma task_returns_when_prompt_is_read_witness :
  fst (Printing.inspection (fun _ _ => None) complete_device two_commands (lit "y")
         (session_at 0 (script [ says (lit "H3C Comware") 1 ])))
  = Ok tt.
Proof.
  apply (task_returns_when_prompt_is_read (fun _ _ => None) complete_device
           two_commands (lit "y")
           (session_at 0 (script [ says (lit "H3C Comware") 1 ])) (lit "<sw1>")).
  - vm_compute. discriminate.
  - vm_compute. discriminate.
  - reflexivity.
  - right. reflexivity.
Defined.

(** ** The command loop on a closed channel *)




(** ** The fallback after an engine failure *)

(** X13. When [handle_pagination] raises, the command is written once more,
    read with the allotted timeout (not the enlarged one), and that is
    all: the reply of that one exchange is the command's output, or the
    empty string when it raises too; an unrecognized-command reply makes
    the loop continue with the next command. *)
Theorem fallback_resends_once
    (flag host cmd : pystr) (t : Q) (w w1 : world) (e : exn) :
  handle_pagination (VStr cmd) t DEFAULT_MAX_PAGE flag w = (Raise e, w1) ->
  let base := match reply (device w1 (cursor w1)) with
              | inr out => out
              | inl _ => []
              end in
  exists w',
    run_command flag host cmd t w
    = (Ok (if unrecognized base then inl Continue else inr base), w') /\
    sent w' = sent w1 ++ [(cmd, t)] /\
    cursor w' = S (cursor w1) /\
    disconnects w' = disconnects w1.
Proof.
  intros E base. subst base. unfold run_command.
  unfold try_except at 1. unfold bind at 1. unfold try_except at 1. rewrite E.
  unfold bind at 1. cbn [log_message].
  unfold bind at 1. unfold try_except at 1. unfold send_command_timing.
  cbn [device cursor reply now remote_conn sent connects enables disconnects
       connect_result enable_result prompt_result disconnect_result log].
  destruct (reply (device w1 (cursor w1))) as [e2|base];
    unfold bind, debug, log_message, ret;
    cbn [device cursor reply now remote_conn sent connects enables disconnects
         connect_result enable_result prompt_result disconnect_result log _safe_str];
    destruct (py_eqb flag (lit "y"));
    cbn [device cursor reply now remote_conn sent connects enables disconnects
         connect_result enable_result prompt_result disconnect_result log];
    match goal with
    | |- context [unrecognized ?s] => destruct (unrecognized s)
    end;
    cbn [device cursor reply now remote_conn sent connects enables disconnects
         connect_result enable_result prompt_result disconnect_result log];
    eexists; repeat apply conj; reflexivity.
Qed.

Lemma fallback_resends_once_witness :
  let boom := MkExn (lit "ReadTimeout") (lit "Pattern not detected") false false false in
  let w := session_at 0 (script [ MkExchange (inl boom) 10 None;
                                  says (lit "uptime is 3 weeks") 1 ]) in
  exists w',
    run_command (lit "n") (lit "sw1") (lit "display version") 10 w
    = (Ok (inr (lit "uptime is 3 weeks")), w') /\
    sent w' = [(lit "display version", 10%Q); (lit "display version", 10%Q)].
Proof.
  intros boom w.
  destruct (fallback_resends_once (lit "n") (lit "sw1") (lit "display version") 10 w
              (snd (handle_pagination (VStr (lit "display version")) 10
                      DEFAULT_MAX_PAGE (lit "n") w))
              boom)
    as (w' & E & Hs & _).
  - vm_compute. reflexivity.
  - exists w'. split; [exact E | exact Hs].
Defined.

(** ** The scheduler's validation loop *)

(** No required field of the record is reported missing. *)
Definition complete (device_info : gmap pystr pyval) : bool :=
  match missing_fields device_info with
  | [] => true
  | _ :: _ => false
  end.

(** The record handed to the task: a copy with the connection timeout. *)
Definition with_conn_timeout (device_info : gmap pystr pyval) : gmap pystr pyval :=
  <[ lit "conn_timeout" := VOther (lit "15") true ]> device_info.

Definition host_of (device_info : gmap pystr pyval) : pystr :=
  py_str (py_get device_info (lit "host")).

(** The line the loop logs for a record. *)
Definition validation_line (device_info : gmap pystr pyval) : level * event :=
  if complete device_info then (Info, TaskSubmitted (host_of device_info))
  else (Warning, SkippedIncomplete (missing_fields device_info) device_info).

Lemma submit_devices_partition (devices_info : list (gmap pystr pyval)) :
  forall p : pool,
    (forall d, In d devices_info -> d !! lit "host" <> None) ->
    submit_devices devices_info p
    = (Ok tt,
       MkPool
         (submitted p ++ List.map with_conn_timeout (List.filter complete devices_info))
         (futures p ++ List.map host_of (List.filter complete devices_info))
         (main_log p ++ List.map validation_line devices_info)).
Proof.
  induction devices_info as [|d rest IH]; intros p Hhost.
  - destruct p. cbn. now rewrite !app_nil_r.
  - assert (Hrest : forall d', In d' rest -> d' !! lit "host" <> None).
    { intros d' Hd'. apply Hhost. now right. }
    cbn [submit_devices].
    destruct (missing_fields d) as [|m ms] eqn:Hm.
    + destruct (d !! lit "host") as [h|] eqn:Eh;
        [|exfalso; apply (Hhost d); [now left | exact Eh]].
      assert (Hc : complete d = true) by (unfold complete; now rewrite Hm).
      assert (Hh : host_of d = py_str h)
        by (unfold host_of, py_get; now rewrite Eh).
      rewrite (IH _ Hrest). cbn [submitted futures main_log List.filter List.map].
      rewrite Hc. cbn [List.map].
      unfold validation_line at 2. rewrite Hc, Hh.
      fold (with_conn_timeout d). rewrite <- !app_assoc. reflexivity.
    + assert (Hc : complete d = false) by (unfold complete; now rewrite Hm).
      rewrite (IH _ Hrest). cbn [submitted futures main_log List.filter List.map].
      rewrite Hc. unfold validation_line at 2. rewrite Hc, Hm.
      rewrite <- !app_assoc. reflexivity.
Qed.

(** X14. The validation loop splits the device table in two.  Provided every
    record has a host key, the loop never raises, and in table order:
    the records with no required field blank are submitted, each as a
    copy carrying conn_timeout = 15 and otherwise unchanged, with one
    future and one submitted line each; every other record gets one
    warning line and no task.  Nothing is submitted twice and no record
    is left without a line. *)
Theorem validation_splits_the_table
    (devices_info : list (gmap pystr pyval)) (p : pool) :
  (forall d, In d devices_info -> d !! lit "host" <> None) ->
  exists p',
    submit_devices devices_info p = (Ok tt, p') /\
    submitted p'
    = submitted p ++ List.map with_conn_timeout (List.filter complete devices_info) /\
    futures p' = futures p ++ List.map host_of (List.filter complete devices_info) /\
    main_log p' = main_log p ++ List.map validation_line devices_info /\
    (forall d k, k <> lit "conn_timeout" -> with_conn_timeout d !! k = d !! k) /\
    (forall d, with_conn_timeout d !! lit "conn_timeout" = Some (VOther (lit "15") true)) /\
    (length (submitted p') - length (submitted p)
     + length (List.filter (fun d => negb (complete d)) devices_info)
     = length devices_info)%nat.
Proof.
  intros Hhost. eexists. split; [apply submit_devices_partition, Hhost|].
  cbn [submitted futures main_log]. repeat apply conj; try reflexivity.
  - intros d k Hk. unfold with_conn_timeout. apply lookup_insert_ne. congruence.
  - intros d. unfold with_conn_timeout. apply lookup_insert_eq.
  - rewrite length_app, length_map.
    replace (length (submitted p) + length (List.filter complete devices_info)
             - length (submitted p))%nat
      with (length (List.filter complete devices_info)) by lia.
    clear Hhost. induction devices_info as [|d rest IH]; [reflexivity|].
    cbn [List.filter length]. destruct (complete d); cbn [negb length]; lia.
Qed.

(** A record whose port is blank. *)
Definition device_with_blank_port : gmap pystr pyval :=
  list_to_map
    [ (lit "device_type", VStr (lit "hp_comware"));
      (lit "host", VStr (lit "sw2"));
      (lit "ip", VStr (lit "10.0.0.2"));
      (lit "username", VStr (lit "admin"));
      (lit "port", VStr []) ].

Lemma validation_splits_the_table_witness :
  exists p',
    submit_devices [device_with_blank_port; complete_device] empty_pool = (Ok tt, p') /\
    futures p' = [lit "sw1"].
Proof.
  destruct (validation_splits_the_table [device_with_blank_port; complete_device]
              empty_pool)
    as (p' & E & _ & Hf & _).
  - intros d [<-|[<-|[]]]; vm_compute; discriminate.
  - exists p'. split; [exact E|]. rewrite Hf. vm_compute. reflexivity.
Defined.

(** ** The run summary *)

(** What one line adds to the set of abnormal devices. *)
Definition contribution (line : pystr) : gset pystr := note_error_device line ∅.

Lemma note_error_device_union (line : pystr) (error_devices : gset pystr) :
  note_error_device line error_devices = contribution line ∪ error_devices.
Proof.
  unfold contribution, note_error_device.
  repeat match goal with
         | |- context [if ?b then _ else _] => destruct b
         end;
    now rewrite ?(right_id_L ∅ (∪)), ?(left_id_L ∅ (∪)).
Qed.

Lemma collect_from (lines : list pystr) (acc : gset pystr) :
  fold_left (fun error_devices line => note_error_device line error_devices)
    lines acc
  = collect_error_devices lines ∪ acc.
Proof.
  unfold collect_error_devices. revert acc.
  induction lines as [|line rest IH]; intros acc; cbn [fold_left].
  - now rewrite (left_id_L ∅ (∪)).
  - rewrite (IH (note_error_device line acc)), (IH (note_error_device line ∅)).
    rewrite (note_error_device_union line acc).
    fold (contribution line). now rewrite (assoc_L (∪)).
Qed.

Lemma collect_cons (line : pystr) (rest : list pystr) :
  collect_error_devices (line :: rest)
  = collect_error_devices rest ∪ contribution line.
Proof.
  unfold collect_error_devices at 1. cbn [fold_left].
  now rewrite collect_from.
Qed.

Lemma elem_of_collect (d : pystr) (lines : list pystr) :
  d ∈ collect_error_devices lines <->
  exists line, In line lines /\ d ∈ contribution line.
Proof.
  induction lines as [|line rest IH].
  - unfold collect_error_devices. cbn [fold_left]. rewrite elem_of_empty.
    split; [intros [] | now intros (? & [] & _)].
  - rewrite collect_cons, elem_of_union, IH. split.
    + intros [(l & Hin & Hd) | Hd]; [exists l | exists line]; split; auto;
        [now right | now left].
    + intros (l & [<- | Hin] & Hd); [now right | left; eauto].
Qed.

Lemma contribution_cases (line : pystr) :
  contribution line = ∅ \/
  any_in ERROR_KEYWORDS line = true /\
  ((5 <= length (py_split line))%nat /\
   nth 3 (py_split line) [] = lit "设备" /\
   contribution line = {[ nth 4 (py_split line) [] ]}
   \/
   (4 <= length (py_split line))%nat /\
   py_startswith (nth 2 (py_split line) []) (lit "设备") = true /\
   contribution line = {[ nth 3 (py_split line) [] ]}).
Proof.
  unfold contribution, note_error_device.
  destruct (any_in ERROR_KEYWORDS line); cbn [negb andb];
    [|rewrite andb_false_r; now left].
  replace (negb (length ERROR_KEYWORDS =? 0)%nat) with true by reflexivity.
  cbn [andb].
  destruct (5 <=? length (py_split line))%nat eqn:H5; cbn [andb].
  - destruct (py_eqb (nth 3 (py_split line) []) (lit "设备")) eqn:H3.
    + right. split; [reflexivity|]. left.
      apply Nat.leb_le in H5. apply py_eqb_true in H3.
      repeat apply conj; auto. apply (right_id_L ∅ (∪)).
    + destruct (4 <=? length (py_split line))%nat eqn:H4; cbn [andb]; [|now left].
      destruct (py_startswith _ _) eqn:H2; [|now left].
      right. split; [reflexivity|]. right.
      apply Nat.leb_le in H4. repeat apply conj; auto. apply (right_id_L ∅ (∪)).
  - destruct (4 <=? length (py_split line))%nat eqn:H4; cbn [andb]; [|now left].
    destruct (py_startswith _ _) eqn:H2; [|now left].
    right. split; [reflexivity|]. right.
    apply Nat.leb_le in H4. repeat apply conj; auto. apply (right_id_L ∅ (∪)).
Qed.

Lemma contribution_size (line : pystr) :
  (size (contribution line) <= if any_in ERROR_KEYWORDS line then 1 else 0)%nat.
Proof.
  destruct (contribution_cases line) as [-> | [-> [(_ & _ & ->) | (_ & _ & ->)]]].
  - rewrite size_empty. lia.
  - now rewrite size_singleton.
  - now rewrite size_singleton.
Qed.

(** X15. The count of abnormal devices is sound.  Every device name in the
    set was read off a line of the log that contains an error keyword: it
    is the fifth word of a line whose fourth word is the device tag, or
    the fourth word of a line whose third word starts with the tag.  The
    count is at most the number of lines with a keyword, a log without
    such lines gives zero, and the set does not depend on the order in
    which the tasks wrote their lines. *)
Theorem run_summary_is_sound (lines : list pystr) :
  (forall d, d ∈ collect_error_devices lines ->
     exists line,
       In line lines /\ any_in ERROR_KEYWORDS line = true /\
       ((5 <= length (py_split line))%nat /\
        nth 3 (py_split line) [] = lit "设备" /\ d = nth 4 (py_split line) []
        \/
        (4 <= length (py_split line))%nat /\
        py_startswith (nth 2 (py_split line) []) (lit "设备") = true /\
        d = nth 3 (py_split line) [])) /\
  (file_lines lines <= length (List.filter (any_in ERROR_KEYWORDS) lines))%nat /\
  (forall more, collect_error_devices (lines ++ more)
                = collect_error_devices lines ∪ collect_error_devices more) /\
  (forall lines', Permutation lines lines' ->
                  collect_error_devices lines' = collect_error_devices lines).
Proof.
  repeat apply conj.
  - intros d Hd. apply elem_of_collect in Hd as (line & Hin & Hd).
    exists line. split; [exact Hin|].
    destruct (contribution_cases line) as [E | [Hk [(H5 & H3 & E) | (H4 & H2 & E)]]];
      rewrite E in Hd.
    + now apply elem_of_empty in Hd.
    + split; [exact Hk|]. left. apply elem_of_singleton in Hd. auto.
    + split; [exact Hk|]. right. apply elem_of_singleton in Hd. auto.
  - unfold file_lines. induction lines as [|line rest IH]; [reflexivity|].
    rewrite collect_cons. cbn [List.filter].
    pose proof (contribution_size line) as Hs.
    pose proof (size_union_alt (collect_error_devices rest) (contribution line)) as Hu.
    pose proof (size_difference_alt (contribution line)
                  (collect_error_devices rest)) as Hsub.
    destruct (any_in ERROR_KEYWORDS line); cbn [length]; lia.
  - intros more. apply set_eq. intros d.
    rewrite elem_of_union, !elem_of_collect. split.
    + intros (l & Hin & Hd). apply in_app_or in Hin as [Hin|Hin]; eauto.
    + intros [(l & Hin & Hd) | (l & Hin & Hd)]; exists l; split; auto;
        apply in_or_app; auto.
  - intros lines' Hperm. apply set_eq. intros d. rewrite !elem_of_collect.
    split; intros (l & Hin & Hd); exists l; split; auto.
    + eapply Permutation_in; [symmetry; exact Hperm | exact Hin].
    + eapply Permutation_in; [exact Hperm | exact Hin].
Qed.

(** *** Lines as [log_message] writes them *)

(** A word: not empty, no whitespace in it. *)
Definition is_word (x : pystr) : bool :=
  negb (py_eqb x []) && forallb (fun c => negb (py_isspace c)) x.

Lemma split_go_solid (x s acc : pystr) :
  forallb (fun c => negb (py_isspace c)) x = true ->
  py_split_go (x ++ s) acc = py_split_go s (acc ++ x).
Proof.
  revert acc. induction x as [|c x IH]; intros acc Hx.
  - now rewrite app_nil_r.
  - cbn [forallb] in Hx. apply andb_prop in Hx as [Hc Hx].
    apply negb_true_iff in Hc. cbn [app py_split_go]. rewrite Hc.
    rewrite (IH _ Hx). now rewrite <- app_assoc.
Qed.

(** The first word of a text and the rest of it. *)
Lemma split_word (x s : pystr) (c : N) :
  is_word x = true -> py_isspace c = true ->
  py_split (x ++ c :: s) = x :: py_split s.
Proof.
  unfold is_word, py_split. intros Hx Hc. apply andb_prop in Hx as [Hne Hx].
  rewrite (split_go_solid _ _ _ Hx). cbn [app py_split_go]. rewrite Hc.
  destruct x; [discriminate Hne | reflexivity].
Qed.

Lemma levelname_word (lvl : level) :
  is_word ([91%N] ++ levelname lvl ++ [93%N]) = true.
Proof. destruct lvl; vm_compute; reflexivity. Qed.

(** The words of a log line whose message starts with the device tag and
    a host name. *)
Lemma device_line_words (date time host rest : pystr) (lvl : level) :
  is_word date = true -> is_word time = true -> is_word host = true ->
  py_split (log_line date time lvl (lit "设备 " ++ host ++ lit " " ++ rest))
  = date :: time :: ([91%N] ++ levelname lvl ++ [93%N]) :: lit "设备" :: host
      :: py_split (rest ++ [10%N]).
Proof.
  intros Hd Ht Hh. unfold log_line.
  change (lit " ") with [32%N].
  change (lit " [") with ([32%N] ++ [91%N]).
  change (lit "] ") with ([93%N] ++ [32%N]).
  change (lit "设备 ") with (lit "设备" ++ [32%N]).
  replace (date ++ [32%N] ++ time ++ ([32%N] ++ [91%N]) ++ levelname lvl
           ++ ([93%N] ++ [32%N])
           ++ ((lit "设备" ++ [32%N]) ++ host ++ [32%N] ++ rest) ++ [10%N])
    with (date ++ 32%N :: (time ++ 32%N ::
            (([91%N] ++ levelname lvl ++ [93%N]) ++ 32%N ::
               (lit "设备" ++ 32%N :: (host ++ 32%N :: (rest ++ [10%N]))))))
    by (rewrite <- !app_assoc; reflexivity).
  rewrite (split_word date _ 32%N Hd eq_refl).
  rewrite (split_word time _ 32%N Ht eq_refl).
  rewrite (split_word _ _ 32%N (levelname_word lvl) eq_refl).
  rewrite (split_word (lit "设备") _ 32%N eq_refl eq_refl).
  rewrite (split_word host _ 32%N Hh eq_refl).
  reflexivity.
Qed.

Lemma device_line_noted (date time host rest : pystr) (lvl : level)
    (error_devices : gset pystr) :
  is_word date = true -> is_word time = true -> is_word host = true ->
  any_in ERROR_KEYWORDS
    (log_line date time lvl (lit "设备 " ++ host ++ lit " " ++ rest)) = true ->
  note_error_device
    (log_line date time lvl (lit "设备 " ++ host ++ lit " " ++ rest)) error_devices
  = {[ host ]} ∪ error_devices.
Proof.
  intros Hd Ht Hh Hk. unfold note_error_device.
  rewrite Hk, (device_line_words _ _ _ _ _ Hd Ht Hh).
  replace (negb (length ERROR_KEYWORDS =? 0)%nat) with true by reflexivity.
  cbn [andb length nth Nat.leb]. now rewrite py_eqb_refl.
Qed.

(** X16. A device line with an error keyword is counted under its host.  For
    a line of the log file in the configured format (date, time of day,
    bracketed level, message) whose message is the device tag, the host
    name and more text, and which contains an error keyword, the host is
    added to the set of abnormal devices, and it is in the final set
    wherever in the log the line stands. *)
Theorem device_line_is_counted
    (date time host rest : pystr) (lvl : level)
    (before after_ : list pystr) :
  is_word date = true -> is_word time = true -> is_word host = true ->
  any_in ERROR_KEYWORDS
    (log_line date time lvl (lit "设备 " ++ host ++ lit " " ++ rest)) = true ->
  let line := log_line date time lvl (lit "设备 " ++ host ++ lit " " ++ rest) in
  (forall error_devices,
     note_error_device line error_devices = {[ host ]} ∪ error_devices) /\
  host ∈ collect_error_devices (before ++ line :: after_) /\
  (1 <= file_lines (before ++ line :: after_))%nat.
Proof.
  intros Hd Ht Hh Hk line.
  assert (Hnote : forall error_devices,
             note_error_device line error_devices = {[ host ]} ∪ error_devices).
  { intros S. now apply device_line_noted. }
  assert (Hin : host ∈ collect_error_devices (before ++ line :: after_)).
  { apply elem_of_collect. exists line. split; [apply in_elt|].
    unfold contribution. rewrite Hnote.
    apply elem_of_union. left. now apply elem_of_singleton. }
  repeat apply conj; auto.
  unfold file_lines.
  pose proof (subseteq_size ({[ host ]} : gset pystr)
                (collect_error_devices (before ++ line :: after_))
                (proj2 (singleton_subseteq_l _ _) Hin)) as Hs.
  now rewrite size_singleton in Hs.
Qed.


Lemma device_line_is_counted_witness :
  let line := log_line (lit "2025-06-09") (lit "12:00:00,123") Error
                (lit "设备 " ++ lit "sw1" ++ lit " " ++ lit "用户名或密码认证失败！") in
  lit "sw1" ∈ collect_error_devices ([] ++ line :: []) /\
  (1 <= file_lines ([] ++ line :: []))%nat.
Proof.
  intros line.
  destruct (device_line_is_counted (lit "2025-06-09") (lit "12:00:00,123") (lit "sw1")
              (lit "用户名或密码认证失败！") Error [] [])
    as (_ & Hin & Hn).
  - vm_compute. reflexivity.
  - vm_compute. reflexivity.
  - vm_compute. reflexivity.
  - vm_compute. reflexivity.
  - split; [exact Hin | exact Hn].
Defined.

(** *** Failed logins in the summary *)

(** The failure classes whose log line contains an error keyword. *)
Definition counted_failure (why : connect_failure) : bool :=
  match why with
  | NoResponse | Unreachable | AuthFailure
  | EnableAuthFailure | EnableAuthFailureReadTimeout => true
  | _ => false
  end.

Lemma keyword_in (kw : pystr) :
  py_elem kw ERROR_KEYWORDS = true -> In kw ERROR_KEYWORDS.
Proof.
  unfold py_elem. intros H. apply existsb_exists in H as (y & Hin & Hy).
  apply py_eqb_true in Hy. now subst y.
Qed.

Lemma in_keyword_line (kw a text : pystr) :
  In kw ERROR_KEYWORDS -> py_in kw text = true ->
  any_in ERROR_KEYWORDS (a ++ text ++ [10%N]) = true.
Proof.
  intros Hin Hkw. unfold any_in. apply existsb_exists. exists kw.
  split; [exact Hin|]. apply in_app_r, in_app_l, Hkw.
Qed.

(** [split] of a text with a whitespace character in it. *)
Lemma split_go_app_space (x s acc : pystr) (c : N) :
  py_isspace c = true ->
  py_split_go (x ++ c :: s) acc = py_split_go x acc ++ py_split_go s [].
Proof.
  intros Hc. revert acc. induction x as [|d x IH]; intros acc.
  - cbn [app py_split_go]. rewrite Hc. now destruct acc.
  - cbn [app py_split_go]. destruct (py_isspace d).
    + destruct acc; [apply IH|]. rewrite IH. reflexivity.
    + apply IH.
Qed.

Lemma split_app_space (x s : pystr) (c : N) :
  py_isspace c = true -> py_split (x ++ c :: s) = py_split x ++ py_split s.
Proof. intros Hc. unfold py_split. now apply split_go_app_space. Qed.

Lemma split_alone (x : pystr) : is_word x = true -> py_split x = [x].
Proof.
  unfold is_word, py_split. intros Hx. apply andb_prop in Hx as [Hne Hx].
  rewrite <- (app_nil_r x) at 1. rewrite (split_go_solid _ _ _ Hx).
  cbn [app py_split_go]. destruct x; [discriminate Hne | reflexivity].
Qed.

(** The words of a device line, for any host name. *)
Lemma device_line_host_words (date time host rest : pystr) (lvl : level) :
  is_word date = true -> is_word time = true ->
  py_split (log_line date time lvl (lit "设备 " ++ host ++ lit " " ++ rest))
  = date :: time :: ([91%N] ++ levelname lvl ++ [93%N]) :: lit "设备"
      :: py_split host ++ py_split (rest ++ [10%N]).
Proof.
  intros Hd Ht. unfold log_line.
  change (lit " ") with [32%N].
  change (lit " [") with ([32%N] ++ [91%N]).
  change (lit "] ") with ([93%N] ++ [32%N]).
  change (lit "设备 ") with (lit "设备" ++ [32%N]).
  replace (date ++ [32%N] ++ time ++ ([32%N] ++ [91%N]) ++ levelname lvl
           ++ ([93%N] ++ [32%N])
           ++ ((lit "设备" ++ [32%N]) ++ host ++ [32%N] ++ rest) ++ [10%N])
    with (date ++ 32%N :: (time ++ 32%N ::
            (([91%N] ++ levelname lvl ++ [93%N]) ++ 32%N ::
               (lit "设备" ++ 32%N :: (host ++ 32%N :: (rest ++ [10%N]))))))
    by (rewrite <- !app_assoc; reflexivity).
  rewrite (split_word date _ 32%N Hd eq_refl).
  rewrite (split_word time _ 32%N Ht eq_refl).
  rewrite (split_word _ _ 32%N (levelname_word lvl) eq_refl).
  rewrite (split_word (lit "设备") _ 32%N eq_refl eq_refl).
  rewrite (split_app_space host _ 32%N eq_refl).
  reflexivity.
Qed.

(** X17. A failed login whose class is one of no response, unreachable,
    authentication failure and the two enable-password failures is
    counted as an abnormal device: the line [inspection] logs for it
    carries an error keyword, whatever the host name is, and the run
    summary records the first word of the host name.  That is the host
    itself when the name holds no whitespace; of a name with whitespace
    in it only the part before the first whitespace is recorded.  The
    host is not blank; date and time are words without whitespace. *)
Theorem failed_login_is_counted
    (date time host hw : pystr) (more : list pystr) (lvl : level)
    (why : connect_failure) (error_devices : gset pystr) :
  is_word date = true -> is_word time = true ->
  py_split host = hw :: more ->
  counted_failure why = true ->
  let line := log_line date time lvl (render_connect_failure host why) in
  any_in ERROR_KEYWORDS line = true /\
  note_error_device line error_devices = {[ hw ]} ∪ error_devices /\
  (is_word host = true -> hw = host /\ more = []).
Proof.
  intros Hd Ht Hsplit Hwhy line. subst line.
  assert (Hshape : exists rest kw,
             render_connect_failure host why
             = lit "设备 " ++ host ++ lit " " ++ rest /\
             In kw ERROR_KEYWORDS /\ py_in kw rest = true).
  { destruct why; try discriminate Hwhy; cbn [render_connect_failure].
    - exists (lit "未响应（可能未开机或网络不可达）"), (lit "不可达").
      replace (lit " 未响应（可能未开机或网络不可达）") with (lit " " ++ lit "未响应（可能未开机或网络不可达）")
        by (vm_compute; reflexivity).
      split; [reflexivity|].
      split; [apply keyword_in|]; vm_compute; reflexivity.
    - exists (lit "管理地址或端口不可达！"), (lit "不可达").
      replace (lit " 管理地址或端口不可达！") with (lit " " ++ lit "管理地址或端口不可达！")
        by (vm_compute; reflexivity).
      split; [reflexivity|].
      split; [apply keyword_in|]; vm_compute; reflexivity.
    - exists (lit "用户名或密码认证失败！"), (lit "认证失败").
      replace (lit " 用户名或密码认证失败！") with (lit " " ++ lit "用户名或密码认证失败！")
        by (vm_compute; reflexivity).
      split; [reflexivity|].
      split; [apply keyword_in|]; vm_compute; reflexivity.
    - exists (lit "Enable密码认证失败！"), (lit "认证失败").
      replace (lit " Enable密码认证失败！") with (lit " " ++ lit "Enable密码认证失败！")
        by (vm_compute; reflexivity).
      split; [reflexivity|].
      split; [apply keyword_in|]; vm_compute; reflexivity.
    - exists (lit "Enable密码认证失败！（ReadTimeout）"), (lit "认证失败").
      replace (lit " Enable密码认证失败！（ReadTimeout）") with (lit " " ++ lit "Enable密码认证失败！（ReadTimeout）")
        by (vm_compute; reflexivity).
      split; [reflexivity|].
      split; [apply keyword_in|]; vm_compute; reflexivity. }
  destruct Hshape as (rest & kw & -> & Hkw & Hin).
  assert (Hk : any_in ERROR_KEYWORDS
                 (log_line date time lvl (lit "设备 " ++ host ++ lit " " ++ rest))
               = true).
  { unfold log_line.
    replace (date ++ lit " " ++ time ++ lit " [" ++ levelname lvl ++ lit "] "
             ++ (lit "设备 " ++ host ++ lit " " ++ rest) ++ [10%N])
      with ((date ++ lit " " ++ time ++ lit " [" ++ levelname lvl ++ lit "] "
             ++ lit "设备 " ++ host ++ lit " ") ++ rest ++ [10%N])
      by (now rewrite <- !app_assoc).
    eapply in_keyword_line; eauto. }
  split; [exact Hk|]. split.
  - unfold note_error_device.
    rewrite Hk, (device_line_host_words _ _ _ _ _ Hd Ht), Hsplit.
    replace (negb (length ERROR_KEYWORDS =? 0)%nat) with true by reflexivity.
    cbn [andb app length nth Nat.leb]. now rewrite py_eqb_refl.
  - intros Hh. rewrite (split_alone _ Hh) in Hsplit.
    injection Hsplit as <- <-. split; reflexivity.
Qed.

Lemma failed_login_is_counted_witness :
  note_error_device
    (log_line (lit "2025-06-09") (lit "12:00:00,123") Error
       (render_connect_failure (lit "core sw1") AuthFailure)) ∅
  = {[ lit "core" ]} ∪ ∅.
Proof.
  apply (failed_login_is_counted (lit "2025-06-09") (lit "12:00:00,123")
           (lit "core sw1") (lit "core") [lit "sw1"] Error AuthFailure ∅).
  - vm_compute. reflexivity.
  - vm_compute. reflexivity.
  - vm_compute. reflexivity.
  - reflexivity.
Defined.

(** ** Reading the tables *)

(** *** The encrypted workbook *)





(** A right password and two good sheets, with a pandas that has no
    [applymap]: one prompt, exit code 1; with the method the cleaned
    tables are returned. *)
Example missing_applymap_exits :
  let no_method := MkExn (lit "AttributeError")
                     (lit "'DataFrame' object has no attribute 'applymap'")
                     false false true in
  let sheets := Loaded [ {[ lit "host" := VStr (lit " sw1 ") ]} ] ∅ in
  read_encrypted_file (Some no_method) 3 (fun _ => Opened sheets)
  = Some (SysExit 1, 1%nat) /\
  read_encrypted_file None 3 (fun _ => Opened sheets)
  = Some (Tables [ {[ lit "host" := VStr (lit "sw1") ]} ] ∅, 1%nat).
Proof.
  split; [reflexivity|].
  unfold read_encrypted_file. cbn [read_encrypted_loop Z.to_nat Pos.to_nat].
  cbn -[lit]. unfold clean_devices, clean_cmds. cbn [List.map].
  rewrite map_fmap_singleton, fmap_empty. reflexivity.
Qed.

(** *** The tables that are returned *)

(** A cleaned cell: a string that [strip] and the removal of control
    characters leave as it is. *)
Definition clean_value (v : pyval) : Prop :=
  exists s, v = VStr s /\ py_strip s = s /\ strip_controls s = s.

Lemma clean_cell_clean (x : pyval) : clean_value (clean_cell x).
Proof.
  exists (_strip_or_empty x). split; [reflexivity|].
  apply strip_or_empty_clean_parts.
Qed.

(** X19. The tables returned are cleaned and have the shape of the
    sheets.  When [read_unencrypted_file] returns tables, both sheets
    were loaded; the device table has one record per row with the same
    keys, the command table has the same columns of the same lengths, and
    every cell of both is a string without carriage return, line feed or
    tab and without whitespace at either end. *)
Theorem returned_tables_are_clean
    (l : load_result) (devices_dict : list (gmap pystr pyval))
    (cmds_dict : gmap pystr (list pyval)) :
  read_unencrypted_file l = inr (Tables devices_dict cmds_dict) ->
  exists devices cmds,
    l = Loaded devices cmds /\
    devices_dict = clean_devices devices /\ cmds_dict = clean_cmds cmds /\
    Forall2 (fun record cleaned =>
               dom cleaned = dom record /\
               forall k v, cleaned !! k = Some v -> clean_value v)
      devices devices_dict /\
    dom cmds_dict = dom cmds /\
    (forall k lst, cmds !! k = Some lst ->
       exists out, cmds_dict !! k = Some out /\
                   length out = length lst /\
                   List.Forall clean_value out).
Proof.
  intros E. destruct l as [| |e|devices cmds]; try discriminate E.
  injection E as <- <-. exists devices, cmds.
  repeat apply conj; try reflexivity.
  - unfold clean_devices. induction devices as [|record rest IH]; constructor; auto.
    split; [apply dom_fmap_L|].
    intros k v Hv. rewrite lookup_fmap in Hv.
    destruct (record !! k) as [x|]; [|discriminate Hv].
    injection Hv as <-. apply clean_cell_clean.
  - unfold clean_cmds. apply dom_fmap_L.
  - intros k lst Hk. unfold clean_cmds. rewrite lookup_fmap, Hk. cbn.
    eexists. split; [reflexivity|]. split; [now rewrite !length_map|].
    apply List.Forall_forall. intros v Hv.
    apply in_map_iff in Hv as (x & <- & _).
    exists (_strip_or_empty (VStr (_safe_str x))). split; [reflexivity|].
    apply strip_or_empty_clean_parts.
Qed.

Lemma returned_tables_are_clean_witness :
  exists devices cmds,
    Loaded [ {[ lit "host" := VStr (lit " sw1 ") ]} ] ∅ = Loaded devices cmds /\
    clean_devices [ {[ lit "host" := VStr (lit " sw1 ") ]} ] = clean_devices devices.
Proof.
  destruct (returned_tables_are_clean
              (Loaded [ {[ lit "host" := VStr (lit " sw1 ") ]} ] ∅)
              (clean_devices [ {[ lit "host" := VStr (lit " sw1 ") ]} ])
              (clean_cmds ∅))
    as (devices & cmds & E & Hd & _).
  - reflexivity.
  - exists devices, cmds. split; [exact E | exact Hd].
Defined.

(** ** The first continuation keystroke *)

(** [p in s or p.lower() in s.lower()] *)
Definition shows (s p : pystr) : bool :=
  py_in p s || py_in (py_lower p) (py_lower s).

(** The keystroke that answers output [s]: a space for one of the More
    markers, a newline otherwise. *)
Definition first_key (s : pystr) : pystr :=
  if shows s (lit "---- More ----") || shows s (lit "--More--")
     || shows s (lit "<--- More --->")
  then lit " " else [10%N].

Lemma first_marker_key (s pattern : pystr) :
  List.find (marker_in s) PAGINATION_PATTERNS = Some pattern ->
  keystroke pattern = first_key s.
Proof.
  unfold PAGINATION_PATTERNS, first_key, shows. cbn [List.find].
  unfold marker_in. cbv zeta.
  replace (clean_pattern (lit "---- More ----")) with (lit "---- More ----")
    by (vm_compute; reflexivity).
  replace (clean_pattern (lit "  ---- More ----  ")) with (lit "---- More ----")
    by (vm_compute; reflexivity).
  replace (clean_pattern (lit "---- More ----  ")) with (lit "---- More ----")
    by (vm_compute; reflexivity).
  replace (clean_pattern (lit "  ---- More ----")) with (lit "---- More ----")
    by (vm_compute; reflexivity).
  replace (clean_pattern (lit "--More--")) with (lit "--More--")
    by (vm_compute; reflexivity).
  replace (clean_pattern (lit "<--- More --->")) with (lit "<--- More --->")
    by (vm_compute; reflexivity).
  replace (clean_pattern (lit "<Press ENTER to continue>"))
    with (lit "<Press ENTER to continue>") by (vm_compute; reflexivity).
  destruct (py_in (lit "---- More ----") s
            || py_in (py_lower (lit "---- More ----")) (py_lower s));
    destruct (py_in (lit "--More--") s
              || py_in (py_lower (lit "--More--")) (py_lower s));
    destruct (py_in (lit "<--- More --->") s
              || py_in (py_lower (lit "<--- More --->")) (py_lower s));
    destruct (py_in (lit "<Press ENTER to continue>") s
              || py_in (py_lower (lit "<Press ENTER to continue>")) (py_lower s));
    intros H; vm_compute in H; try discriminate H;
    injection H as <-; vm_compute; reflexivity.
Qed.

(** X20. The first continuation keystroke follows the marker.  When the
    first reply of a paged command shows a pagination marker (and is not
    an unrecognized-command reply, the read timeout being positive), the
    second text written is the keystroke for it: a space if one of the
    More markers is in the reply, in any letter case and also when the
    ENTER prompt is there as well, and a newline if only the ENTER prompt
    is.  It is read with the same timeout as the command. *)
Theorem first_keystroke_follows_marker
    (cmd : pyval) (t : Q) (max_page : Z) (flag : pystr) (w : world) (s0 : pystr) :
  paged cmd = true ->
  reply (device w (cursor w)) = inr s0 ->
  unrecognized s0 = false ->
  marker_found s0 = true ->
  (0 < t)%Q ->
  exists rest,
    sent (snd (handle_pagination cmd t max_page flag w))
    = sent w ++ (_safe_str cmd, effective_timeout cmd t)
             :: (first_key s0, effective_timeout cmd t) :: rest.
Proof.
  intros Hpaged Hs0 Hu Hm Ht.
  change (after (handle_pagination cmd t max_page flag) w
            (fun _ w' =>
               exists rest,
                 sent w' = sent w ++ (_safe_str cmd, effective_timeout cmd t)
                                  :: (first_key s0, effective_timeout cmd t) :: rest)).
  assert (Hdone : forall r w',
             played w w' ([(_safe_str cmd, effective_timeout cmd t)]
                          ++ [(first_key s0, effective_timeout cmd t)]) ->
             match r : res (pystr * nat) with
             | Ok x =>
                 exists rest,
                   sent w' = sent w ++ (_safe_str cmd, effective_timeout cmd t)
                                    :: (first_key s0, effective_timeout cmd t) :: rest
             | Raise e =>
                 exists rest,
                   sent w' = sent w ++ (_safe_str cmd, effective_timeout cmd t)
                                    :: (first_key s0, effective_timeout cmd t) :: rest
             | OutOfFuel =>
                 exists rest,
                   sent w' = sent w ++ (_safe_str cmd, effective_timeout cmd t)
                                    :: (first_key s0, effective_timeout cmd t) :: rest
             end).
  { intros r w' Hp. pose proof (played_sent _ _ _ Hp) as Hs.
    destruct r as [x|e|]; exists []; exact Hs. }
  apply after_paged; [exact Hpaged|]. intros w1 Hq1.
  unfold standard_paging. apply after_bind, after_send. intros w2 Hp2.
  pose proof (quiet_then_played _ _ _ _ Hq1 Hp2) as Hp.
  rewrite (next_reply_quiet _ _ Hq1). unfold next_reply. rewrite Hs0.
  cbn [_safe_str]. rewrite Hu.
  apply after_bind, after_time.
  unfold loop_fuel. cbn [paging_loop _safe_str show prev_output repeat_count page_count].
  rewrite Hu.
  apply after_bind, after_debug. intros w3 Hq3 _.
  match goal with
  | |- context [Z.geb ?a ?b] =>
      replace (Z.geb a b) with false
        by (destruct (py_eqb _ _); destruct (py_elem _ _); reflexivity)
  end.
  apply after_bind, after_time.
  rewrite Qgtb_le.
  2:{ apply quiet_fields in Hq3 as (-> & _).
      pose proof (effective_timeout_pos cmd t Ht). lra. }
  apply after_bind, after_scan; [exact patterns_answered|].
  destruct (marker_found_find _ Hm) as [pattern Hfind]. rewrite Hfind.
  rewrite (first_marker_key _ _ Hfind).
  intros w4 Hp4.
  pose proof (played_trans _ _ _ _ _ Hp (quiet_then_played _ _ _ _ Hq3 Hp4)) as Hp'.
  destruct (next_reply w3) as [more|e|]; [|exact (Hdone (Raise e) _ Hp')
                                           |exact (Hdone OutOfFuel _ Hp')].
  cbn [fst snd negb orb].
  destruct (Z.gtb_spec (0 + 1) (page_ceiling cmd max_page)) as [Hgt|Hle].
  { apply after_ret. exact (Hdone (Ok (s0, O)) _ Hp'). }
  eapply after_weaken.
  { apply paging_loop_summary. cbn [page_count]. lia. }
  intros r w5 (_ & new & Hp5 & _).
  pose proof (played_sent _ _ _ (played_trans _ _ _ _ _ Hp' Hp5)) as Hs.
  assert (Hrest : exists rest,
             sent w5 = sent w ++ (_safe_str cmd, effective_timeout cmd t)
                              :: (first_key s0, effective_timeout cmd t) :: rest).
  { exists new. rewrite Hs. now rewrite <- !app_assoc. }
  destruct r as [x|e|]; exact Hrest.
Qed.

Lemma first_keystroke_follows_marker_witness :
  exists rest,
    sent (snd (handle_pagination (VStr (lit "display version")) 10 DEFAULT_MAX_PAGE
                 (lit "n")
                 (session_at 0 (script [ says (lit "a <Press ENTER to continue>") 1 ]))))
    = [] ++ (lit "display version", effective_timeout (VStr (lit "display version")) 10)
         :: (first_key (lit "a <Press ENTER to continue>"),
             effective_timeout (VStr (lit "display version")) 10) :: rest.
Proof.
  apply (first_keystroke_follows_marker (VStr (lit "display version")) 10
           DEFAULT_MAX_PAGE (lit "n")
           (session_at 0 (script [ says (lit "a <Press ENTER to continue>") 1 ]))
           (lit "a <Press ENTER to continue>")).
  - vm_compute. reflexivity.
  - reflexivity.
  - vm_compute. reflexivity.
  - vm_compute. reflexivity.
  - reflexivity.
Defined.

(** ** One connection attempt per task *)






